(** * Room coordinator of the SNES multiplayer server (server.js)

    A shallow embedding of the Socket.IO part of [server.js]: the room
    registry, slot allocation, the event handlers and the periodic cleanup,
    together with the part of the transport the handlers rely on
    ([socket.join], [socket.emit], [socket.to(..)], [io.to(..)], [io.emit]).
    The HTTP routes and the ROM catalogue are left out.

    JavaScript [Map]s keep insertion order, and the host fallback of the
    disconnect handler depends on it, so they are association lists here.
    The table of live sockets is a [gmap]; sets of recipients are [gset]s.
    Numbers are integers, strings are sequences of characters, and a field
    that may be missing from a payload is an [option].

    Socket.IO addresses every emission to a room name. A socket is in the
    room named by its own id, which is how [io.to(socketId)] reaches one
    socket, and in every room it entered with [socket.join]; socket ids and
    room names are the same kind of string. *)

From Stdlib Require Import ZArith String.
From stdpp Require Import base decidable option list strings pretty gmap.

Open Scope Z_scope.

(** ** JavaScript values that the handlers coerce *)

Module Js.

(** Truthiness of a possibly absent string: [undefined], [null] and the
    empty string are falsy. *)
Definition truthy (o : option string) : option string :=
  match o with
  | Some s => if decide (s = "") then None else Some s
  | None => None
  end.

(** [a || b] on possibly absent strings. *)
Definition or (a b : option string) : option string :=
  match truthy a with
  | Some s => Some s
  | None => b
  end.

(** [a || d] with a string default. *)
Definition or_default (a : option string) (d : string) : string :=
  match truthy a with
  | Some s => s
  | None => d
  end.

(** Truthiness of a possibly absent integer-valued number: [undefined],
    [null], [NaN] and [0] are falsy. *)
Definition truthy_num (o : option Z) : option Z :=
  match o with
  | Some n => if decide (n = 0) then None else Some n
  | None => None
  end.

(** [s.slice(0, n)]. *)
Definition slice0 (n : nat) (s : string) : string := String.substring 0 n s.

(** [x >>> 0] on an integer-valued number: reduction modulo 2^32. *)
Definition to_uint32 (x : Z) : Z := x mod 2 ^ 32.

End Js.

(** ** Insertion-ordered maps with string keys ([Map]) *)

Module JsMap.
Section Defs.
Context {V : Type}.

Definition t := list (string * V).

Definition empty : t := [].

Fixpoint get (k : string) (m : t) : option V :=
  match m with
  | [] => None
  | (k', v) :: m' => if decide (k = k') then Some v else get k m'
  end.

Definition has (k : string) (m : t) : bool :=
  match get k m with Some _ => true | None => false end.

(** [m.set(k, v)]: an existing key keeps its position, a new key goes last. *)
Fixpoint set (k : string) (v : V) (m : t) : t :=
  match m with
  | [] => [(k, v)]
  | (k', v') :: m' =>
      if decide (k = k') then (k, v) :: m' else (k', v') :: set k v m'
  end.

(** [m.delete(k)]. *)
Fixpoint delete (k : string) (m : t) : t :=
  match m with
  | [] => []
  | (k', v') :: m' =>
      if decide (k = k') then delete k m' else (k', v') :: delete k m'
  end.

Definition size (m : t) : nat := length m.

Definition keys (m : t) : list string := fst <$> m.

Definition values (m : t) : list V := snd <$> m.

End Defs.
Arguments t : clear implicits.
End JsMap.

(** ** Room / session state *)

(** [const MAX_PLAYERS = 4]. *)
Definition MAX_PLAYERS : Z := 4.

(** [playerInfo]: the value stored in [room.players] by [room:join]. *)
Record playerInfo := PlayerInfo {
  slot : Z;
  name : string;
  role : string;
}.

(** A room of the registry. [romName] is absent until [room:setrom] sets it. *)
Record room := Room {
  players : JsMap.t playerInfo;
  host : option string;
  emulatorSocket : option string;
  romName : option string;
}.

(** [socket.data], written by [room:join] only. *)
Record socketData := SocketData {
  d_roomId : option string;
  d_slot : option Z;
  d_isEmulator : option bool;
}.

(** A live socket: its [data] and the Socket.IO rooms it entered through
    [socket.join]. Every socket is, besides, a member of the Socket.IO room
    named by its own id; that is what [io.to(socketId)] relies on. *)
Record socket := Socket {
  data : socketData;
  joined : gset string;
}.

(** The server state: the global [rooms] map and the live sockets, keyed by
    [socket.id]. *)
Record state := State {
  rooms : JsMap.t room;
  sockets : gmap string socket;
}.

(** Payloads that the server passes on without looking inside. *)
Definition opaque := string.

Record axesT := Axes { ax_x : Z; ax_y : Z }.

(** Payload of [joypad:input]; [buttons] is an integer-valued number, the
    other fields may be missing. *)
Record joypadPayload := JoypadPayload {
  jp_roomId : option string;
  jp_slot : option Z;
  jp_buttons : Z;
  jp_axes : option axesT;
}.

Inductive signal := Offer | Answer | Ice.

(** Result of [roomInfo]. *)
Record roomInfoT := RoomInfo {
  ri_id : string;
  ri_host : option string;
  ri_players : list (string * playerInfo);
}.

(** One entry of [getAllRooms]. *)
Record roomSummary := RoomSummary {
  rs_id : string;
  rs_playerCount : nat;
  rs_maxPlayers : Z;
  rs_players : list (Z * string);
  rs_romName : option string;
}.

(** Events received from a client ([socket.on (..)]). *)
Inductive client_msg :=
| on_room_join (roomId playerName role : option string)
| on_joypad_input (payload : joypadPayload)
| on_emu_frame (frameData : opaque)
| on_emu_savestate (data : opaque)
| on_room_setrom (romName : option string)
| on_webrtc (kind : signal) (to : string) (payload : option opaque)
| on_emulator_game_started
| on_webrtc_request_offer
| on_perf_ping (ack : bool)
| on_chat_msg (text : option string).

(** Events sent by the server. *)
Inductive server_msg :=
| room_error (message : string)
| room_joined (slot : Z) (isHost : bool) (roomId : string)
    (info : option roomInfoT)
| room_updated (info : option roomInfoT)
| room_newhost (host : option string)
| rooms_list (l : list roomSummary)
| viewer_joined (socketId : string) (slot : option Z) (name : string)
| emulator_joined
| emulator_left
| emulator_game_started
| joypad_state (slot : Z) (buttons : Z) (axes : axesT)
| emu_frame (frameData : opaque)
| emu_savestate (data : opaque)
| webrtc (kind : signal) (from : string) (payload : option opaque)
| chat_msg (from : string) (slot : option Z) (text : string)
| perf_ack.

(** Where an emission is addressed. *)
Inductive dest :=
| to_self (c : string)                (* socket.emit *)
| to_others (roomId c : string)       (* socket.to(roomId).emit *)
| to_room (r : string)                (* io.to(r).emit *)
| to_all.                             (* io.emit *)

Record emission := Emit { em_dest : dest; em_msg : server_msg }.

Global Instance playerInfo_eq_dec : EqDecision playerInfo.
Proof. solve_decision. Defined.
Global Instance axesT_eq_dec : EqDecision axesT.
Proof. solve_decision. Defined.
Global Instance signal_eq_dec : EqDecision signal.
Proof. solve_decision. Defined.
Global Instance roomInfoT_eq_dec : EqDecision roomInfoT.
Proof. solve_decision. Defined.
Global Instance roomSummary_eq_dec : EqDecision roomSummary.
Proof. solve_decision. Defined.
Global Instance server_msg_eq_dec : EqDecision server_msg.
Proof. solve_decision. Defined.
Global Instance dest_eq_dec : EqDecision dest.
Proof. solve_decision. Defined.
Global Instance emission_eq_dec : EqDecision emission.
Proof. solve_decision. Defined.

(** ** Room helpers *)

Definition getAllRooms (rooms : JsMap.t room) : list roomSummary :=
  (λ kr : string * room,
     {| rs_id := kr.1;
        rs_playerCount := JsMap.size (players kr.2);
        rs_maxPlayers := MAX_PLAYERS;
        rs_players := (λ p, (slot p, name p)) <$> JsMap.values (players kr.2);
        rs_romName := Js.truthy (romName kr.2) |}) <$> rooms.

Definition broadcastRoomList (rooms : JsMap.t room) : emission :=
  Emit to_all (rooms_list (getAllRooms rooms)).

(** The room that [getOrCreateRoom] stores for an unknown id. *)
Definition new_room : room :=
  {| players := JsMap.empty; host := None; emulatorSocket := None;
     romName := None |}.

(** [getOrCreateRoom]: the registry afterwards, and the room returned. *)
Definition getOrCreateRoom (roomId : string) (rooms : JsMap.t room)
  : JsMap.t room * room :=
  match JsMap.get roomId rooms with
  | Some r => (rooms, r)
  | None => (JsMap.set roomId new_room rooms, new_room)
  end.

(** The slots held by the entries of a [players] map. *)
Definition slots_of (ps : JsMap.t playerInfo) : list Z :=
  slot <$> JsMap.values ps.

(** The set [used] of [assignSlot]. *)
Definition used_slots (r : room) : list Z := slots_of (players r).

(** The loop of [assignSlot], [n] iterations from [s] on. *)
Fixpoint scan_slots (used : list Z) (s : Z) (n : nat) : option Z :=
  match n with
  | O => None
  | S n' => if decide (s ∈ used) then scan_slots used (s + 1) n' else Some s
  end.

Definition assignSlot (r : room) : option Z :=
  scan_slots (used_slots r) 1 (Z.to_nat MAX_PLAYERS).

Definition roomInfo (rooms : JsMap.t room) (roomId : string)
  : option roomInfoT :=
  match JsMap.get roomId rooms with
  | None => None
  | Some r =>
      Some {| ri_id := roomId; ri_host := host r; ri_players := players r |}
  end.

(** ** Socket.IO event handlers

    A handler takes the state, the id [c] of the socket that received the
    event and that socket's record, and returns the new state with the
    emissions in program order. [console.log] is left out. *)

(** [String(roomId || 'default').slice(0, 32)]. *)
Definition normalize_roomId (roomId : option string) : string :=
  Js.slice0 32 (Js.or_default roomId "default").

(** [playerName || `Player ${slot}`]. *)
Definition display_name (playerName : option string) (s : Z) : string :=
  Js.or_default playerName ("Player " +:+ pretty s).

(** The loop that tells a joining emulator about the players already there. *)
Definition waiting_viewers (c : string) (ps : JsMap.t playerInfo)
  : list emission :=
  omap (λ kp : string * playerInfo,
          if decide (kp.1 = c) then None
          else if decide (role kp.2 = "emulator") then None
          else Some (Emit (to_self c)
                       (viewer_joined kp.1 (Some (slot kp.2)) (name kp.2))))
       ps.

(** [socket.on('room:join', ..)]. *)
Definition room_join (st : state) (c : string) (sk : socket)
    (roomId0 playerName role0 : option string) : state * list emission :=
  let roomId := normalize_roomId roomId0 in
  let '(rooms1, r) := getOrCreateRoom roomId (rooms st) in
  match assignSlot r with
  | None =>
      (State rooms1 (sockets st),
       [Emit (to_self c) (room_error "Room is full (max 4 players).")])
  | Some s =>
      let isHost := bool_decide (JsMap.size (players r) = 0%nat) in
      let isEmulator := bool_decide (role0 = Some "emulator") in
      let nm := display_name playerName s in
      let room' :=
        {| players :=
             JsMap.set c (PlayerInfo s nm (Js.or_default role0 "controller"))
               (players r);
           host := if isHost then Some c else host r;
           emulatorSocket :=
             if isEmulator then Some c else emulatorSocket r;
           romName := romName r |} in
      let rooms' := JsMap.set roomId room' rooms1 in
      let sk' :=
        {| data := SocketData (Some roomId) (Some s) (Some isEmulator);
           joined := {[roomId]} ∪ joined sk |} in
      let info := roomInfo rooms' roomId in
      (State rooms' (<[c := sk']> (sockets st)),
       [Emit (to_self c) (room_joined s isHost roomId info);
        Emit (to_others roomId c) (room_updated info);
        broadcastRoomList rooms']
       ++ (if isEmulator then []
           else match Js.truthy (emulatorSocket room') with
                | Some e => [Emit (to_room e) (viewer_joined c (Some s) nm)]
                | None => []
                end)
       ++ (if isEmulator
           then waiting_viewers c (players room')
                ++ [Emit (to_others roomId c) emulator_joined]
           else []))
  end.

(** [socket.data.roomId || String(payload.roomId || '')]. *)
Definition input_roomId (sk : socket) (p : joypadPayload) : string :=
  match Js.truthy (d_roomId (data sk)) with
  | Some r => r
  | None => Js.or_default (jp_roomId p) ""
  end.

(** [socket.data.slot || Number(payload.slot) || null]. *)
Definition input_slot (sk : socket) (p : joypadPayload) : option Z :=
  match Js.truthy_num (d_slot (data sk)) with
  | Some s => Some s
  | None => Js.truthy_num (jp_slot p)
  end.

(** [socket.on('joypad:input', ..)]. *)
Definition joypad_input (st : state) (c : string) (sk : socket)
    (p : joypadPayload) : state * list emission :=
  let roomId := input_roomId sk p in
  match input_slot sk p with
  | None => (st, [])
  | Some slot =>
      if decide (roomId = "") then (st, [])
      else
        match JsMap.get roomId (rooms st) with
        | None => (st, [])
        | Some room =>
            match Js.truthy (Js.or (emulatorSocket room) (host room)) with
            | None => (st, [])
            | Some target =>
                (st,
                 [Emit (to_room target)
                    (joypad_state slot (Js.to_uint32 (jp_buttons p))
                       (default (Axes 0 0) (jp_axes p)))])
            end
        end
  end.

(** [socket.to(roomId).emit(ev, x)] guarded by [if (!roomId) return]; the
    body of [emu:frame], [emu:savestate] and [emulator:game-started]. *)
Definition relay_to_room (st : state) (c : string) (sk : socket)
    (m : server_msg) : state * list emission :=
  match Js.truthy (d_roomId (data sk)) with
  | None => (st, [])
  | Some roomId => (st, [Emit (to_others roomId c) m])
  end.

(** [rooms.get(socket.data.roomId)]. *)
Definition data_room (st : state) (sk : socket) : option (string * room) :=
  match d_roomId (data sk) with
  | None => None
  | Some roomId =>
      match JsMap.get roomId (rooms st) with
      | None => None
      | Some room => Some (roomId, room)
      end
  end.

(** [socket.on('room:setrom', ..)]. *)
Definition room_setrom (st : state) (c : string) (sk : socket)
    (rom : option string) : state * list emission :=
  match data_room st sk with
  | None => (st, [])
  | Some (roomId, room) =>
      let room' :=
        {| players := players room; host := host room;
           emulatorSocket := emulatorSocket room;
           romName := Some (Js.slice0 80 (Js.or_default rom "")) |} in
      let rooms' := JsMap.set roomId room' (rooms st) in
      (State rooms' (sockets st), [broadcastRoomList rooms'])
  end.

(** [socket.on('webrtc:offer' | 'webrtc:answer' | 'webrtc:ice', ..)]. *)
Definition webrtc_relay (st : state) (c : string) (kind : signal)
    (to : string) (payload : option opaque) : state * list emission :=
  (st, [Emit (to_room to) (webrtc kind c payload)]).

(** [socket.on('webrtc:request-offer', ..)]. *)
Definition webrtc_request_offer (st : state) (c : string) (sk : socket)
  : state * list emission :=
  match data_room st sk with
  | None => (st, [])
  | Some (_, room) =>
      match Js.truthy (emulatorSocket room) with
      | None => (st, [])
      | Some e =>
          (st,
           [Emit (to_room e)
              (viewer_joined c (d_slot (data sk))
                 (Js.or_default (name <$> JsMap.get c (players room))
                    "Viewer"))])
      end
  end.

(** [socket.on('chat:msg', ..)]; [String(undefined)] is ["undefined"]. *)
Definition chat (st : state) (c : string) (sk : socket)
    (text : option string) : state * list emission :=
  match data_room st sk with
  | None => (st, [])
  | Some (roomId, room) =>
      (st,
       [Emit (to_room roomId)
          (chat_msg
             (match JsMap.get c (players room) with
              | Some p => name p
              | None => "Unknown"
              end)
             (d_slot (data sk))
             (Js.slice0 200 (default "undefined" text)))])
  end.

(** The new UI host when the host has left: the first remaining entry whose
    role is not ['viewer'], else the first remaining key. *)
Definition next_host (remaining : JsMap.t playerInfo) : option string :=
  match List.find (λ kp : string * playerInfo,
                     bool_decide (role kp.2 ≠ "viewer")) remaining with
  | Some next => Some next.1
  | None => head (JsMap.keys remaining)
  end.

(** [socket.on('disconnect', ..)]; [st] no longer holds the socket. *)
Definition disconnect (st : state) (c : string) (sk : socket)
  : state * list emission :=
  match Js.truthy (d_roomId (data sk)) with
  | None => (st, [])
  | Some roomId =>
      match JsMap.get roomId (rooms st) with
      | None => (st, [])
      | Some room =>
          let remaining := JsMap.delete c (players room) in
          let owner_left := bool_decide (emulatorSocket room = Some c) in
          let emu := if owner_left then None else emulatorSocket room in
          let out1 :=
            if owner_left then [Emit (to_room roomId) emulator_left] else [] in
          if decide (JsMap.size remaining = 0%nat) then
            let rooms' := JsMap.delete roomId (rooms st) in
            (State rooms' (sockets st), out1 ++ [broadcastRoomList rooms'])
          else
            let host_left := bool_decide (host room = Some c) in
            let host' := if host_left then next_host remaining else host room in
            let out2 :=
              if host_left then [Emit (to_room roomId) (room_newhost host')]
              else [] in
            let room' :=
              {| players := remaining; host := host'; emulatorSocket := emu;
                 romName := romName room |} in
            let rooms' := JsMap.set roomId room' (rooms st) in
            (State rooms' (sockets st),
             out1 ++ out2
             ++ [Emit (to_room roomId) (room_updated (roomInfo rooms' roomId));
                 broadcastRoomList rooms'])
      end
  end.

(** The loop of the periodic cleanup over the entries [it] of [rooms]. *)
Fixpoint sweep (it : JsMap.t room) (rooms : JsMap.t room) (cleaned : nat)
  : JsMap.t room * nat :=
  match it with
  | [] => (rooms, cleaned)
  | (id, room) :: it' =>
      if decide (JsMap.size (players room) = 0%nat)
      then sweep it' (JsMap.delete id rooms) (S cleaned)
      else sweep it' rooms cleaned
  end.

(** The [setInterval] callback. *)
Definition cleanup (st : state) : state * list emission :=
  let '(rooms', cleaned) := sweep (rooms st) (rooms st) 0%nat in
  (State rooms' (sockets st),
   if decide (cleaned = 0%nat) then [] else [broadcastRoomList rooms']).

(** The slot announced by the [room:joined] reply, if the join succeeded. *)
Definition assigned_slot (out : list emission) : option Z :=
  match out with
  | Emit _ (room_joined s _ _ _) :: _ => Some s
  | _ => None
  end.

(** Dispatch of a client event to its handler. *)
Definition handle (st : state) (c : string) (sk : socket) (m : client_msg)
  : state * list emission :=
  match m with
  | on_room_join roomId playerName role =>
      room_join st c sk roomId playerName role
  | on_joypad_input p => joypad_input st c sk p
  | on_emu_frame frameData => relay_to_room st c sk (emu_frame frameData)
  | on_emu_savestate d => relay_to_room st c sk (emu_savestate d)
  | on_room_setrom rom => room_setrom st c sk rom
  | on_webrtc kind to payload => webrtc_relay st c kind to payload
  | on_emulator_game_started => relay_to_room st c sk emulator_game_started
  | on_webrtc_request_offer => webrtc_request_offer st c sk
  | on_perf_ping ack => (st, if ack then [Emit (to_self c) perf_ack] else [])
  | on_chat_msg text => chat st c sk text
  end.

(** ** The event loop *)

Inductive event :=
| Connect (c : string)
| Message (c : string) (m : client_msg)
| Disconnect (c : string)
| CleanupTick.

Definition init : state := State JsMap.empty ∅.

Definition new_socket : socket :=
  {| data := SocketData None None None; joined := ∅ |}.

(** One event, run to completion. [None]: the event cannot happen in [st]
    (a connection id that is in use, an event on a socket that is not
    connected). On disconnection the transport drops the socket from all
    its rooms before the handler runs. *)
Definition step (st : state) (ev : event) : option (state * list emission) :=
  match ev with
  | Connect c =>
      match sockets st !! c with
      | Some _ => None
      | None => Some (State (rooms st) (<[c := new_socket]> (sockets st)), [])
      end
  | Message c m =>
      match sockets st !! c with
      | Some sk => Some (handle st c sk m)
      | None => None
      end
  | Disconnect c =>
      match sockets st !! c with
      | Some sk =>
          Some (disconnect (State (rooms st) (delete c (sockets st))) c sk)
      | None => None
      end
  | CleanupTick => Some (cleanup st)
  end.

Inductive reachable : state → Prop :=
| reachable_init : reachable init
| reachable_step st ev st' out :
    reachable st → step st ev = Some (st', out) → reachable st'.

(** Running a list of events from a state; the state reached, if every
    event could happen. *)
Fixpoint run (st : state) (evs : list event) : option state :=
  match evs with
  | [] => Some st
  | ev :: evs' =>
      match step st ev with
      | Some (st', _) => run st' evs'
      | None => None
      end
  end.

(** ** Delivery *)

(** The live sockets in the Socket.IO room [g]: the socket whose id is [g],
    and those that called [socket.join(g)]. *)
Definition members (st : state) (g : string) : gset string :=
  dom (filter (λ kv : string * socket, kv.1 = g ∨ g ∈ joined kv.2)
         (sockets st)).

(** The connections an emission reaches. [socket.to(g)] leaves out the
    Socket.IO room named by the sender's id: the sender, and any socket
    that joined a room of that name. *)
Definition recipients (st : state) (d : dest) : gset string :=
  match d with
  | to_self c => {[c]}
  | to_others g c => members st g ∖ members st c
  | to_room g => members st g
  | to_all => dom (sockets st)
  end.

(** ** Invariants of the registry *)

(** The slots of a room are pairwise distinct, lie in 1..4, and the room
    has at most four entries. *)
Definition room_ok (r : room) : Prop :=
  NoDup (used_slots r)
  ∧ Forall (λ s, 1 ≤ s ≤ MAX_PLAYERS) (used_slots r)
  ∧ (JsMap.size (players r) ≤ 4)%nat.

Definition slots_inv (st : state) : Prop :=
  Forall (λ kr : string * room, room_ok kr.2) (rooms st).

(** The registry and the [players] of each room hold each key once, as a
    [Map] does. *)
Definition keys_inv (st : state) : Prop :=
  NoDup (JsMap.keys (rooms st))
  ∧ Forall (λ kr : string * room, NoDup (JsMap.keys (players kr.2)))
      (rooms st).

(** No room of the registry is empty. *)
Definition nonempty_inv (st : state) : Prop :=
  Forall (λ kr : string * room, players kr.2 ≠ []) (rooms st).

(** ** Example sessions *)

(** A client that joins room [r] in role [rl] and gives no name. *)
Definition joins (c r rl : string) : event :=
  Message c (on_room_join (Some r) None (Some rl)).

(** The state after a trace from the initial state. *)
Definition after (evs : list event) : state := default init (run init evs).

(** Three controllers and a viewer fill room ["r1"]. *)
Definition full_room : list event :=
  [Connect "p1"; joins "p1" "r1" "controller";
   Connect "p2"; joins "p2" "r1" "controller";
   Connect "p3"; joins "p3" "r1" "controller";
   Connect "p4"; joins "p4" "r1" "viewer";
   Connect "p5"].

(** An emulator page and a controller share room ["r1"]. *)
Definition owner_and_controller : list event :=
  [Connect "p1"; joins "p1" "r1" "emulator";
   Connect "p2"; joins "p2" "r1" "controller"].

(** What the controller page sends on each tick: the button mask with the
    room and slot it believes it has, and no [axes]. *)
Definition controller_tick (buttons : Z) : joypadPayload :=
  {| jp_roomId := Some "r1"; jp_slot := Some 2; jp_buttons := buttons;
     jp_axes := None |}.

(** The host of ["r1"], a controller, shares the room with a viewer that
    joined second and a controller that joined third. *)
Definition viewer_before_controller : list event :=
  [Connect "p1"; joins "p1" "r1" "controller";
   Connect "p2"; joins "p2" "r1" "viewer";
   Connect "p3"; joins "p3" "r1" "controller"].

(** The emulator page ["s1"] and a controller share room ["r1"], and a
    third client has joined a room whose id is the emulator's socket id. *)
Definition room_named_after_socket : list event :=
  [Connect "s1"; joins "s1" "r1" "emulator";
   Connect "s2"; joins "s2" "s1" "controller";
   Connect "s3"; joins "s3" "r1" "controller"].

(** The host of ["r1"] joins a second room ["r2"] on the same socket and
    then disconnects. *)
Definition joined_two_rooms : list event :=
  [Connect "p1"; joins "p1" "r1" "controller";
   Connect "p2"; joins "p2" "r1" "controller";
   joins "p1" "r2" "controller";
   Disconnect "p1"].

(** Three controllers join ["r1"], a fourth client connects, and the
    player in slot 1 leaves. *)
Definition first_left : list event :=
  [Connect "p1"; joins "p1" "r1" "controller";
   Connect "p2"; joins "p2" "r1" "controller";
   Connect "p3"; joins "p3" "r1" "controller";
   Connect "p5"; Disconnect "p1"].

(** ** Live participants *)

(** A participant is live while its connection is open. *)
Definition live (st : state) (c : string) : Prop := is_Some (sockets st !! c).

#[global] Instance live_dec st c : Decision (live st c).
Proof. unfold live. apply _. Defined.

(** Every entry of the room belongs to a live participant. *)
Definition all_live (st : state) (r : room) : Prop :=
  Forall (λ kp : string * playerInfo, live st kp.1) (players r).

(** The slots in use by the live participants of a room. *)
Definition live_slots (st : state) (r : room) : list Z :=
  slots_of (filter (λ kp : string * playerInfo, live st kp.1) (players r)).

(** The host of ["r1"] has joined ["r2"] on the same socket and is still
    connected. *)
Definition host_moved_on : list event := removelast joined_two_rooms.

(** A player of the full room ["r1"] joins ["r2"] on the same socket and
    then disconnects. *)
Definition left_behind_in_full_room : list event :=
  full_room ++ [joins "p1" "r2" "controller"; Disconnect "p1"].

(** A socket joins a room named by the id of the emulator page of ["r1"]
    and then ["r1"] itself. *)
Definition clash_in_same_room : list event :=
  room_named_after_socket ++ [joins "s2" "r1" "controller"].

(** ** Further invariants of the registry and of the socket table *)

(** What [socket.data] says about a connected socket is true of the
    registry: the room it names exists and holds the socket, in the slot it
    names, and the socket has joined the Socket.IO room of that name. *)
Definition tracked_inv (st : state) : Prop :=
  ∀ c sk roomId,
    sockets st !! c = Some sk →
    d_roomId (data sk) = Some roomId →
    roomId ≠ "" ∧ roomId ∈ joined sk
    ∧ ∃ r p, JsMap.get roomId (rooms st) = Some r
             ∧ JsMap.get c (players r) = Some p
             ∧ d_slot (data sk) = Some (slot p).

(** The host of a room is set and is one of its players, and so is its
    emulator socket when set. *)
Definition refs_ok (r : room) : Prop :=
  (∃ h, host r = Some h ∧ h ∈ JsMap.keys (players r))
  ∧ (∀ e, emulatorSocket r = Some e → e ∈ JsMap.keys (players r)).

Definition refs_inv (st : state) : Prop :=
  Forall (λ kr : string * room, refs_ok kr.2) (rooms st).

(** A registry in which a room was left without players, as the periodic
    cleanup expects to find. *)
Definition stale_registry : state :=
  State [("a", new_room);
         ("b", Room [("x", PlayerInfo 1 "X" "controller")] (Some "x") None
                 None);
         ("c", new_room)]
    ∅.

(** A controller, a viewer and a second controller wait in ["r1"] when the
    emulator page connects. *)
Definition waiting_for_emulator : list event :=
  viewer_before_controller ++ [Connect "e1"].

(** The emulator page of ["r1"] is replaced by a second one. *)
Definition second_emulator : list event :=
  owner_and_controller ++ [Connect "e2"; joins "e2" "r1" "emulator"].

(** No registered player has the empty name. *)
Definition names_inv (st : state) : Prop :=
  Forall (λ kr : string * room,
            Forall (λ kp : string * playerInfo, name kp.2 ≠ "")
                   (players kr.2))
         (rooms st).

(** * The two client pages *)

From Stdlib Require QArith.

(** ** 32-bit integer operators *)

(** The bitwise operators of JavaScript work on the 32-bit two's complement
    value of their operands and count shifts modulo 32. *)
Module JsInt.

(** [ToInt32] on an integer-valued number. *)
Definition to_int32 (x : Z) : Z :=
  let m := Js.to_uint32 x in if decide (m < 2 ^ 31) then m else m - 2 ^ 32.

(** [a | b], [a & b], [a ^ b], [~a], [a << n] and [a >> n]. *)
Definition bor (a b : Z) : Z := to_int32 (Z.lor (to_int32 a) (to_int32 b)).
Definition band (a b : Z) : Z := to_int32 (Z.land (to_int32 a) (to_int32 b)).
Definition bxor (a b : Z) : Z := to_int32 (Z.lxor (to_int32 a) (to_int32 b)).
Definition bnot (a : Z) : Z := to_int32 (Z.lnot (to_int32 a)).
Definition shl (a n : Z) : Z := to_int32 (Z.shiftl (to_int32 a) (n mod 32)).
Definition sar (a n : Z) : Z := Z.shiftr (to_int32 a) (n mod 32).

End JsInt.

(** ** The controller page *)

(** [BTN_MAP]: the bit of each button. *)
Definition BTN_MAP : JsMap.t Z :=
  [("B", JsInt.shl 1 0); ("Y", JsInt.shl 1 1); ("SELECT", JsInt.shl 1 2);
   ("START", JsInt.shl 1 3); ("UP", JsInt.shl 1 4); ("DOWN", JsInt.shl 1 5);
   ("LEFT", JsInt.shl 1 6); ("RIGHT", JsInt.shl 1 7); ("A", JsInt.shl 1 8);
   ("X", JsInt.shl 1 9); ("L", JsInt.shl 1 10); ("R", JsInt.shl 1 11)].

(** The fields of [ControllerClient] that the input path uses;
    [cc_connected] stands for [this.socket && this.socket.connected]. *)
Record controllerClient := ControllerClient {
  cc_roomId : string;
  cc_slot : option Z;
  cc_buttons : Z;
  cc_connected : bool;
}.

Definition set_buttons (cl : controllerClient) (b : Z) : controllerClient :=
  {| cc_roomId := cc_roomId cl; cc_slot := cc_slot cl; cc_buttons := b;
     cc_connected := cc_connected cl |}.

(** [press (btnName)]: [const bit = BTN_MAP[btnName]; if (bit)
    this.buttons |= bit]. A name that is no key of [BTN_MAP] gives
    [undefined], or an object of the prototype whose 32-bit value is 0; the
    mask stays as it is in both cases. *)
Definition press (btnName : string) (cl : controllerClient)
  : controllerClient :=
  match Js.truthy_num (JsMap.get btnName BTN_MAP) with
  | Some bit => set_buttons cl (JsInt.bor (cc_buttons cl) bit)
  | None => cl
  end.

(** [release (btnName)]: [if (bit) this.buttons &= ~bit]. *)
Definition release (btnName : string) (cl : controllerClient)
  : controllerClient :=
  match Js.truthy_num (JsMap.get btnName BTN_MAP) with
  | Some bit => set_buttons cl (JsInt.band (cc_buttons cl) (JsInt.bnot bit))
  | None => cl
  end.

(** The callback of [_startSendLoop]: the payload of the [joypad:input] it
    emits, if any. *)
Definition send_tick (cl : controllerClient) : option joypadPayload :=
  if cc_connected cl then
    Some {| jp_roomId := Some (cc_roomId cl); jp_slot := cc_slot cl;
            jp_buttons := Js.to_uint32 (cc_buttons cl); jp_axes := None |}
  else None.

(** A pad of the Gamepad API: [pressed] of each button and the axes, which
    are finite numbers. *)
Record gamepad := Gamepad {
  pad_connected : bool;
  pad_buttons : list bool;
  pad_axes : list QArith_base.Q;
}.

(** [GM]: the button of each pad button index. *)
Definition GM : list (option string) :=
  [Some "B"; Some "A"; Some "Y"; Some "X"; Some "L"; Some "R"; None; None;
   Some "SELECT"; Some "START"; None; None;
   Some "UP"; Some "DOWN"; Some "LEFT"; Some "RIGHT"].

(** [state |= BTN_MAP[name]]. *)
Definition or_button (state : Z) (btnName : string) : Z :=
  JsInt.bor state (default 0 (JsMap.get btnName BTN_MAP)).

(** The loop over [b < Math.min(pad.buttons.length, 16)]. *)
Definition poll_buttons (pressed : list bool) : Z :=
  foldl (λ state (gp : option string * bool),
           match gp.1 with
           | Some btnName => if gp.2 then or_button state btnName else state
           | None => state
           end)
        0 (zip GM pressed).

(** The four tests on [pad.axes[0]] and [pad.axes[1]]. *)
Definition poll_axes (state : Z) (axes : list QArith_base.Q) : Z :=
  match axes with
  | x :: y :: _ =>
      let half := QArith_base.Qmake 1 2 in
      let s1 := if QArith_base.Qlt_le_dec half x
                then or_button state "RIGHT" else state in
      let s2 := if QArith_base.Qlt_le_dec x (QArith_base.Qopp half)
                then or_button s1 "LEFT" else s1 in
      let s3 := if QArith_base.Qlt_le_dec half y
                then or_button s2 "DOWN" else s2 in
      if QArith_base.Qlt_le_dec y (QArith_base.Qopp half)
      then or_button s3 "UP" else s3
  | _ => state
  end.

(** One run of [poll] in [startGamepadPolling], on the first pad if there
    is one. *)
Definition poll (pad : option gamepad) (cl : controllerClient)
  : controllerClient :=
  match pad with
  | Some pad =>
      if pad_connected pad
      then set_buttons cl (poll_axes (poll_buttons (pad_buttons pad))
                             (pad_axes pad))
      else cl
  | None => cl
  end.

(** What the page does to the mask between two ticks. *)
Inductive pad_event :=
| Press (btnName : string)
| Release (btnName : string)
| Poll (pad : option gamepad).

Definition pad_step (cl : controllerClient) (e : pad_event)
  : controllerClient :=
  match e with
  | Press btnName => press btnName cl
  | Release btnName => release btnName cl
  | Poll pad => poll pad cl
  end.

(** ** The emulator page *)

(** A call of [ejs.gameManager.simulateInput]. *)
Inductive call := SimulateInput (player index value : Z).

(** The fields of [SocketController] that the input path uses;
    [sc_prevState] is the [Uint32Array]. *)
Record socketController := SocketController {
  sc_slot : option Z;
  sc_ejsReady : bool;
  sc_prevState : list Z;
}.

(** [new SocketController(..)]. *)
Definition new_socketController : socketController :=
  {| sc_slot := None; sc_ejsReady := false; sc_prevState := replicate 5 0 |}.

(** [a[i]] on a typed array: [undefined] outside the array. *)
Definition typed_get (a : list Z) (i : Z) : option Z :=
  if decide (0 ≤ i) then a !! Z.to_nat i else None.

(** [a[i] = v] on a [Uint32Array]: the value is stored modulo 2^32, and a
    write outside the array is ignored. *)
Definition typed_set (a : list Z) (i v : Z) : list Z :=
  if decide (0 ≤ i) then <[Z.to_nat i := Js.to_uint32 v]> a else a.

Definition set_prevState (sc : socketController) (a : list Z)
  : socketController :=
  {| sc_slot := sc_slot sc; sc_ejsReady := sc_ejsReady sc;
     sc_prevState := a |}.

(** [_injectInput (slot, buttons)]; [ejs] tells whether
    [window.EJS_emulator] is there. A call of [simulateInput] that throws
    is counted as made. *)
Definition _injectInput (ejs : bool) (sc : socketController)
    (slot buttons : Z) : socketController * list call :=
  let ejsPlayer := slot - 1 in
  let prev :=
    default 0 (Js.truthy_num (typed_get (sc_prevState sc) slot)) in
  let changed := JsInt.bxor prev buttons in
  if decide (changed = 0) then (sc, [])
  else if negb ejs || negb (sc_ejsReady sc) then
    (set_prevState sc (typed_set (sc_prevState sc) slot buttons), [])
  else
    (set_prevState sc (typed_set (sc_prevState sc) slot buttons),
     omap (λ i,
             if decide (JsInt.band changed (JsInt.shl 1 i) = 0) then None
             else Some (SimulateInput ejsPlayer i
                          (JsInt.band (JsInt.sar buttons i) 1)))
          (seqZ 0 12)).

(** [socket.on('joypad:state', ..)]. *)
Definition on_joypad_state (ejs : bool) (sc : socketController)
    (slot buttons : Z) : socketController * list call :=
  if decide (Some slot = sc_slot sc) then (sc, [])
  else _injectInput ejs sc slot buttons.

(** [socket.on('room:joined', ..)], as far as the input path goes. *)
Definition on_room_joined (sc : socketController) (slot : Z)
  : socketController :=
  {| sc_slot := Some slot; sc_ejsReady := sc_ejsReady sc;
     sc_prevState := sc_prevState sc |}.

(** The body of the loop of [setEmulatorReady] for one [slot]; [acc] holds
    the controller and the calls made so far. *)
Definition replay_slot (ejs : bool) (acc : socketController * list call)
    (slot : Z) : socketController * list call :=
  match Js.truthy_num (typed_get (sc_prevState acc.1) slot) with
  | Some buttons =>
      let '(sc', out) :=
        _injectInput ejs
          (set_prevState acc.1 (typed_set (sc_prevState acc.1) slot 0))
          slot buttons in
      (sc', acc.2 ++ out)
  | None => acc
  end.

(** [setEmulatorReady (ready)]. *)
Definition setEmulatorReady (ejs : bool) (sc : socketController)
    (ready : bool) : socketController * list call :=
  let sc0 :=
    {| sc_slot := sc_slot sc; sc_ejsReady := ready;
       sc_prevState := sc_prevState sc |} in
  if ready then foldl (replay_slot ejs) (sc0, []) (seqZ 1 4) else (sc0, []).

(** The array holds five 32-bit values. *)
Definition prevState_ok (sc : socketController) : Prop :=
  length (sc_prevState sc) = 5%nat
  ∧ Forall (λ v, 0 ≤ v < 2 ^ 32) (sc_prevState sc).

(** * Properties *)

(** ** Facts about insertion-ordered maps *)

Section JsMapFacts.
Context {V : Type}.
Implicit Types (m : JsMap.t V) (k : string) (v : V).

Lemma get_set_eq k v m : JsMap.get k (JsMap.set k v m) = Some v.
Proof.
  induction m as [|[k' v'] m IH]; simpl; repeat case_decide; simpl;
    repeat case_decide; congruence.
Qed.

Lemma get_set_ne k k' v m :
  k ≠ k' → JsMap.get k' (JsMap.set k v m) = JsMap.get k' m.
Proof.
  intros Hne. induction m as [|[k0 v0] m IH]; simpl; repeat case_decide;
    simpl; repeat case_decide; congruence.
Qed.

Lemma get_delete_eq k m : JsMap.get k (JsMap.delete k m) = None.
Proof.
  induction m as [|[k' v'] m IH]; simpl; repeat case_decide; simpl;
    repeat case_decide; congruence.
Qed.

Lemma get_delete_ne k k' m :
  k ≠ k' → JsMap.get k' (JsMap.delete k m) = JsMap.get k' m.
Proof.
  intros Hne. induction m as [|[k0 v0] m IH]; simpl; repeat case_decide;
    simpl; repeat case_decide; congruence.
Qed.

Lemma get_elem_of k v m : JsMap.get k m = Some v → (k, v) ∈ m.
Proof.
  induction m as [|[k' v'] m IH]; simpl; [done|].
  case_decide; intros Hg.
  - simplify_eq. left.
  - right. auto.
Qed.

Lemma get_None_keys k m : JsMap.get k m = None ↔ k ∉ JsMap.keys m.
Proof.
  unfold JsMap.keys. induction m as [|[k' v'] m IH]; simpl.
  - split; [intros _; apply not_elem_of_nil | done].
  - rewrite not_elem_of_cons, <- IH. case_decide; intuition congruence.
Qed.

(** A key that is absent is appended. *)
Lemma set_fresh k v m :
  JsMap.get k m = None → JsMap.set k v m = m ++ [(k, v)].
Proof.
  induction m as [|[k' v'] m IH]; simpl; [done|].
  case_decide; [done|]. intros Hg. by rewrite IH.
Qed.

(** A key that is present keeps its place. *)
Lemma set_present k v v0 m :
  JsMap.get k m = Some v0 →
  ∃ m1 m2, m = m1 ++ (k, v0) :: m2 ∧ JsMap.set k v m = m1 ++ (k, v) :: m2.
Proof.
  induction m as [|[k' v'] m IH]; simpl; [done|].
  case_decide; intros Hg.
  - simplify_eq. by exists [], m.
  - destruct (IH Hg) as (m1 & m2 & -> & ->). by exists ((k', v') :: m1), m2.
Qed.

Lemma set_set k v v0 m : JsMap.set k v (JsMap.set k v0 m) = JsMap.set k v m.
Proof.
  induction m as [|[k' v'] m IH]; simpl; repeat case_decide; simpl;
    repeat case_decide; congruence.
Qed.

Lemma delete_sublist k m : JsMap.delete k m `sublist_of` m.
Proof.
  induction m as [|[k' v'] m IH]; simpl; [done|].
  case_decide; by constructor.
Qed.

Lemma delete_not_key k m : k ∉ JsMap.keys (JsMap.delete k m).
Proof. apply get_None_keys, get_delete_eq. Qed.

Lemma delete_elem_of k k' v m :
  (k', v) ∈ JsMap.delete k m ↔ k' ≠ k ∧ (k', v) ∈ m.
Proof.
  induction m as [|[k0 v0] m IH]; simpl.
  - split; [by intros ?%elem_of_nil | by intros [_ ?%elem_of_nil]].
  - case_decide; rewrite ?elem_of_cons, IH; intuition congruence.
Qed.

Lemma Forall_set (P : string * V → Prop) k v m :
  P (k, v) → Forall P m → Forall P (JsMap.set k v m).
Proof.
  intros HP. induction 1 as [|[k' v'] m ? ? IH]; simpl.
  - by repeat constructor.
  - case_decide; by constructor.
Qed.

Lemma Forall_delete (P : string * V → Prop) k m :
  Forall P m → Forall P (JsMap.delete k m).
Proof.
  induction 1 as [|[k' v'] m ? ? IH]; simpl; [done|].
  case_decide; [done | by constructor].
Qed.

Lemma keys_set k v m :
  JsMap.keys (JsMap.set k v m)
  = if decide (k ∈ JsMap.keys m) then JsMap.keys m else JsMap.keys m ++ [k].
Proof.
  unfold JsMap.keys. induction m as [|[k' v'] m IH].
  - destruct (decide (k ∈ fst <$> [])) as [Hin|_]; [|done].
    by apply elem_of_nil in Hin.
  - change (JsMap.set k v ((k', v') :: m))
      with (if decide (k = k') then (k, v) :: m
            else (k', v') :: JsMap.set k v m).
    rewrite !fmap_cons. change ((k', v').1) with k'.
    destruct (decide (k = k')) as [->|Hne].
    + destruct (decide (k' ∈ k' :: (fst <$> m))) as [_|Hin]; [done|].
      destruct Hin. by left.
    + rewrite fmap_cons, IH. change ((k', v').1) with k'.
      destruct (decide (k ∈ fst <$> m)) as [Hin|Hin];
        destruct (decide (k ∈ k' :: (fst <$> m))) as [Hin'|Hin']; try done.
      * destruct Hin'. by right.
      * apply elem_of_cons in Hin' as [?|?]; done.
Qed.

Lemma NoDup_keys_set k v m :
  NoDup (JsMap.keys m) → NoDup (JsMap.keys (JsMap.set k v m)).
Proof.
  intros Hnd. rewrite keys_set. case_decide as Hin; [done|].
  apply NoDup_app. split_and!; [done | | apply NoDup_singleton].
  intros x Hx Hx'%list_elem_of_singleton. by subst.
Qed.

Lemma NoDup_keys_delete k m :
  NoDup (JsMap.keys m) → NoDup (JsMap.keys (JsMap.delete k m)).
Proof.
  intros Hnd. apply (sublist_NoDup _ (JsMap.keys m)); [exact Hnd|].
  unfold JsMap.keys. apply fmap_sublist, delete_sublist.
Qed.

(** With unique keys, [get] finds every entry. *)
Lemma elem_of_get k v m :
  NoDup (JsMap.keys m) → (k, v) ∈ m → JsMap.get k m = Some v.
Proof.
  unfold JsMap.keys. induction m as [|[k' v'] m IH]; simpl.
  - by intros _ ?%elem_of_nil.
  - intros [Hk' Hnd]%NoDup_cons [[= -> ->]|Hin]%elem_of_cons.
    + by rewrite decide_True.
    + rewrite decide_False; [by apply IH|].
      intros ->. apply Hk'. by apply (list_elem_of_fmap_2 fst _ (k', v)).
Qed.

End JsMapFacts.

(** ** Slot allocation *)

Lemma Forall_sublist_of {A} (P : A → Prop) (l1 l2 : list A) :
  l1 `sublist_of` l2 → Forall P l2 → Forall P l1.
Proof.
  induction 1 as [|x l1 l2 ? IH|x l1 l2 ? IH]; [done| |].
  - intros [? ?]%Forall_cons. apply Forall_cons. auto.
  - intros [? ?]%Forall_cons. auto.
Qed.

Lemma scan_slots_Some used s n x :
  scan_slots used s n = Some x →
  s ≤ x < s + Z.of_nat n ∧ (x ∉ used)
  ∧ (∀ y, s ≤ y < x → y ∈ used).
Proof.
  revert s. induction n as [|n IH]; intros s; simpl; [done|].
  case_decide as Hs.
  - intros (? & ? & Hlow)%IH. split_and!; [lia | lia | done |].
    intros y Hy. destruct (decide (y = s)) as [->|]; [done|].
    apply Hlow. lia.
  - intros [= <-]. split_and!; [lia | lia | done |]. intros y Hy. lia.
Qed.

Lemma scan_slots_None used s n :
  scan_slots used s n = None ↔ ∀ y, s ≤ y < s + Z.of_nat n → y ∈ used.
Proof.
  revert s. induction n as [|n IH]; intros s; simpl.
  - split; [intros _ y Hy; lia | done].
  - case_decide as Hs.
    + rewrite IH. split; intros H y Hy.
      * destruct (decide (y = s)) as [->|]; [done|]. apply H. lia.
      * apply H. lia.
    + split; [done|]. intros H. destruct Hs. apply H. lia.
Qed.

(** A slot returned by [assignSlot] lies in 1..4, is held by nobody, and
    every lower slot is held by somebody. *)
Lemma assignSlot_Some r x :
  assignSlot r = Some x →
  1 ≤ x ≤ MAX_PLAYERS ∧ (x ∉ used_slots r)
  ∧ (∀ y, 1 ≤ y < x → y ∈ used_slots r).
Proof.
  unfold assignSlot. intros (? & ? & ?)%scan_slots_Some.
  unfold MAX_PLAYERS in *. split_and!; [lia | lia | done | done].
Qed.

(** [assignSlot] returns [null] exactly when every slot of 1..4 is held. *)
Lemma assignSlot_None r :
  assignSlot r = None ↔ ∀ y, 1 ≤ y ≤ MAX_PLAYERS → y ∈ used_slots r.
Proof.
  unfold assignSlot. rewrite scan_slots_None. unfold MAX_PLAYERS.
  split; intros H y Hy; apply H; lia.
Qed.

(** The lowest free slot is the one returned. *)
Lemma assignSlot_lowest r x :
  1 ≤ x ≤ MAX_PLAYERS → x ∉ used_slots r →
  (∀ y, 1 ≤ y < x → y ∈ used_slots r) →
  assignSlot r = Some x.
Proof.
  intros Hx Hfree Hlow. destruct (assignSlot r) as [x'|] eqn:Ha.
  - apply assignSlot_Some in Ha as (Hx' & Hfree' & Hlow').
    f_equal. destruct (Z.lt_trichotomy x x') as [?|[?|?]]; [|done|].
    + destruct Hfree. apply Hlow'. lia.
    + destruct Hfree'. apply Hlow. lia.
  - destruct Hfree. by eapply assignSlot_None.
Qed.

Lemma assignSlot_new_room : assignSlot new_room = Some 1.
Proof. reflexivity. Qed.

(** Distinct slots within 1..4 are at most four. *)
Lemma distinct_slots_length (l : list Z) :
  NoDup l → Forall (λ s, 1 ≤ s ≤ MAX_PLAYERS) l → (length l ≤ 4)%nat.
Proof.
  intros Hnd Hr.
  assert (l ⊆+ seqZ 1 4) as Hsub.
  { apply NoDup_submseteq; [done|]. intros x Hx.
    rewrite Forall_forall in Hr. apply Hr in Hx. unfold MAX_PLAYERS in Hx.
    apply elem_of_seqZ. lia. }
  apply submseteq_length in Hsub. by rewrite length_seqZ in Hsub.
Qed.

(** Four distinct slots within 1..4 are all of them. *)
Lemma distinct_slots_full (l : list Z) y :
  NoDup l → Forall (λ s, 1 ≤ s ≤ MAX_PLAYERS) l → length l = 4%nat →
  1 ≤ y ≤ MAX_PLAYERS → y ∈ l.
Proof.
  intros Hnd Hr Hlen Hy.
  assert (l ⊆+ seqZ 1 4) as Hsub.
  { apply NoDup_submseteq; [done|]. intros x Hx.
    rewrite Forall_forall in Hr. apply Hr in Hx. unfold MAX_PLAYERS in Hx.
    apply elem_of_seqZ. lia. }
  apply submseteq_length_Permutation in Hsub.
  - rewrite Hsub. apply elem_of_seqZ. unfold MAX_PLAYERS in Hy. lia.
  - rewrite length_seqZ. lia.
Qed.

Lemma used_slots_length r : length (used_slots r) = JsMap.size (players r).
Proof.
  unfold used_slots, slots_of, JsMap.values, JsMap.size.
  by rewrite !length_fmap.
Qed.

Lemma room_ok_new_room : room_ok new_room.
Proof.
  unfold room_ok, new_room, used_slots, slots_of; simpl.
  split_and!; [constructor | constructor | lia].
Qed.

(** A room holding four players has no free slot. *)
Lemma room_ok_full r :
  room_ok r → JsMap.size (players r) = 4%nat → assignSlot r = None.
Proof.
  intros (Hnd & Hr & _) Hsz. apply assignSlot_None. intros y Hy.
  apply distinct_slots_full; [done | done | | done].
  by rewrite used_slots_length.
Qed.

(** Storing a player under a slot nobody holds keeps the room well formed,
    whether the key is new or already present. *)
Lemma room_ok_set r c p h e rn :
  room_ok r → 1 ≤ slot p ≤ MAX_PLAYERS → slot p ∉ used_slots r →
  room_ok (Room (JsMap.set c p (players r)) h e rn).
Proof.
  intros (Hnd & Hr & Hsz) Hp Hfree.
  assert (NoDup (used_slots (Room (JsMap.set c p (players r)) h e rn))
          ∧ Forall (λ s, 1 ≤ s ≤ MAX_PLAYERS)
              (used_slots (Room (JsMap.set c p (players r)) h e rn)))
    as [Hnd' Hr'].
  { unfold used_slots, slots_of, JsMap.values in *; simpl.
    destruct (JsMap.get c (players r)) as [p0|] eqn:Hg.
    - destruct (set_present c p p0 _ Hg) as (m1 & m2 & Hm & ->).
      rewrite Hm in *. rewrite !fmap_app, !fmap_cons in *. simpl in *.
      apply NoDup_app in Hnd as (Hn1 & Hd & Hn2).
      apply NoDup_cons in Hn2 as [Hp0 Hn2].
      apply Forall_app in Hr as [Hr1 Hr2]. apply Forall_cons in Hr2 as [_ Hr2].
      rewrite elem_of_app, elem_of_cons in Hfree.
      split.
      + apply NoDup_app. split_and!; [done | | ].
        * intros x Hx1 [->|Hx2]%elem_of_cons; [tauto|].
          apply (Hd x Hx1). by right.
        * apply NoDup_cons. split; [tauto | done].
      + apply Forall_app. split; [done|]. by apply Forall_cons.
    - rewrite (set_fresh _ _ _ Hg), !fmap_app. simpl. split.
      + apply NoDup_app. split_and!; [done | | apply NoDup_singleton].
        intros x Hx ->%list_elem_of_singleton. done.
      + apply Forall_app. split; [done|]. by apply Forall_singleton. }
  split_and!; [done | done |].
  rewrite <- used_slots_length. by apply distinct_slots_length.
Qed.

(** Removing a player keeps the room well formed. *)
Lemma room_ok_delete r c h e rn :
  room_ok r → room_ok (Room (JsMap.delete c (players r)) h e rn).
Proof.
  intros (Hnd & Hr & Hsz).
  assert (used_slots (Room (JsMap.delete c (players r)) h e rn)
            `sublist_of` used_slots r) as Hsub.
  { unfold used_slots, slots_of, JsMap.values; simpl.
    do 2 apply fmap_sublist. apply delete_sublist. }
  split_and!.
  - by eapply sublist_NoDup.
  - by eapply Forall_sublist_of.
  - apply sublist_length in Hsub. rewrite !used_slots_length in Hsub.
    simpl in *. lia.
Qed.

(** ** The handlers preserve the invariants *)

Lemma rooms_get_ok (Q : room → Prop) (rs : JsMap.t room) k r :
  Forall (λ kr : string * room, Q kr.2) rs → JsMap.get k rs = Some r → Q r.
Proof.
  intros HF Hg%get_elem_of. rewrite Forall_forall in HF. by apply HF in Hg.
Qed.

Lemma set_not_nil {V} k (v : V) m : JsMap.set k v m ≠ [].
Proof. destruct m as [|[k' v'] m]; simpl; [done|]. by case_decide. Qed.

Lemma size_0_nil {V} (m : JsMap.t V) : JsMap.size m = 0%nat ↔ m = [].
Proof. unfold JsMap.size. by destruct m. Qed.

Lemma room_join_slots_inv st c sk rid pn rl :
  slots_inv st → slots_inv (room_join st c sk rid pn rl).1.
Proof.
  unfold slots_inv, room_join, getOrCreateRoom. intros Hinv.
  destruct (JsMap.get _ (rooms st)) as [r|] eqn:Hg.
  - pose proof (rooms_get_ok room_ok _ _ _ Hinv Hg) as Hok.
    destruct (assignSlot r) as [s|] eqn:Ha; simpl; [|done].
    apply assignSlot_Some in Ha as (Hs & Hfree & _).
    apply Forall_set; [|done]. simpl. by apply room_ok_set.
  - rewrite assignSlot_new_room. simpl.
    apply Forall_set; [|apply Forall_set; [apply room_ok_new_room | done]].
    simpl. apply (room_ok_set new_room); [apply room_ok_new_room | | ].
    + simpl. unfold MAX_PLAYERS. lia.
    + simpl. apply not_elem_of_nil.
Qed.

Lemma room_join_nonempty_inv st c sk rid pn rl :
  nonempty_inv st → nonempty_inv (room_join st c sk rid pn rl).1.
Proof.
  unfold nonempty_inv, room_join, getOrCreateRoom. intros Hinv.
  destruct (JsMap.get _ (rooms st)) as [r|] eqn:Hg.
  - destruct (assignSlot r) as [s|] eqn:Ha; simpl; [|done].
    apply Forall_set; [|done]. simpl. apply set_not_nil.
  - rewrite assignSlot_new_room. simpl. rewrite set_set.
    apply Forall_set; [|done]. simpl. done.
Qed.

Lemma room_setrom_rooms st c sk rom :
  (room_setrom st c sk rom).1 = st
  ∨ ∃ roomId r,
      JsMap.get roomId (rooms st) = Some r
      ∧ rooms (room_setrom st c sk rom).1
        = JsMap.set roomId
            (Room (players r) (host r) (emulatorSocket r)
               (Some (Js.slice0 80 (Js.or_default rom "")))) (rooms st).
Proof.
  unfold room_setrom, data_room. destruct (d_roomId (data sk)) as [rid|];
    [|by left].
  destruct (JsMap.get rid (rooms st)) as [r|] eqn:Hg; [|by left].
  right. by exists rid, r.
Qed.

Lemma room_setrom_slots_inv st c sk rom :
  slots_inv st → slots_inv (room_setrom st c sk rom).1.
Proof.
  intros Hinv. destruct (room_setrom_rooms st c sk rom)
    as [->|(rid & r & Hg & Hr)]; [done|].
  unfold slots_inv. rewrite Hr. apply Forall_set; [|done].
  apply (rooms_get_ok room_ok _ _ _ Hinv Hg).
Qed.

Lemma room_setrom_nonempty_inv st c sk rom :
  nonempty_inv st → nonempty_inv (room_setrom st c sk rom).1.
Proof.
  intros Hinv. destruct (room_setrom_rooms st c sk rom)
    as [->|(rid & r & Hg & Hr)]; [done|].
  unfold nonempty_inv. rewrite Hr. apply Forall_set; [|done].
  apply (rooms_get_ok (λ r, players r ≠ []) _ _ _ Hinv Hg).
Qed.

Lemma disconnect_slots_inv st c sk :
  slots_inv st → slots_inv (disconnect st c sk).1.
Proof.
  unfold slots_inv, disconnect. intros Hinv.
  destruct (Js.truthy _) as [rid|]; [|done].
  destruct (JsMap.get rid (rooms st)) as [r|] eqn:Hg; [|done].
  case_decide; simpl.
  - by apply Forall_delete.
  - apply Forall_set; [|done]. simpl. apply room_ok_delete.
    apply (rooms_get_ok room_ok _ _ _ Hinv Hg).
Qed.

Lemma disconnect_nonempty_inv st c sk :
  nonempty_inv st → nonempty_inv (disconnect st c sk).1.
Proof.
  unfold nonempty_inv, disconnect. intros Hinv.
  destruct (Js.truthy _) as [rid|]; [|done].
  destruct (JsMap.get rid (rooms st)) as [r|] eqn:Hg; [|done].
  case_decide as Hsz; simpl.
  - by apply Forall_delete.
  - apply Forall_set; [|done]. simpl. by rewrite <- size_0_nil.
Qed.

Lemma sweep_Forall (P : string * room → Prop) it rs n :
  Forall P rs → Forall P (sweep it rs n).1.
Proof.
  revert rs n. induction it as [|[id r] it IH]; intros rs n HF; simpl;
    [done|].
  case_decide; apply IH; [by apply Forall_delete | done].
Qed.

(** A sweep over rooms that all have players removes nothing. *)
Lemma sweep_clean it rs n :
  Forall (λ kr : string * room, players kr.2 ≠ []) it →
  sweep it rs n = (rs, n).
Proof.
  revert rs n. induction it as [|[id r] it IH]; intros rs n HF; simpl;
    [done|].
  apply Forall_cons in HF as [Hr HF]. simpl in Hr.
  case_decide as Hsz; [by apply size_0_nil in Hsz|]. by apply IH.
Qed.

Lemma cleanup_rooms st :
  rooms (cleanup st).1 = (sweep (rooms st) (rooms st) 0).1.
Proof. unfold cleanup. by destruct (sweep _ _ _). Qed.

Lemma cleanup_slots_inv st : slots_inv st → slots_inv (cleanup st).1.
Proof. unfold slots_inv. rewrite cleanup_rooms. apply sweep_Forall. Qed.

Lemma cleanup_nonempty_inv st : nonempty_inv st → nonempty_inv (cleanup st).1.
Proof. unfold nonempty_inv. rewrite cleanup_rooms. apply sweep_Forall. Qed.

(** The handlers other than [room:join] and [room:setrom] leave the state
    as it is. *)
Lemma handle_other_state st c sk m :
  (∀ a b d, m ≠ on_room_join a b d) →
  (∀ rom, m ≠ on_room_setrom rom) →
  (handle st c sk m).1 = st.
Proof.
  intros Hj Hs.
  destruct m as [a b d|p|fd|sd|rom|kind to payload| | |ack|text]; simpl;
    try done.
  - by destruct (Hj a b d).
  - unfold joypad_input. repeat (case_match; simpl; try done).
  - unfold relay_to_room. by case_match.
  - unfold relay_to_room. by case_match.
  - by destruct (Hs rom).
  - unfold relay_to_room. by case_match.
  - unfold webrtc_request_offer. repeat (case_match; simpl; try done).
  - unfold chat. repeat (case_match; simpl; try done).
Qed.

Lemma handle_slots_inv st c sk m :
  slots_inv st → slots_inv (handle st c sk m).1.
Proof.
  intros Hinv. destruct m;
    try (rewrite handle_other_state; [done | done | done]).
  - by apply room_join_slots_inv.
  - by apply room_setrom_slots_inv.
Qed.

Lemma handle_nonempty_inv st c sk m :
  nonempty_inv st → nonempty_inv (handle st c sk m).1.
Proof.
  intros Hinv. destruct m;
    try (rewrite handle_other_state; [done | done | done]).
  - by apply room_join_nonempty_inv.
  - by apply room_setrom_nonempty_inv.
Qed.

Lemma step_slots_inv st ev st' out :
  slots_inv st → step st ev = Some (st', out) → slots_inv st'.
Proof.
  intros Hinv. destruct ev as [c|c m|c|]; simpl.
  - destruct (sockets st !! c); [done|]. by intros [= <- <-].
  - destruct (sockets st !! c) as [sk|]; [|done]. intros [= H].
    replace st' with (handle st c sk m).1 by by rewrite H.
    by apply handle_slots_inv.
  - destruct (sockets st !! c) as [sk|]; [|done]. intros [= H].
    replace st' with
      (disconnect (State (rooms st) (delete c (sockets st))) c sk).1
      by by rewrite H.
    by apply disconnect_slots_inv.
  - intros [= H]. replace st' with (cleanup st).1 by by rewrite H.
    by apply cleanup_slots_inv.
Qed.

Lemma step_nonempty_inv st ev st' out :
  nonempty_inv st → step st ev = Some (st', out) → nonempty_inv st'.
Proof.
  intros Hinv. destruct ev as [c|c m|c|]; simpl.
  - destruct (sockets st !! c); [done|]. by intros [= <- <-].
  - destruct (sockets st !! c) as [sk|]; [|done]. intros [= H].
    replace st' with (handle st c sk m).1 by by rewrite H.
    by apply handle_nonempty_inv.
  - destruct (sockets st !! c) as [sk|]; [|done]. intros [= H].
    replace st' with
      (disconnect (State (rooms st) (delete c (sockets st))) c sk).1
      by by rewrite H.
    by apply disconnect_nonempty_inv.
  - intros [= H]. replace st' with (cleanup st).1 by by rewrite H.
    by apply cleanup_nonempty_inv.
Qed.

Lemma reachable_slots_inv st : reachable st → slots_inv st.
Proof.
  induction 1 as [|st ev st' out _ IH Hstep]; [by constructor|].
  by eapply step_slots_inv.
Qed.

Lemma reachable_nonempty_inv st : reachable st → nonempty_inv st.
Proof.
  induction 1 as [|st ev st' out _ IH Hstep]; [by constructor|].
  by eapply step_nonempty_inv.
Qed.

(** A trace that runs ends in a reachable state. *)
Lemma run_reachable st evs st' :
  reachable st → run st evs = Some st' → reachable st'.
Proof.
  revert st. induction evs as [|ev evs IH]; intros st Hr; simpl.
  - by intros [= <-].
  - destruct (step st ev) as [[st1 out]|] eqn:Hs; [|done].
    apply IH. by eapply reachable_step.
Qed.

(** ** The association lists are maps *)

Lemma room_join_keys_inv st c sk rid pn rl :
  keys_inv st → keys_inv (room_join st c sk rid pn rl).1.
Proof.
  unfold keys_inv, room_join, getOrCreateRoom. intros [Hk Hp].
  destruct (JsMap.get _ (rooms st)) as [r|] eqn:Hg.
  - destruct (assignSlot r) as [s|] eqn:Ha; simpl; [|done].
    split; [by apply NoDup_keys_set|].
    apply Forall_set; [|done]. simpl. apply NoDup_keys_set.
    apply (rooms_get_ok (λ r, NoDup (JsMap.keys (players r))) _ _ _ Hp Hg).
  - rewrite assignSlot_new_room. simpl. rewrite set_set.
    split; [by apply NoDup_keys_set|].
    apply Forall_set; [|done]. simpl. apply NoDup_singleton.
Qed.

Lemma room_setrom_keys_inv st c sk rom :
  keys_inv st → keys_inv (room_setrom st c sk rom).1.
Proof.
  intros [Hk Hp]. destruct (room_setrom_rooms st c sk rom)
    as [->|(rid & r & Hg & Hr)]; [done|].
  unfold keys_inv. rewrite Hr. split; [by apply NoDup_keys_set|].
  apply Forall_set; [|done].
  apply (rooms_get_ok (λ r, NoDup (JsMap.keys (players r))) _ _ _ Hp Hg).
Qed.

Lemma disconnect_keys_inv st c sk :
  keys_inv st → keys_inv (disconnect st c sk).1.
Proof.
  unfold keys_inv, disconnect. intros [Hk Hp].
  destruct (Js.truthy _) as [rid|]; [|done].
  destruct (JsMap.get rid (rooms st)) as [r|] eqn:Hg; [|done].
  case_decide; simpl.
  - split; [by apply NoDup_keys_delete | by apply Forall_delete].
  - split; [by apply NoDup_keys_set|].
    apply Forall_set; [|done]. simpl. apply NoDup_keys_delete.
    apply (rooms_get_ok (λ r, NoDup (JsMap.keys (players r))) _ _ _ Hp Hg).
Qed.

Lemma sweep_keys it rs n :
  NoDup (JsMap.keys rs) → NoDup (JsMap.keys (sweep it rs n).1).
Proof.
  revert rs n. induction it as [|[id r] it IH]; intros rs n Hnd; simpl;
    [done|].
  case_decide; apply IH; [by apply NoDup_keys_delete | done].
Qed.

Lemma cleanup_keys_inv st : keys_inv st → keys_inv (cleanup st).1.
Proof.
  unfold keys_inv. rewrite cleanup_rooms. intros [Hk Hp].
  split; [by apply sweep_keys | by apply sweep_Forall].
Qed.

Lemma handle_keys_inv st c sk m :
  keys_inv st → keys_inv (handle st c sk m).1.
Proof.
  intros Hinv. destruct m;
    try (rewrite handle_other_state; [done | done | done]).
  - by apply room_join_keys_inv.
  - by apply room_setrom_keys_inv.
Qed.

(** In every reachable state the registry and the [players] of every room
    have unique keys. *)
Lemma reachable_keys_inv st : reachable st → keys_inv st.
Proof.
  induction 1 as [|st ev st' out _ IH Hstep].
  - split; constructor.
  - destruct ev as [c|c m|c|]; simpl in Hstep.
    + destruct (sockets st !! c); [done|]. by injection Hstep as <- <-.
    + destruct (sockets st !! c) as [sk|]; [|done]. injection Hstep as H.
      replace st' with (handle st c sk m).1 by by rewrite H.
      by apply handle_keys_inv.
    + destruct (sockets st !! c) as [sk|]; [|done]. injection Hstep as H.
      replace st' with
        (disconnect (State (rooms st) (delete c (sockets st))) c sk).1
        by by rewrite H.
      by apply disconnect_keys_inv.
    + injection Hstep as H. replace st' with (cleanup st).1 by by rewrite H.
      by apply cleanup_keys_inv.
Qed.

Lemma after_reachable evs : is_Some (run init evs) → reachable (after evs).
Proof.
  intros [st Hst]. unfold after. rewrite Hst. simpl.
  eapply run_reachable; [apply reachable_init | done].
Qed.

Lemma full_room_reachable : reachable (after full_room).
Proof. apply after_reachable. eexists. vm_compute. reflexivity. Qed.

(** ** Claims about the registry invariants *)

Lemma NoDup_fmap_elem_inj {A B} (f : A → B) (l : list A) x y :
  NoDup (f <$> l) → x ∈ l → y ∈ l → f x = f y → x = y.
Proof.
  induction l as [|a l IH]; simpl; [by intros _ ?%elem_of_nil|].
  intros [Ha Hnd]%NoDup_cons [->|Hx]%elem_of_cons [->|Hy]%elem_of_cons Hf.
  - done.
  - destruct Ha. rewrite Hf. by apply list_elem_of_fmap_2.
  - destruct Ha. rewrite <- Hf. by apply list_elem_of_fmap_2.
  - by apply IH.
Qed.

Lemma elem_of_slots_of (ps : JsMap.t playerInfo) s :
  s ∈ slots_of ps ↔ ∃ k q, (k, q) ∈ ps ∧ slot q = s.
Proof.
  unfold slots_of, JsMap.values. rewrite list_elem_of_fmap. split.
  - intros (q & -> & ([k q'] & -> & Hin)%list_elem_of_fmap). by exists k, q'.
  - intros (k & q & Hin & <-). exists q. split; [done|].
    apply list_elem_of_fmap. by exists (k, q).
Qed.

(** What [room_ok] says entry by entry. *)
Lemma room_ok_entries r :
  room_ok r →
  (∀ c1 p1 c2 p2,
     (c1, p1) ∈ players r → (c2, p2) ∈ players r → slot p1 = slot p2 →
     c1 = c2 ∧ p1 = p2)
  ∧ (∀ c p, (c, p) ∈ players r → slot p ∈ [1; 2; 3; 4])
  ∧ (JsMap.size (players r) ≤ 4)%nat.
Proof.
  intros (Hnd & Hr & Hsz). split_and!; [| |done].
  - intros c1 p1 c2 p2 H1 H2 Hs.
    unfold used_slots, slots_of, JsMap.values in Hnd.
    rewrite <- list_fmap_compose in Hnd.
    assert ((c1, p1) = (c2, p2)) as [= -> ->]; [|done].
    by eapply (NoDup_fmap_elem_inj (slot ∘ snd)).
  - intros c p Hin. rewrite Forall_forall in Hr.
    assert (1 ≤ slot p ≤ MAX_PLAYERS) as Hp.
    { apply Hr. apply elem_of_slots_of. by exists c, p. }
    unfold MAX_PLAYERS in Hp. change [1; 2; 3; 4] with (seqZ 1 4).
    apply elem_of_seqZ. lia.
Qed.

(** C1. In every reachable state, in each room of the registry two
    entries of [players] with the same slot are one and the same entry,
    every slot is one of 1, 2, 3, 4, and there are at most four entries.
    The property ([slots_inv]) holds initially and is kept by every event
    of the loop: connection, any client message (join included),
    disconnection and the periodic cleanup. *)
Theorem C1_slots_invariant :
  (∀ st, reachable st →
     ∀ roomId r, (roomId, r) ∈ rooms st →
       (∀ c1 p1 c2 p2,
          (c1, p1) ∈ players r → (c2, p2) ∈ players r →
          slot p1 = slot p2 → c1 = c2 ∧ p1 = p2)
       ∧ (∀ c p, (c, p) ∈ players r → slot p ∈ [1; 2; 3; 4])
       ∧ (JsMap.size (players r) ≤ 4)%nat)
  ∧ slots_inv init
  ∧ (∀ st ev st' out,
       slots_inv st → step st ev = Some (st', out) → slots_inv st').
Proof.
  split_and!.
  - intros st Hreach%reachable_slots_inv roomId r Hin.
    apply room_ok_entries. unfold slots_inv in Hreach.
    rewrite Forall_forall in Hreach. by apply Hreach in Hin.
  - by constructor.
  - apply step_slots_inv.
Qed.

Lemma C1_slots_invariant_witness :
  (∀ roomId r, (roomId, r) ∈ rooms (after full_room) →
     (∀ c1 p1 c2 p2,
        (c1, p1) ∈ players r → (c2, p2) ∈ players r →
        slot p1 = slot p2 → c1 = c2 ∧ p1 = p2)
     ∧ (∀ c p, (c, p) ∈ players r → slot p ∈ [1; 2; 3; 4])
     ∧ (JsMap.size (players r) ≤ 4)%nat)
  ∧ slots_inv (after (full_room ++ [Disconnect "p2"])).
Proof.
  destruct C1_slots_invariant as (Hreach & Hinit & Hstep). split.
  - apply Hreach, full_room_reachable.
  - apply (Hstep (after full_room) (Disconnect "p2") _
             (default [] (snd <$> step (after full_room) (Disconnect "p2")))).
    + apply reachable_slots_inv, full_room_reachable.
    + vm_compute. reflexivity.
Defined.

Lemma state_eta st : State (rooms st) (sockets st) = st.
Proof. by destruct st. Qed.

(** Joining a room that has no free slot only reports the error. *)
Lemma room_join_no_slot st c sk roomId playerName rl r :
  JsMap.get (normalize_roomId roomId) (rooms st) = Some r →
  assignSlot r = None →
  room_join st c sk roomId playerName rl
  = (st, [Emit (to_self c) (room_error "Room is full (max 4 players).")]).
Proof.
  intros Hg Ha. unfold room_join, getOrCreateRoom. rewrite Hg, Ha.
  by rewrite state_eta.
Qed.

(** C2. In a reachable state, a [room:join] for a room that already holds
    [MAX_PLAYERS] players changes nothing in the state (rooms, players,
    host, emulator socket, ROM name, socket data) and emits one event, the
    room-full error, with [socket.emit], which reaches the requesting
    socket and nobody else. *)
Theorem C2_join_full_room st c sk roomId playerName rl r :
  reachable st →
  sockets st !! c = Some sk →
  JsMap.get (normalize_roomId roomId) (rooms st) = Some r →
  JsMap.size (players r) = Z.to_nat MAX_PLAYERS →
  step st (Message c (on_room_join roomId playerName rl))
  = Some (st, [Emit (to_self c) (room_error "Room is full (max 4 players).")])
  ∧ ∀ x, x ∈ recipients st (to_self c) ↔ x = c.
Proof.
  intros Hreach Hsk Hg Hsz. split.
  - simpl. rewrite Hsk. simpl. f_equal.
    apply (room_join_no_slot _ _ _ _ _ _ r); [done|].
    apply room_ok_full; [|done].
    apply reachable_slots_inv in Hreach.
    apply (rooms_get_ok room_ok _ _ _ Hreach Hg).
  - intros x. simpl. apply elem_of_singleton.
Qed.

Lemma C2_join_full_room_witness :
  step (after full_room)
    (Message "p5" (on_room_join (Some "r1") (Some "Eve") (Some "controller")))
  = Some (after full_room,
          [Emit (to_self "p5") (room_error "Room is full (max 4 players).")])
  ∧ ∀ x, x ∈ recipients (after full_room) (to_self "p5") ↔ x = "p5".
Proof.
  apply (C2_join_full_room (after full_room) "p5" new_socket (Some "r1")
           (Some "Eve") (Some "controller")
           (default new_room (JsMap.get "r1" (rooms (after full_room))))).
  - apply full_room_reachable.
  - vm_compute. reflexivity.
  - vm_compute. reflexivity.
  - vm_compute. reflexivity.
Defined.

Lemma room_join_new_room st c sk roomId playerName rl :
  JsMap.get (normalize_roomId roomId) (rooms st) = None →
  ∃ p, slot p = 1
       ∧ (players <$> JsMap.get (normalize_roomId roomId)
                        (rooms (room_join st c sk roomId playerName rl).1))
         = Some [(c, p)].
Proof.
  intros Hg. unfold room_join, getOrCreateRoom. rewrite Hg.
  rewrite assignSlot_new_room. simpl. rewrite get_set_eq. simpl.
  by eexists (PlayerInfo 1 _ _).
Qed.

Lemma disconnect_last_player st c sk roomId r :
  Js.truthy (d_roomId (data sk)) = Some roomId →
  JsMap.get roomId (rooms st) = Some r →
  JsMap.delete c (players r) = [] →
  JsMap.get roomId (rooms (disconnect st c sk).1) = None.
Proof.
  intros Hd Hg Hrem. unfold disconnect. rewrite Hd, Hg, Hrem. simpl.
  apply get_delete_eq.
Qed.

Lemma cleanup_nonempty st : nonempty_inv st → cleanup st = (st, []).
Proof.
  intros Hinv. unfold cleanup. rewrite (sweep_clean _ _ _ Hinv). simpl.
  by rewrite state_eta.
Qed.

(** C10. Every room of a reachable state has at least one player, and
    every event keeps it so ([nonempty_inv]): a join to an unknown room
    stores the joiner in the room it creates (slot 1), a disconnect that
    removes the last player deletes the room, and therefore the periodic
    cleanup of a reachable state removes nothing, changes nothing and emits
    nothing. *)
Theorem C10_no_empty_room :
  (∀ st, reachable st →
         (∀ roomId r, (roomId, r) ∈ rooms st →
                      (1 ≤ JsMap.size (players r))%nat)
         ∧ step st CleanupTick = Some (st, []))
  ∧ nonempty_inv init
  ∧ (∀ st ev st' out,
       nonempty_inv st → step st ev = Some (st', out) → nonempty_inv st')
  ∧ (∀ st c sk roomId playerName rl,
       JsMap.get (normalize_roomId roomId) (rooms st) = None →
       ∃ p, slot p = 1
            ∧ (players <$> JsMap.get (normalize_roomId roomId)
                 (rooms (room_join st c sk roomId playerName rl).1))
              = Some [(c, p)])
  ∧ (∀ st c sk roomId r,
       Js.truthy (d_roomId (data sk)) = Some roomId →
       JsMap.get roomId (rooms st) = Some r →
       JsMap.delete c (players r) = [] →
       JsMap.get roomId (rooms (disconnect st c sk).1) = None).
Proof.
  split_and!.
  - intros st Hreach. apply reachable_nonempty_inv in Hreach as Hinv.
    split; [|simpl; by rewrite cleanup_nonempty].
    intros roomId r Hin. unfold nonempty_inv in Hinv.
    rewrite Forall_forall in Hinv. apply Hinv in Hin. simpl in Hin.
    unfold JsMap.size. destruct (players r); [done | simpl; lia].
  - by constructor.
  - apply step_nonempty_inv.
  - apply room_join_new_room.
  - apply disconnect_last_player.
Qed.

Lemma C10_no_empty_room_witness :
  (∀ roomId r, (roomId, r) ∈ rooms (after full_room) →
               (1 ≤ JsMap.size (players r))%nat)
  ∧ step (after full_room) CleanupTick = Some (after full_room, []).
Proof.
  apply (proj1 C10_no_empty_room (after full_room)), full_room_reachable.
Defined.

(** ** Slots after a departure *)

(** With distinct slots, the slot of the entry removed is held by none of
    the entries that remain. *)
Lemma delete_frees_slot (ps : JsMap.t playerInfo) c p :
  NoDup (slots_of ps) → JsMap.get c ps = Some p →
  slot p ∉ slots_of (JsMap.delete c ps).
Proof.
  intros Hnd Hg%get_elem_of
    (k & q & [Hk Hin]%delete_elem_of & Hs)%elem_of_slots_of.
  unfold slots_of, JsMap.values in Hnd. rewrite <- list_fmap_compose in Hnd.
  assert ((k, q) = (c, p)) as [= -> ->]; [|done].
  by eapply (NoDup_fmap_elem_inj (slot ∘ snd)).
Qed.

Lemma room_join_assigned st c sk roomId playerName rl :
  assigned_slot (room_join st c sk roomId playerName rl).2
  = assignSlot (getOrCreateRoom (normalize_roomId roomId) (rooms st)).2.
Proof.
  unfold room_join. destruct (getOrCreateRoom _ _) as [rooms1 r]. simpl.
  by destruct (assignSlot r).
Qed.

(** After a disconnect the room of the socket, looked up or created anew
    when it was deleted, holds the players that remained. *)
Lemma disconnect_remaining st c sk roomId r :
  Js.truthy (d_roomId (data sk)) = Some roomId →
  JsMap.get roomId (rooms st) = Some r →
  players (getOrCreateRoom roomId (rooms (disconnect st c sk).1)).2
  = JsMap.delete c (players r).
Proof.
  intros Hd Hg. unfold disconnect, getOrCreateRoom. rewrite Hd, Hg.
  case_decide as Hsz; simpl.
  - rewrite get_delete_eq. simpl. symmetry. by apply size_0_nil.
  - by rewrite get_set_eq.
Qed.

(** The slot found among the players that remain is at most the slot that
    was freed, and is that slot exactly when all lower slots are held. *)
Lemma assignSlot_after_delete r r1 c p :
  room_ok r → JsMap.get c (players r) = Some p →
  players r1 = JsMap.delete c (players r) →
  ∃ s, assignSlot r1 = Some s ∧ s ≤ slot p
       ∧ (s = slot p ↔ ∀ y, 1 ≤ y < slot p → y ∈ used_slots r1).
Proof.
  intros (Hnd & Hr & _) Hg Hrem.
  assert (slot p ∉ used_slots r1) as Hfree.
  { unfold used_slots. rewrite Hrem. by apply delete_frees_slot. }
  assert (1 ≤ slot p ≤ MAX_PLAYERS) as Hp.
  { rewrite Forall_forall in Hr. apply Hr, elem_of_slots_of.
    exists c, p. split; [by apply get_elem_of | done]. }
  destruct (assignSlot r1) as [s|] eqn:Ha.
  - exists s. pose proof (assignSlot_Some _ _ Ha) as (Hs & Hsfree & Hlow).
    assert (s ≤ slot p) as Hle.
    { destruct (decide (s ≤ slot p)); [done|]. destruct Hfree.
      apply Hlow. lia. }
    split_and!; [done | done |]. split.
    + intros <-. done.
    + intros Hall. pose proof (assignSlot_lowest _ _ Hp Hfree Hall). congruence.
  - destruct Hfree. by eapply assignSlot_None.
Qed.

Lemma filter_Forall_id {A} (P : A → Prop) `{!∀ x, Decision (P x)}
    (l : list A) :
  Forall P l → filter P l = l.
Proof.
  induction 1 as [|x l Hx _ IH]; [done|].
  by rewrite filter_cons, decide_True, IH.
Qed.

(** In a room whose entries all belong to live participants the slots in
    use are those of the live participants. *)
Lemma all_live_slots st r : all_live st r → live_slots st r = used_slots r.
Proof.
  intros Hall. unfold live_slots, used_slots. f_equal.
  exact (filter_Forall_id _ _ Hall).
Qed.

(** The participants that remain after a disconnection are live when all
    were. *)
Lemma all_live_remaining st c st1 r r1 :
  all_live st r →
  sockets st1 = delete c (sockets st) →
  players r1 = JsMap.delete c (players r) →
  all_live st1 r1.
Proof.
  unfold all_live, live. intros Hall Hs Hp. rewrite Hp, Hs.
  rewrite Forall_forall in *. intros [k q] [Hk Hin]%delete_elem_of.
  rewrite lookup_delete_ne by done. by apply (Hall (k, q)).
Qed.

Lemma or_default_nonempty a d : d ≠ "" → Js.or_default a d ≠ "".
Proof.
  intros Hd. unfold Js.or_default, Js.truthy. destruct a as [s|]; [|done].
  by case_decide.
Qed.

Lemma slice0_nonempty n s : s ≠ "" → Js.slice0 (S n) s ≠ "".
Proof. unfold Js.slice0. by destruct s. Qed.

Lemma normalize_roomId_nonempty roomId : normalize_roomId roomId ≠ "".
Proof.
  unfold normalize_roomId. apply slice0_nonempty. by apply or_default_nonempty.
Qed.

Lemma disconnect_sockets st c sk : sockets (disconnect st c sk).1 = sockets st.
Proof. unfold disconnect. by repeat case_match. Qed.

(** C8 (as amended). In a room whose entries all belong to live
    participants, [assignSlot] returns the lowest slot of 1..4 that no live
    participant holds, and [null] exactly when all four are held.
    Consequently, when a participant of such a room in a reachable state
    disconnects while its [socket.data.roomId] names that room, the
    participants that remain are all live, and the next join of that room
    succeeds and is assigned the lowest slot that no remaining live
    participant holds, which is at most the slot just freed, and is the
    slot just freed exactly when every lower slot is held by a participant
    that remains. *)
Theorem C8_lowest_free_slot :
  (∀ st r,
     all_live st r →
     match assignSlot r with
     | Some s =>
         1 ≤ s ≤ MAX_PLAYERS ∧ (s ∉ live_slots st r)
         ∧ (∀ y, 1 ≤ y < s → y ∈ live_slots st r)
     | None => ∀ y, 1 ≤ y ≤ MAX_PLAYERS → y ∈ live_slots st r
     end)
  ∧ (∀ st c sk roomId r p st1 out1 c' roomId' playerName rl,
       reachable st →
       sockets st !! c = Some sk →
       d_roomId (data sk) = Some roomId →
       JsMap.get roomId (rooms st) = Some r →
       JsMap.get c (players r) = Some p →
       all_live st r →
       step st (Disconnect c) = Some (st1, out1) →
       is_Some (sockets st1 !! c') →
       normalize_roomId roomId' = roomId →
       let r1 := (getOrCreateRoom roomId (rooms st1)).2 in
       players r1 = JsMap.delete c (players r)
       ∧ all_live st1 r1
       ∧ ∃ st2 out2 s,
           step st1 (Message c' (on_room_join roomId' playerName rl))
           = Some (st2, out2)
           ∧ assigned_slot out2 = Some s
           ∧ 1 ≤ s ≤ MAX_PLAYERS
           ∧ (s ∉ live_slots st1 r1)
           ∧ (∀ y, 1 ≤ y < s → y ∈ live_slots st1 r1)
           ∧ s ≤ slot p
           ∧ (s = slot p ↔ ∀ y, 1 ≤ y < slot p → y ∈ live_slots st1 r1)).
Proof.
  split.
  - intros st r Hall. rewrite (all_live_slots st r Hall).
    destruct (assignSlot r) as [s|] eqn:Ha.
    + by apply assignSlot_Some.
    + by apply assignSlot_None.
  - intros st c sk roomId r p st1 out1 c' roomId' pn rl
      Hreach Hsk Hd Hg Hp Hall Hstep [sk' Hsk'] Hrid r1.
    assert (Js.truthy (d_roomId (data sk)) = Some roomId) as Hd'.
    { rewrite Hd. unfold Js.truthy. rewrite decide_False; [done|].
      rewrite <- Hrid. apply normalize_roomId_nonempty. }
    simpl in Hstep. rewrite Hsk in Hstep. injection Hstep as Hstep.
    assert (st1
            = (disconnect (State (rooms st) (delete c (sockets st))) c sk).1)
      as Hst1 by by rewrite Hstep.
    pose proof (disconnect_remaining
                  (State (rooms st) (delete c (sockets st))) c sk roomId r
                  Hd' Hg) as Hrem.
    rewrite <- Hst1 in Hrem. fold r1 in Hrem.
    assert (sockets st1 = delete c (sockets st)) as Hsocks.
    { rewrite Hst1. apply disconnect_sockets. }
    pose proof (all_live_remaining st c st1 r r1 Hall Hsocks Hrem) as Hall1.
    split; [done|]. split; [done|].
    simpl. rewrite Hsk'.
    destruct (room_join st1 c' sk' roomId' pn rl) as [st2 out2] eqn:Hj.
    exists st2, out2.
    pose proof (room_join_assigned st1 c' sk' roomId' pn rl) as Has.
    rewrite Hj, Hrid in Has. simpl in Has. fold r1 in Has.
    apply reachable_slots_inv in Hreach.
    pose proof (rooms_get_ok room_ok _ _ _ Hreach Hg) as Hok.
    destruct (assignSlot_after_delete r r1 c p Hok Hp Hrem)
      as (s & Ha & Hle & Hiff).
    destruct (assignSlot_Some _ _ Ha) as (Hs & Hfree & Hlow).
    rewrite (all_live_slots st1 r1 Hall1).
    exists s. split_and!; [done | congruence | lia | lia | done..].
Qed.

Lemma first_left_reachable : reachable (after first_left).
Proof. apply after_reachable. eexists. vm_compute. reflexivity. Qed.

Lemma C8_lowest_free_slot_witness :
  match assignSlot
          (Room [("p2", PlayerInfo 2 "Player 2" "controller");
                 ("p3", PlayerInfo 3 "Player 3" "controller")]
             (Some "p2") None None) with
  | Some s =>
      1 ≤ s ≤ MAX_PLAYERS
      ∧ (s ∉ live_slots (after first_left)
               (Room [("p2", PlayerInfo 2 "Player 2" "controller");
                      ("p3", PlayerInfo 3 "Player 3" "controller")]
                  (Some "p2") None None))
      ∧ (∀ y, 1 ≤ y < s →
              y ∈ live_slots (after first_left)
                    (Room [("p2", PlayerInfo 2 "Player 2" "controller");
                           ("p3", PlayerInfo 3 "Player 3" "controller")]
                       (Some "p2") None None))
  | None =>
      ∀ y, 1 ≤ y ≤ MAX_PLAYERS →
           y ∈ live_slots (after first_left)
                 (Room [("p2", PlayerInfo 2 "Player 2" "controller");
                        ("p3", PlayerInfo 3 "Player 3" "controller")]
                    (Some "p2") None None)
  end
  ∧ let r1 :=
      (getOrCreateRoom "r1"
         (rooms (after (first_left ++ [Disconnect "p2"])))).2 in
    players r1
    = JsMap.delete "p2"
        [("p2", PlayerInfo 2 "Player 2" "controller");
         ("p3", PlayerInfo 3 "Player 3" "controller")]
    ∧ all_live (after (first_left ++ [Disconnect "p2"])) r1
    ∧ ∃ st2 out2 s,
        step (after (first_left ++ [Disconnect "p2"]))
          (Message "p5" (on_room_join (Some "r1") None None))
        = Some (st2, out2)
        ∧ assigned_slot out2 = Some s
        ∧ 1 ≤ s ≤ MAX_PLAYERS
        ∧ (s ∉ live_slots (after (first_left ++ [Disconnect "p2"])) r1)
        ∧ (∀ y, 1 ≤ y < s →
                y ∈ live_slots (after (first_left ++ [Disconnect "p2"])) r1)
        ∧ s ≤ 2
        ∧ (s = 2
           ↔ ∀ y, 1 ≤ y < 2 →
                  y ∈ live_slots (after (first_left ++ [Disconnect "p2"]))
                        r1).
Proof.
  split.
  - apply (proj1 C8_lowest_free_slot (after first_left)
             (Room [("p2", PlayerInfo 2 "Player 2" "controller");
                    ("p3", PlayerInfo 3 "Player 3" "controller")]
                (Some "p2") None None)).
    repeat constructor; eexists; vm_compute; reflexivity.
  - apply (proj2 C8_lowest_free_slot (after first_left) "p2"
             (Socket (SocketData (Some "r1") (Some 2) (Some false)) {["r1"]})
             "r1"
             (Room [("p2", PlayerInfo 2 "Player 2" "controller");
                    ("p3", PlayerInfo 3 "Player 3" "controller")]
                (Some "p2") None None)
             (PlayerInfo 2 "Player 2" "controller")
             (after (first_left ++ [Disconnect "p2"]))
             (default [] (snd <$> step (after first_left) (Disconnect "p2")))
             "p5" (Some "r1") None None).
    + apply first_left_reachable.
    + vm_compute. reflexivity.
    + vm_compute. reflexivity.
    + vm_compute. reflexivity.
    + vm_compute. reflexivity.
    + repeat constructor; eexists; vm_compute; reflexivity.
    + vm_compute. reflexivity.
    + eexists. vm_compute. reflexivity.
    + vm_compute. reflexivity.
Defined.

(** The statement of C8 without the proviso fails, also where all
    participants are live: with slots 2 and 3 held and slot 1 free, the
    player in slot 2 leaves and the next join is given slot 1. *)
Lemma C8_counterexample :
  ¬ (∀ st c sk roomId r p st1 out1 c' roomId' playerName rl st2 out2,
       reachable st →
       sockets st !! c = Some sk →
       Js.truthy (d_roomId (data sk)) = Some roomId →
       JsMap.get roomId (rooms st) = Some r →
       JsMap.get c (players r) = Some p →
       all_live st r →
       step st (Disconnect c) = Some (st1, out1) →
       normalize_roomId roomId' = roomId →
       step st1 (Message c' (on_room_join roomId' playerName rl))
       = Some (st2, out2) →
       assigned_slot out2 = Some (slot p)).
Proof.
  intros H.
  assert (assigned_slot
            (default []
               (snd <$> step (after (first_left ++ [Disconnect "p2"]))
                          (Message "p5" (on_room_join (Some "r1") None None))))
          = Some 2) as Hbad.
  { apply (H (after first_left) "p2"
             (Socket (SocketData (Some "r1") (Some 2) (Some false)) {["r1"]})
             "r1"
             (Room [("p2", PlayerInfo 2 "Player 2" "controller");
                    ("p3", PlayerInfo 3 "Player 3" "controller")]
                (Some "p2") None None)
             (PlayerInfo 2 "Player 2" "controller")
             (after (first_left ++ [Disconnect "p2"]))
             (default [] (snd <$> step (after first_left) (Disconnect "p2")))
             "p5" (Some "r1") None None
             (after (first_left
                     ++ [Disconnect "p2";
                         Message "p5" (on_room_join (Some "r1") None None)]))).
    - apply first_left_reachable.
    - vm_compute. reflexivity.
    - vm_compute. reflexivity.
    - vm_compute. reflexivity.
    - vm_compute. reflexivity.
    - repeat constructor; eexists; vm_compute; reflexivity.
    - vm_compute. reflexivity.
    - vm_compute. reflexivity.
    - vm_compute. reflexivity. }
  vm_compute in Hbad. discriminate.
Qed.

(** The slot of a player that leaves a full room goes to the next join. *)
Example freed_slot_reused :
  assigned_slot
    (default []
       (snd <$> step (after (full_room ++ [Disconnect "p2"]))
                  (joins "p5" "r1" "controller")))
  = Some 2.
Proof. vm_compute. reflexivity. Qed.

(** An entry left behind by a socket that joined a second room and then
    disconnected keeps its slot: no live participant of ["r1"] holds slot
    1, and the next join of ["r1"] is refused all the same. *)
Example stale_entry_keeps_slot :
  sockets (after left_behind_in_full_room) !! "p1" = None
  ∧ (slot <$> (JsMap.get "r1" (rooms (after left_behind_in_full_room))
               ≫= λ r, JsMap.get "p1" (players r)))
    = Some 1
  ∧ (live_slots (after left_behind_in_full_room)
     <$> JsMap.get "r1" (rooms (after left_behind_in_full_room)))
    = Some [2; 3; 4]
  ∧ step (after left_behind_in_full_room) (joins "p5" "r1" "controller")
    = Some (after left_behind_in_full_room,
            [Emit (to_self "p5")
               (room_error "Room is full (max 4 players).")]).
Proof. split_and!; vm_compute; reflexivity. Qed.

(** Joining four times and a fifth: slots 1 to 4 in order, the first
    joiner is host, the fifth join is refused. *)
Example five_joins :
  (JsMap.values ∘ players <$> JsMap.get "r1" (rooms (after full_room)))
  = Some [PlayerInfo 1 "Player 1" "controller";
          PlayerInfo 2 "Player 2" "controller";
          PlayerInfo 3 "Player 3" "controller";
          PlayerInfo 4 "Player 4" "viewer"]
  ∧ (host <$> JsMap.get "r1" (rooms (after full_room))) = Some (Some "p1")
  ∧ assigned_slot
      (default []
         (snd <$> step (after full_room) (joins "p5" "r1" "controller")))
    = None.
Proof. split_and!; vm_compute; reflexivity. Qed.

(** ** Host designation *)

Lemma room_join_host_new st c sk roomId playerName rl :
  JsMap.get (normalize_roomId roomId) (rooms st) = None →
  host <$> JsMap.get (normalize_roomId roomId)
             (rooms (room_join st c sk roomId playerName rl).1)
  = Some (Some c).
Proof.
  intros Hg. unfold room_join, getOrCreateRoom. rewrite Hg.
  rewrite assignSlot_new_room. simpl. by rewrite get_set_eq.
Qed.

Lemma room_join_host_empty st c sk roomId playerName rl r :
  JsMap.get (normalize_roomId roomId) (rooms st) = Some r →
  players r = [] →
  host <$> JsMap.get (normalize_roomId roomId)
             (rooms (room_join st c sk roomId playerName rl).1)
  = Some (Some c).
Proof.
  intros Hg He. unfold room_join, getOrCreateRoom. rewrite Hg.
  assert (assignSlot r = Some 1) as ->.
  { unfold assignSlot, used_slots, slots_of. by rewrite He. }
  simpl. rewrite get_set_eq. simpl. by rewrite He.
Qed.

Lemma room_join_host_existing st c sk roomId playerName rl r :
  JsMap.get (normalize_roomId roomId) (rooms st) = Some r →
  players r ≠ [] →
  host <$> JsMap.get (normalize_roomId roomId)
             (rooms (room_join st c sk roomId playerName rl).1)
  = Some (host r).
Proof.
  intros Hg Hne. unfold room_join, getOrCreateRoom. rewrite Hg.
  destruct (assignSlot r) as [s|]; simpl.
  - rewrite get_set_eq. simpl. rewrite bool_decide_eq_false_2; [done|].
    by rewrite size_0_nil.
  - by rewrite Hg.
Qed.

(** C4 (as amended). The socket that joins a room that does not exist yet,
    or that has no player, becomes its host whatever its role, a viewer
    included; a join to a room that already has players leaves the host as
    it is, whatever the roles of the joiner and of the current host. *)
Theorem C4_first_joiner_is_host st c sk roomId playerName rl :
  (JsMap.get (normalize_roomId roomId) (rooms st) = None →
   host <$> JsMap.get (normalize_roomId roomId)
              (rooms (room_join st c sk roomId playerName rl).1)
   = Some (Some c))
  ∧ (∀ r, JsMap.get (normalize_roomId roomId) (rooms st) = Some r →
          players r = [] →
          host <$> JsMap.get (normalize_roomId roomId)
                     (rooms (room_join st c sk roomId playerName rl).1)
          = Some (Some c))
  ∧ (∀ r, JsMap.get (normalize_roomId roomId) (rooms st) = Some r →
          players r ≠ [] →
          host <$> JsMap.get (normalize_roomId roomId)
                     (rooms (room_join st c sk roomId playerName rl).1)
          = Some (host r)).
Proof.
  split_and!;
    [apply room_join_host_new | apply room_join_host_empty
    | apply room_join_host_existing].
Qed.

Lemma C4_first_joiner_is_host_witness :
  host <$> JsMap.get "r1"
             (rooms (room_join (after [Connect "v"]) "v" new_socket
                       (Some "r1") None (Some "viewer")).1)
  = Some (Some "v").
Proof.
  apply (proj1 (C4_first_joiner_is_host (after [Connect "v"]) "v" new_socket
                  (Some "r1") None (Some "viewer"))).
  vm_compute. reflexivity.
Defined.

(** The statement of C4 fails: a viewer that joins a room nobody is in
    becomes its host. *)
Lemma C4_counterexample :
  ¬ (∀ st c sk roomId playerName st' out r',
       reachable st →
       sockets st !! c = Some sk →
       JsMap.get (normalize_roomId roomId) (rooms st) = None →
       step st (Message c (on_room_join roomId playerName (Some "viewer")))
       = Some (st', out) →
       JsMap.get (normalize_roomId roomId) (rooms st') = Some r' →
       host r' ≠ Some c).
Proof.
  intros H.
  apply (H (after [Connect "v"]) "v" new_socket (Some "r1") None
           (after [Connect "v"; joins "v" "r1" "viewer"])
           (default [] (snd <$> step (after [Connect "v"])
                                  (joins "v" "r1" "viewer")))
           (Room [("v", PlayerInfo 1 "Player 1" "viewer")] (Some "v") None
              None)).
  - apply after_reachable. eexists. vm_compute. reflexivity.
  - vm_compute. reflexivity.
  - vm_compute. reflexivity.
  - vm_compute. reflexivity.
  - vm_compute. reflexivity.
  - reflexivity.
Qed.

(** ** The room label *)

Lemma slice0_length n s :
  String.length (Js.slice0 n s) = Nat.min n (String.length s).
Proof.
  unfold Js.slice0. revert s. induction n as [|n IH]; intros [|a s]; simpl;
    try done.
  by rewrite IH.
Qed.

Lemma slice0_prefix n s : ∃ t, s = Js.slice0 n s +:+ t.
Proof.
  unfold Js.slice0. revert s. induction n as [|n IH]; intros [|a s]; simpl.
  - by exists "".
  - by exists (String a s).
  - by exists "".
  - destruct (IH s) as [t Ht]. exists t. exact (f_equal (String a) Ht).
Qed.

Lemma room_setrom_spec st c sk rom roomId r :
  data_room st sk = Some (roomId, r) →
  ∃ r',
    room_setrom st c sk rom
    = (State (JsMap.set roomId r' (rooms st)) (sockets st),
       [Emit to_all
          (rooms_list (getAllRooms (JsMap.set roomId r' (rooms st))))])
    ∧ romName r' = Some (Js.slice0 80 (Js.or_default rom ""))
    ∧ players r' = players r ∧ host r' = host r
    ∧ emulatorSocket r' = emulatorSocket r.
Proof.
  intros Hd. unfold room_setrom. rewrite Hd. by eexists (Room _ _ _ _).
Qed.

(** C5 (as amended). A [room:setrom] from any socket whose [data.roomId]
    names a room of the registry, be it the emulator socket, the host or
    neither, sets that room's ROM name to the first 80 characters of the
    string given (the empty string when none is given), leaves the players,
    host and emulator socket of the room and every other room as they are,
    and publishes the room list once to every live socket; a socket without
    such a room changes nothing and publishes nothing. *)
Theorem C5_setrom_any_member st c sk rom :
  sockets st !! c = Some sk →
  match data_room st sk with
  | Some (roomId, r) =>
      ∃ st' r' label,
        step st (Message c (on_room_setrom rom))
        = Some (st', [Emit to_all (rooms_list (getAllRooms (rooms st')))])
        ∧ recipients st' to_all = dom (sockets st')
        ∧ sockets st' = sockets st
        ∧ JsMap.get roomId (rooms st') = Some r'
        ∧ romName r' = Some label
        ∧ label = Js.slice0 80 (Js.or_default rom "")
        ∧ (String.length label ≤ 80)%nat
        ∧ (∃ rest, Js.or_default rom "" = label +:+ rest)
        ∧ players r' = players r ∧ host r' = host r
        ∧ emulatorSocket r' = emulatorSocket r
        ∧ (∀ k, k ≠ roomId →
                JsMap.get k (rooms st') = JsMap.get k (rooms st))
  | None => step st (Message c (on_room_setrom rom)) = Some (st, [])
  end.
Proof.
  intros Hsk. simpl. rewrite Hsk.
  destruct (data_room st sk) as [[roomId r]|] eqn:Hd.
  - destruct (room_setrom_spec st c sk rom roomId r Hd)
      as (r' & -> & Hrn & Hp & Hh & He).
    exists (State (JsMap.set roomId r' (rooms st)) (sockets st)), r',
      (Js.slice0 80 (Js.or_default rom "")).
    split_and!; try done.
    + simpl. apply get_set_eq.
    + rewrite slice0_length. lia.
    + apply slice0_prefix.
    + intros k Hk. simpl. by apply get_set_ne.
  - unfold room_setrom. by rewrite Hd.
Qed.

Lemma owner_and_controller_reachable : reachable (after owner_and_controller).
Proof. apply after_reachable. eexists. vm_compute. reflexivity. Qed.

Lemma C5_setrom_any_member_witness :
  ∃ st' r' label,
    step (after owner_and_controller)
      (Message "p2" (on_room_setrom (Some "Super Mario World")))
    = Some (st', [Emit to_all (rooms_list (getAllRooms (rooms st')))])
    ∧ recipients st' to_all = dom (sockets st')
    ∧ sockets st' = sockets (after owner_and_controller)
    ∧ JsMap.get "r1" (rooms st') = Some r'
    ∧ romName r' = Some label
    ∧ label = Js.slice0 80 (Js.or_default (Some "Super Mario World") "")
    ∧ (String.length label ≤ 80)%nat
    ∧ (∃ rest, Js.or_default (Some "Super Mario World") "" = label +:+ rest)
    ∧ players r'
      = [("p1", PlayerInfo 1 "Player 1" "emulator");
         ("p2", PlayerInfo 2 "Player 2" "controller")]
    ∧ host r' = Some "p1"
    ∧ emulatorSocket r' = Some "p1"
    ∧ (∀ k, k ≠ "r1" →
            JsMap.get k (rooms st')
            = JsMap.get k (rooms (after owner_and_controller))).
Proof.
  apply (C5_setrom_any_member (after owner_and_controller) "p2"
           (Socket (SocketData (Some "r1") (Some 2) (Some false)) {["r1"]})
           (Some "Super Mario World")).
  vm_compute. reflexivity.
Defined.

(** The statement of C5 fails: a controller that is neither the emulator
    socket nor the host of its room changes the room's ROM name. *)
Lemma C5_counterexample :
  ¬ (∀ st c sk rom roomId r st' out,
       reachable st →
       sockets st !! c = Some sk →
       data_room st sk = Some (roomId, r) →
       emulatorSocket r ≠ Some c →
       host r ≠ Some c →
       step st (Message c (on_room_setrom rom)) = Some (st', out) →
       romName <$> JsMap.get roomId (rooms st') = Some (romName r)).
Proof.
  intros H.
  specialize (H (after owner_and_controller) "p2"
           (Socket (SocketData (Some "r1") (Some 2) (Some false)) {["r1"]})
           (Some "Super Mario World") "r1"
           (Room [("p1", PlayerInfo 1 "Player 1" "emulator");
                  ("p2", PlayerInfo 2 "Player 2" "controller")]
              (Some "p1") (Some "p1") None)
           (after (owner_and_controller
                   ++ [Message "p2"
                         (on_room_setrom (Some "Super Mario World"))]))
           (default []
              (snd <$> step (after owner_and_controller)
                         (Message "p2"
                            (on_room_setrom (Some "Super Mario World")))))).
  assert (romName <$> JsMap.get "r1"
            (rooms (after (owner_and_controller
                           ++ [Message "p2"
                                 (on_room_setrom (Some "Super Mario World"))])))
          = Some None) as Hbad.
  { apply H.
    - apply owner_and_controller_reachable.
    - vm_compute. reflexivity.
    - vm_compute. reflexivity.
    - discriminate.
    - discriminate.
    - vm_compute. reflexivity. }
  vm_compute in Hbad. discriminate.
Qed.

(** ** The forwarded joypad state *)

Lemma joypad_input_spec st c sk p :
  joypad_input st c sk p = (st, [])
  ∨ ∃ r t s,
      input_roomId sk p ≠ ""
      ∧ input_slot sk p = Some s
      ∧ JsMap.get (input_roomId sk p) (rooms st) = Some r
      ∧ Js.truthy (Js.or (emulatorSocket r) (host r)) = Some t
      ∧ joypad_input st c sk p
        = (st, [Emit (to_room t)
                  (joypad_state s (Js.to_uint32 (jp_buttons p))
                     (default (Axes 0 0) (jp_axes p)))]).
Proof.
  unfold joypad_input.
  destruct (input_slot sk p) as [s|]; [|by left].
  case_decide as Hrid; [by left|].
  destruct (JsMap.get _ (rooms st)) as [r|] eqn:Hg; [|by left].
  destruct (Js.truthy (Js.or _ _)) as [t|] eqn:Ht; [|by left].
  right. by exists r, t, s.
Qed.

Lemma input_slot_data sk p s s0 :
  input_slot sk p = Some s → d_slot (data sk) = Some s0 → s0 ≠ 0 →
  s = s0.
Proof.
  unfold input_slot, Js.truthy_num. intros Hs Hd Hne. rewrite Hd in Hs.
  rewrite decide_False in Hs by done. congruence.
Qed.

(** C6 (as amended). When a [joypad:input] is routed, one [joypad:state]
    is emitted and the state is unchanged; it carries the slot resolved for
    the sender (the slot stored at join time when there is one), the
    buttons value reduced modulo 2^32 (so the value received whenever that
    is an integer in 0..2^32-1, any 16-bit mask included), and the axes
    received, or x = 0, y = 0 when the event carries no axes. *)
Theorem C6_forwarded_payload st c sk p st' e out :
  sockets st !! c = Some sk →
  step st (Message c (on_joypad_input p)) = Some (st', e :: out) →
  out = [] ∧ st' = st
  ∧ ∃ t s,
      e = Emit (to_room t)
            (joypad_state s (jp_buttons p mod 2 ^ 32)
               (match jp_axes p with Some a => a | None => Axes 0 0 end))
      ∧ input_slot sk p = Some s
      ∧ (∀ s0, d_slot (data sk) = Some s0 → s0 ≠ 0 → s = s0)
      ∧ (0 ≤ jp_buttons p < 2 ^ 32 →
         jp_buttons p mod 2 ^ 32 = jp_buttons p).
Proof.
  intros Hsk. simpl. rewrite Hsk.
  destruct (joypad_input_spec st c sk p)
    as [->|(r & t & s & _ & Hs & _ & _ & ->)]; [done|].
  intros [= <- <- <-]. split_and!; [done | done |].
  exists t, s. split_and!; [done | done | |].
  - intros s0. by apply (input_slot_data sk p).
  - intros Hb. by apply Z.mod_small.
Qed.

Lemma C6_forwarded_payload_witness :
  ([] : list emission) = []
  ∧ after owner_and_controller = after owner_and_controller
  ∧ ∃ t s,
      Emit (to_room "p1") (joypad_state 2 257 (Axes 0 0))
      = Emit (to_room t)
          (joypad_state s (jp_buttons (controller_tick 257) mod 2 ^ 32)
             (match jp_axes (controller_tick 257) with
              | Some a => a
              | None => Axes 0 0
              end))
      ∧ input_slot
          (Socket (SocketData (Some "r1") (Some 2) (Some false)) {["r1"]})
          (controller_tick 257)
        = Some s
      ∧ (∀ s0,
           d_slot
             (data (Socket (SocketData (Some "r1") (Some 2) (Some false))
                      {["r1"]}))
           = Some s0 →
           s0 ≠ 0 → s = s0)
      ∧ (0 ≤ jp_buttons (controller_tick 257) < 2 ^ 32 →
         jp_buttons (controller_tick 257) mod 2 ^ 32
         = jp_buttons (controller_tick 257)).
Proof.
  apply (C6_forwarded_payload (after owner_and_controller) "p2"
           (Socket (SocketData (Some "r1") (Some 2) (Some false)) {["r1"]})
           (controller_tick 257)).
  - vm_compute. reflexivity.
  - vm_compute. reflexivity.
Defined.

(** The statement of C6 fails on the event the controller page sends: it
    has no axes, the event forwarded has; and a negative buttons value is
    not forwarded as received. *)
Lemma C6_counterexample :
  ¬ (∀ st c sk p st' t s b a,
       reachable st →
       sockets st !! c = Some sk →
       step st (Message c (on_joypad_input p))
       = Some (st', [Emit (to_room t) (joypad_state s b a)]) →
       b = jp_buttons p ∧ jp_axes p = Some a).
Proof.
  intros H.
  destruct (H (after owner_and_controller) "p2"
              (Socket (SocketData (Some "r1") (Some 2) (Some false)) {["r1"]})
              (controller_tick 257) (after owner_and_controller)
              "p1" 2 257 (Axes 0 0)) as [_ Hax].
  - apply owner_and_controller_reachable.
  - vm_compute. reflexivity.
  - vm_compute. reflexivity.
  - discriminate.
Qed.

Example joypad_negative_buttons :
  step (after owner_and_controller)
    (Message "p2" (on_joypad_input (controller_tick (-1))))
  = Some (after owner_and_controller,
          [Emit (to_room "p1") (joypad_state 2 4294967295 (Axes 0 0))]).
Proof. vm_compute. reflexivity. Qed.

(** ** Delivery to Socket.IO rooms *)

Lemma elem_of_members st g x :
  x ∈ members st g
  ↔ ∃ sk, sockets st !! x = Some sk ∧ (x = g ∨ g ∈ joined sk).
Proof.
  unfold members. rewrite elem_of_dom. unfold is_Some.
  setoid_rewrite map_lookup_filter_Some. simpl. naive_solver.
Qed.

(** A room name that no socket has joined reaches the socket of that id,
    if it is connected, and nobody else. *)
Lemma members_unicast st g :
  (∀ x sk, sockets st !! x = Some sk → g ∉ joined sk) →
  members st g = if decide (is_Some (sockets st !! g)) then {[g]} else ∅.
Proof.
  intros Hnone. apply set_eq. intros x. rewrite elem_of_members.
  case_decide as Hg.
  - rewrite elem_of_singleton. split.
    + intros (sk & Hsk & [->|Hj]); [done|]. by destruct (Hnone x sk).
    + intros ->. destruct Hg as [sk Hsk]. exists sk. auto.
  - rewrite elem_of_empty. split; [|done].
    intros (sk & Hsk & [->|Hj]); [by destruct Hg; exists sk|].
    by destruct (Hnone x sk).
Qed.

(** ** Host reassignment on departure *)

Lemma find_first {A} (f : A → bool) (l : list A) x :
  List.find f l = Some x →
  ∃ pre post, l = pre ++ x :: post ∧ f x = true
              ∧ Forall (λ y, f y = false) pre.
Proof.
  induction l as [|a l IH]; simpl; [done|].
  destruct (f a) eqn:Hfa.
  - intros [= ->]. by exists [], l.
  - intros (pre & post & -> & Hx & Hpre)%IH.
    exists (a :: pre), post. split_and!; [done | done |]. by constructor.
Qed.

Lemma find_none_all {A} (f : A → bool) (l : list A) :
  List.find f l = None → Forall (λ y, f y = false) l.
Proof.
  induction l as [|a l IH]; simpl; [by constructor|].
  destruct (f a) eqn:Hfa; [done|]. intros ?%IH. by constructor.
Qed.

(** The new host is the first remaining player that is not a viewer, or
    the first remaining player when all are viewers. *)
Lemma next_host_spec (remaining : JsMap.t playerInfo) :
  remaining ≠ [] →
  ∃ h,
    next_host remaining = Some h
    ∧ ((∃ pre q post,
          remaining = pre ++ (h, q) :: post ∧ role q ≠ "viewer"
          ∧ Forall (λ kp : string * playerInfo, role kp.2 = "viewer") pre)
       ∨ (Forall (λ kp : string * playerInfo, role kp.2 = "viewer") remaining
          ∧ ∃ q rest, remaining = (h, q) :: rest)).
Proof.
  intros Hne. unfold next_host.
  destruct (List.find _ remaining) as [[h q]|] eqn:Hf.
  - exists h. split; [done|]. left.
    apply find_first in Hf as (pre & post & -> & Hq & Hpre).
    exists pre, q, post. split_and!; [done | |].
    + simpl in Hq. by apply bool_decide_eq_true in Hq.
    + eapply Forall_impl; [done|]. simpl. intros kp Hkp.
      apply bool_decide_eq_false in Hkp.
      destruct (decide (role kp.2 = "viewer")); [done|]. by destruct Hkp.
  - destruct remaining as [|[h q] rest]; [done|]. exists h.
    split; [done|]. right. split; [|by exists q, rest].
    apply find_none_all in Hf. eapply Forall_impl; [done|]. simpl.
    intros kp Hkp. apply bool_decide_eq_false in Hkp.
    destruct (decide (role kp.2 = "viewer")); [done|]. by destruct Hkp.
Qed.

Lemma disconnect_host_left st c sk roomId r :
  Js.truthy (d_roomId (data sk)) = Some roomId →
  JsMap.get roomId (rooms st) = Some r →
  host r = Some c →
  JsMap.delete c (players r) ≠ [] →
  ∃ r',
    JsMap.get roomId (rooms (disconnect st c sk).1) = Some r'
    ∧ players r' = JsMap.delete c (players r)
    ∧ host r' = next_host (JsMap.delete c (players r))
    ∧ Emit (to_room roomId) (room_newhost (host r'))
      ∈ (disconnect st c sk).2.
Proof.
  intros Hd Hg Hh Hne. unfold disconnect. rewrite Hd, Hg.
  rewrite decide_False by by rewrite size_0_nil.
  rewrite (bool_decide_eq_true_2 (host r = Some c)) by done. simpl.
  eexists. rewrite get_set_eq. split_and!; [done | done | done |].
  simpl. apply elem_of_app. right. apply elem_of_cons. by left.
Qed.

(** What the disconnect handler does for the room named by
    [socket.data.roomId], the room the socket joined last. When the socket
    is the host of that room and players remain, the room's new host is the
    first remaining player, in joining order, whose role is not
    ['viewer']; if all remaining players are viewers it is the first
    remaining player. Hence the new host is a
    remaining player other than the one that left, and is not a viewer
    whenever some remaining player is not. [room:newhost] with the new host
    is emitted to the Socket.IO room, which reaches every connected socket
    that joined it. *)
Lemma host_reassignment_on_disconnect st c sk roomId r st' out :
  sockets st !! c = Some sk →
  Js.truthy (d_roomId (data sk)) = Some roomId →
  JsMap.get roomId (rooms st) = Some r →
  host r = Some c →
  JsMap.delete c (players r) ≠ [] →
  step st (Disconnect c) = Some (st', out) →
  ∃ h r',
    JsMap.get roomId (rooms st') = Some r'
    ∧ players r' = JsMap.delete c (players r)
    ∧ host r' = Some h
    ∧ h ≠ c
    ∧ ((∃ pre q post,
          players r' = pre ++ (h, q) :: post ∧ role q ≠ "viewer"
          ∧ Forall (λ kp : string * playerInfo, role kp.2 = "viewer") pre)
       ∨ (Forall (λ kp : string * playerInfo, role kp.2 = "viewer")
            (players r')
          ∧ ∃ q rest, players r' = (h, q) :: rest))
    ∧ (∀ k q, (k, q) ∈ players r' → role q ≠ "viewer" →
              ∃ q', (h, q') ∈ players r' ∧ role q' ≠ "viewer")
    ∧ Emit (to_room roomId) (room_newhost (Some h)) ∈ out
    ∧ (∀ x skx, sockets st' !! x = Some skx → roomId ∈ joined skx →
                x ∈ recipients st' (to_room roomId)).
Proof.
  intros Hsk Hd Hg Hh Hne. simpl. rewrite Hsk. intros [= Hstep].
  set (st0 := State (rooms st) (delete c (sockets st))) in *.
  destruct (disconnect_host_left st0 c sk roomId r Hd Hg Hh Hne)
    as (r' & Hg' & Hp' & Hh' & Hout).
  destruct (next_host_spec _ Hne) as (h & Hnext & Hfirst).
  rewrite Hstep in Hg', Hout. simpl in Hg', Hout.
  rewrite Hnext in Hh'. rewrite Hh' in Hout. rewrite <- Hp' in Hfirst.
  assert (∃ q, (h, q) ∈ players r') as [qh Hqh].
  { destruct Hfirst as [(pre & q & post & -> & _)|[_ (q & rest & ->)]];
      exists q; [|by left].
    apply elem_of_app. right. by left. }
  exists h, r'. split_and!; try done.
  - rewrite Hp' in Hqh. apply delete_elem_of in Hqh. tauto.
  - intros k q Hin Hq.
    destruct Hfirst as [(pre & q' & post & Heq & Hq' & _)|[Hall _]].
    + exists q'. split; [|done]. rewrite Heq. apply elem_of_app. right.
      by left.
    + rewrite Forall_forall in Hall. by apply Hall in Hin.
  - intros x skx Hx Hj. simpl. apply elem_of_members. exists skx. auto.
Qed.

Example host_reassignment_after_viewer :
  ∃ h r',
    JsMap.get "r1"
      (rooms (after (viewer_before_controller ++ [Disconnect "p1"])))
    = Some r'
    ∧ players r'
      = JsMap.delete "p1"
          [("p1", PlayerInfo 1 "Player 1" "controller");
           ("p2", PlayerInfo 2 "Player 2" "viewer");
           ("p3", PlayerInfo 3 "Player 3" "controller")]
    ∧ host r' = Some h
    ∧ h ≠ "p1"
    ∧ ((∃ pre q post,
          players r' = pre ++ (h, q) :: post ∧ role q ≠ "viewer"
          ∧ Forall (λ kp : string * playerInfo, role kp.2 = "viewer") pre)
       ∨ (Forall (λ kp : string * playerInfo, role kp.2 = "viewer")
            (players r')
          ∧ ∃ q rest, players r' = (h, q) :: rest))
    ∧ (∀ k q, (k, q) ∈ players r' → role q ≠ "viewer" →
              ∃ q', (h, q') ∈ players r' ∧ role q' ≠ "viewer")
    ∧ Emit (to_room "r1") (room_newhost (Some h))
      ∈ default []
          (snd <$> step (after viewer_before_controller) (Disconnect "p1"))
    ∧ (∀ x skx,
         sockets (after (viewer_before_controller ++ [Disconnect "p1"])) !! x
         = Some skx →
         "r1" ∈ joined skx →
         x ∈ recipients
               (after (viewer_before_controller ++ [Disconnect "p1"]))
               (to_room "r1")).
Proof.
  apply (host_reassignment_on_disconnect (after viewer_before_controller) "p1"
           (Socket (SocketData (Some "r1") (Some 1) (Some false)) {["r1"]})
           "r1"
           (Room [("p1", PlayerInfo 1 "Player 1" "controller");
                  ("p2", PlayerInfo 2 "Player 2" "viewer");
                  ("p3", PlayerInfo 3 "Player 3" "controller")]
              (Some "p1") None None)).
  - vm_compute. reflexivity.
  - vm_compute. reflexivity.
  - vm_compute. reflexivity.
  - reflexivity.
  - vm_compute. discriminate.
  - vm_compute. reflexivity.
Qed.

(** C7. The host of ["r1"] has joined ["r2"] on the same socket, which
    the join handler allows without taking it out of ["r1"], and then
    disconnects. The disconnect handler works on ["r2"] only: ["r1"] keeps
    the entry of the socket that left beside the controller that remains,
    its host is still the socket that left, and the only emission is the
    room list: no [room:newhost], although the handler's own choice among
    the players that remain is that controller. *)
Theorem C7_host_left_behind :
  (host <$> JsMap.get "r1" (rooms (after host_moved_on))) = Some (Some "p1")
  ∧ is_Some (sockets (after host_moved_on) !! "p1")
  ∧ step (after host_moved_on) (Disconnect "p1")
    = Some (after joined_two_rooms,
            [Emit to_all
               (rooms_list (getAllRooms (rooms (after joined_two_rooms))))])
  ∧ sockets (after joined_two_rooms) !! "p1" = None
  ∧ is_Some (sockets (after joined_two_rooms) !! "p2")
  ∧ JsMap.get "r1" (rooms (after joined_two_rooms))
    = Some (Room [("p1", PlayerInfo 1 "Player 1" "controller");
                  ("p2", PlayerInfo 2 "Player 2" "controller")]
              (Some "p1") None None)
  ∧ next_host
      (JsMap.delete "p1"
         [("p1", PlayerInfo 1 "Player 1" "controller");
          ("p2", PlayerInfo 2 "Player 2" "controller")])
    = Some "p2".
Proof.
  split_and!; try (vm_compute; reflexivity); eexists; vm_compute; reflexivity.
Qed.

(** The disconnect handler works on the room of [socket.data.roomId], the
    room joined last: a socket that joined two rooms is removed from the
    second only, and stays in the players of the first, and its host. *)
Example disconnect_leaves_last_room_only :
  sockets (after joined_two_rooms) !! "p1" = None
  ∧ JsMap.get "r2" (rooms (after joined_two_rooms)) = None
  ∧ JsMap.get "r1" (rooms (after joined_two_rooms))
    = Some (Room [("p1", PlayerInfo 1 "Player 1" "controller");
                  ("p2", PlayerInfo 2 "Player 2" "controller")]
              (Some "p1") None None).
Proof. split_and!; vm_compute; reflexivity. Qed.

Example host_skips_viewer :
  host <$> JsMap.get "r1"
             (rooms (after (viewer_before_controller ++ [Disconnect "p1"])))
  = Some (Some "p3").
Proof. vm_compute. reflexivity. Qed.

(** ** Routing of joypad input *)

Lemma truthy_or a b :
  Js.truthy (Js.or a b)
  = match Js.truthy a with Some s => Some s | None => Js.truthy b end.
Proof.
  unfold Js.or. destruct (Js.truthy a) as [s|] eqn:Ha; [|done].
  unfold Js.truthy in *. destruct a as [s'|]; [|done].
  case_decide; [done|]. injection Ha as <-. by rewrite decide_False.
Qed.

(** A [joypad:input] never changes the state and emits at most one event.
    Nothing is emitted when no room id or slot is resolved for the sender,
    when the room is unknown, or when the room has neither an emulator
    socket nor a host. Otherwise one [joypad:state] is emitted with
    [io.to(target)], where [target] is the room's emulator socket, or its
    host when there is none: it reaches the connected sockets in the
    Socket.IO room of that name, that is the target socket and any socket
    that joined a room with that id; so it reaches the target alone when the
    target is connected and no socket joined a room named by its id. *)
Lemma joypad_input_routing st c sk p :
  sockets st !! c = Some sk →
  ∃ out,
    step st (Message c (on_joypad_input p)) = Some (st, out)
    ∧ (input_roomId sk p = "" ∨ input_slot sk p = None
       ∨ JsMap.get (input_roomId sk p) (rooms st) = None
       ∨ (∃ r, JsMap.get (input_roomId sk p) (rooms st) = Some r
               ∧ Js.truthy (emulatorSocket r) = None
               ∧ Js.truthy (host r) = None) →
       out = [])
    ∧ (∀ r s t,
         input_roomId sk p ≠ "" →
         input_slot sk p = Some s →
         JsMap.get (input_roomId sk p) (rooms st) = Some r →
         Js.truthy (emulatorSocket r) = Some t
         ∨ (Js.truthy (emulatorSocket r) = None
            ∧ Js.truthy (host r) = Some t) →
         out = [Emit (to_room t)
                  (joypad_state s (Js.to_uint32 (jp_buttons p))
                     (default (Axes 0 0) (jp_axes p)))]
         ∧ (∀ x, x ∈ recipients st (to_room t)
                 ↔ ∃ skx, sockets st !! x = Some skx
                          ∧ (x = t ∨ t ∈ joined skx))
         ∧ (is_Some (sockets st !! t) →
            (∀ x skx, sockets st !! x = Some skx → t ∉ joined skx) →
            recipients st (to_room t) = {[t]})).
Proof.
  intros Hsk. simpl. rewrite Hsk.
  exists (joypad_input st c sk p).2. split_and!.
  - f_equal. destruct (joypad_input_spec st c sk p)
      as [->|(r & t & s & _ & _ & _ & _ & ->)]; done.
  - intros Hdrop. unfold joypad_input.
    destruct (input_slot sk p) as [s|]; [|done].
    case_decide as Hrid; [done|].
    destruct (JsMap.get _ (rooms st)) as [r|] eqn:Hg; [|done].
    destruct Hdrop as [?|[?|[?|(r0 & [= <-] & He & Hh)]]]; try done.
    by rewrite truthy_or, He, Hh.
  - intros r s t Hrid Hs Hg Ht. split_and!.
    + unfold joypad_input. rewrite Hs, Hg, decide_False by done.
      rewrite truthy_or. by destruct Ht as [->|[-> ->]].
    + intros x. simpl. apply elem_of_members.
    + intros Hlive Hnone. simpl. rewrite members_unicast by done.
      by rewrite decide_True.
Qed.

(** With an emulator page and a controller alone, the controller's input
    reaches the emulator socket and nobody else. *)
Example joypad_input_to_owner_only :
  step (after owner_and_controller)
    (Message "p2" (on_joypad_input (controller_tick 257)))
  = Some (after owner_and_controller,
          [Emit (to_room "p1") (joypad_state 2 257 (Axes 0 0))])
  ∧ recipients (after owner_and_controller) (to_room "p1") = {["p1"]}.
Proof. split; vm_compute; reflexivity. Qed.

Lemma room_named_after_socket_reachable :
  reachable (after room_named_after_socket).
Proof. apply after_reachable. eexists. vm_compute. reflexivity. Qed.

(** C3. The handler comments its emission as routed only to the emulator
    host, and the claim says the same; the code departs from it in this
    reachable state. Room ["r1"] holds the emulator page ["s1"] and the
    controller ["s3"]; the socket ["s2"] is not in ["r1"] but joined a room
    whose id is ["s1"]. The input of ["s3"] is emitted once, to
    [io.to("s1")], and reaches ["s2"] as well as ["s1"]. *)
Theorem C3_input_reaches_other_socket :
  reachable (after room_named_after_socket)
  ∧ (emulatorSocket <$> JsMap.get "r1"
                          (rooms (after room_named_after_socket)))
    = Some (Some "s1")
  ∧ (JsMap.keys ∘ players <$> JsMap.get "r1"
                                (rooms (after room_named_after_socket)))
    = Some ["s1"; "s3"]
  ∧ step (after room_named_after_socket)
      (Message "s3" (on_joypad_input (controller_tick 257)))
    = Some (after room_named_after_socket,
            [Emit (to_room "s1") (joypad_state 2 257 (Axes 0 0))])
  ∧ recipients (after room_named_after_socket) (to_room "s1")
    = {["s1"; "s2"]}.
Proof.
  split; [apply room_named_after_socket_reachable|].
  split_and!; vm_compute; reflexivity.
Qed.

(** ** The WebRTC signaling relay *)

(** A [webrtc:offer], [webrtc:answer] or [webrtc:ice] with fields [to] and
    payload never changes the state and emits one event of the same kind,
    carrying the sender's id as [from] and the payload as received, with
    [io.to(to)]: it reaches the connected sockets in the Socket.IO room
    named [to], that is the socket whose id is [to] and every socket that
    joined a room with that id, and nobody else. When no socket joined a
    room named [to], it reaches the socket [to] alone if it is connected
    and nobody otherwise. *)
Lemma webrtc_relay_delivery st c sk kind to payload :
  sockets st !! c = Some sk →
  step st (Message c (on_webrtc kind to payload))
  = Some (st, [Emit (to_room to) (webrtc kind c payload)])
  ∧ (∀ x, x ∈ recipients st (to_room to)
          ↔ ∃ skx, sockets st !! x = Some skx
                   ∧ (x = to ∨ to ∈ joined skx))
  ∧ ((∀ x skx, sockets st !! x = Some skx → to ∉ joined skx) →
     (is_Some (sockets st !! to) → recipients st (to_room to) = {[to]})
     ∧ (sockets st !! to = None → recipients st (to_room to) = ∅)).
Proof.
  intros Hsk. split_and!.
  - simpl. by rewrite Hsk.
  - intros x. simpl. apply elem_of_members.
  - intros Hnone. simpl. rewrite members_unicast by done. split.
    + intros Hlive. by rewrite decide_True.
    + intros Hdead. rewrite decide_False; [done|].
      rewrite Hdead. by intros [? ?].
Qed.

(** C9 (as amended). A [webrtc:offer], [webrtc:answer] or [webrtc:ice]
    with fields [to] and payload never changes the state and emits one
    event of the same kind, carrying the sender's id as [from] and the
    payload as received, with [io.to(to)]; nothing goes back to the sender
    on its account. When no socket joined a room named [to], the event
    reaches the socket [to] alone if it is connected, and nobody otherwise.
    When [to] is not the id of a connected socket, it reaches exactly the
    sockets that joined the room named [to]. *)
Theorem C9_signaling_relay st c sk kind to payload :
  sockets st !! c = Some sk →
  step st (Message c (on_webrtc kind to payload))
  = Some (st, [Emit (to_room to) (webrtc kind c payload)])
  ∧ ((∀ x skx, sockets st !! x = Some skx → to ∉ joined skx) →
     (is_Some (sockets st !! to) → recipients st (to_room to) = {[to]})
     ∧ (sockets st !! to = None → recipients st (to_room to) = ∅))
  ∧ (sockets st !! to = None →
     ∀ x, x ∈ recipients st (to_room to)
          ↔ ∃ skx, sockets st !! x = Some skx ∧ to ∈ joined skx).
Proof.
  intros Hsk.
  destruct (webrtc_relay_delivery st c sk kind to payload Hsk)
    as (Hstep & Hrec & Huni).
  split_and!; [done | done |].
  intros Hdead x. rewrite Hrec. split.
  - intros (skx & Hx & [->|Hj]); [congruence | by exists skx].
  - intros (skx & Hx & Hj). exists skx. auto.
Qed.

Lemma C9_signaling_relay_witness :
  step (after full_room)
    (Message "p5" (on_webrtc Offer "p1" (Some "v=0 o=- 46117 2 IN IP4")))
  = Some (after full_room,
          [Emit (to_room "p1")
             (webrtc Offer "p5" (Some "v=0 o=- 46117 2 IN IP4"))])
  ∧ ((∀ x skx, sockets (after full_room) !! x = Some skx →
               "p1" ∉ joined skx) →
     (is_Some (sockets (after full_room) !! "p1") →
      recipients (after full_room) (to_room "p1") = {["p1"]})
     ∧ (sockets (after full_room) !! "p1" = None →
        recipients (after full_room) (to_room "p1") = ∅))
  ∧ (sockets (after full_room) !! "p1" = None →
     ∀ x, x ∈ recipients (after full_room) (to_room "p1")
          ↔ ∃ skx, sockets (after full_room) !! x = Some skx
                   ∧ "p1" ∈ joined skx).
Proof.
  apply (C9_signaling_relay (after full_room) "p5" new_socket Offer "p1"
           (Some "v=0 o=- 46117 2 IN IP4")).
  vm_compute. reflexivity.
Defined.

(** An offer addressed to a connected socket whose id names no room
    reaches that socket alone. *)
Example offer_to_socket_id :
  step (after full_room)
    (Message "p5" (on_webrtc Offer "p1" (Some "v=0 o=- 46117 2 IN IP4")))
  = Some (after full_room,
          [Emit (to_room "p1")
             (webrtc Offer "p5" (Some "v=0 o=- 46117 2 IN IP4"))])
  ∧ recipients (after full_room) (to_room "p1") = {["p1"]}.
Proof. split; vm_compute; reflexivity. Qed.

(** The statement of C9 fails: ["r1"] is the id of a room that four
    sockets joined, and of no connection; an offer with [to = "r1"] reaches
    those four sockets. *)
Lemma C9_counterexample :
  ¬ (∀ st c sk kind to payload out e x,
       reachable st →
       sockets st !! c = Some sk →
       step st (Message c (on_webrtc kind to payload)) = Some (st, out) →
       e ∈ out →
       x ∈ recipients st (em_dest e) →
       x = to).
Proof.
  intros H.
  assert ("p3" = "r1") as Hbad; [|discriminate].
  apply (H (after full_room) "p5" new_socket Offer "r1"
           (Some "v=0 o=- 46117 2 IN IP4")
           [Emit (to_room "r1")
              (webrtc Offer "p5" (Some "v=0 o=- 46117 2 IN IP4"))]
           (Emit (to_room "r1")
              (webrtc Offer "p5" (Some "v=0 o=- 46117 2 IN IP4")))).
  - apply full_room_reachable.
  - vm_compute. reflexivity.
  - vm_compute. reflexivity.
  - by left.
  - vm_compute. reflexivity.
Qed.

Example offer_to_room_id :
  sockets (after full_room) !! "r1" = None
  ∧ recipients (after full_room) (to_room "r1")
    = {["p1"; "p2"; "p3"; "p4"]}.
Proof. split; vm_compute; reflexivity. Qed.

(** An offer addressed to a socket whose id another socket uses as a room
    id reaches both. *)
Example offer_under_name_clash :
  step (after room_named_after_socket)
    (Message "s3" (on_webrtc Offer "s1" (Some "v=0 o=- 46117 2 IN IP4")))
  = Some (after room_named_after_socket,
          [Emit (to_room "s1")
             (webrtc Offer "s3" (Some "v=0 o=- 46117 2 IN IP4"))])
  ∧ recipients (after room_named_after_socket) (to_room "s1")
    = {["s1"; "s2"]}.
Proof. split; vm_compute; reflexivity. Qed.

(** * Further properties of the handlers *)

(** ** What a join does *)

(** The room a join works on: the one registered, or a new one. *)
Lemma getOrCreateRoom_room roomId rs :
  (getOrCreateRoom roomId rs).2 = default new_room (JsMap.get roomId rs).
Proof. unfold getOrCreateRoom. by destruct (JsMap.get roomId rs). Qed.

(** A join that finds no slot changes nothing. *)
Lemma room_join_fails st c sk roomId playerName rl :
  assignSlot (getOrCreateRoom (normalize_roomId roomId) (rooms st)).2 = None →
  room_join st c sk roomId playerName rl
  = (st, [Emit (to_self c) (room_error "Room is full (max 4 players).")]).
Proof.
  intros Ha. unfold getOrCreateRoom in Ha.
  destruct (JsMap.get (normalize_roomId roomId) (rooms st)) as [r|] eqn:Hg;
    [|simpl in Ha; by rewrite assignSlot_new_room in Ha].
  by apply (room_join_no_slot _ _ _ _ _ _ r).
Qed.

(** A join that finds a slot: the state and the emissions it produces. *)
Lemma room_join_succeeds st c sk roomId playerName rl s :
  assignSlot (getOrCreateRoom (normalize_roomId roomId) (rooms st)).2 = Some s →
  let rid := normalize_roomId roomId in
  let r0 := (getOrCreateRoom rid (rooms st)).2 in
  let isHost := bool_decide (JsMap.size (players r0) = 0%nat) in
  let isEmulator := bool_decide (rl = Some "emulator") in
  let nm := display_name playerName s in
  let r' :=
    Room (JsMap.set c (PlayerInfo s nm (Js.or_default rl "controller"))
            (players r0))
      (if isHost then Some c else host r0)
      (if isEmulator then Some c else emulatorSocket r0)
      (romName r0) in
  let rooms' := JsMap.set rid r' (rooms st) in
  room_join st c sk roomId playerName rl
  = (State rooms'
       (<[c := Socket (SocketData (Some rid) (Some s) (Some isEmulator))
                 ({[rid]} ∪ joined sk)]> (sockets st)),
     [Emit (to_self c) (room_joined s isHost rid (roomInfo rooms' rid));
      Emit (to_others rid c) (room_updated (roomInfo rooms' rid));
      broadcastRoomList rooms']
     ++ (if isEmulator then []
         else match Js.truthy (emulatorSocket r') with
              | Some e => [Emit (to_room e) (viewer_joined c (Some s) nm)]
              | None => []
              end)
     ++ (if isEmulator
         then waiting_viewers c (players r')
              ++ [Emit (to_others rid c) emulator_joined]
         else [])).
Proof.
  intros Ha. cbv zeta. unfold room_join, getOrCreateRoom in *.
  destruct (JsMap.get (normalize_roomId roomId) (rooms st)) as [r|] eqn:Hg.
  - cbn [snd] in *. by rewrite Ha.
  - cbn [snd] in *. rewrite assignSlot_new_room in Ha. injection Ha as <-.
    rewrite assignSlot_new_room. cbn [snd]. by rewrite !set_set.
Qed.

Lemma room_setrom_sockets st c sk rom :
  sockets (room_setrom st c sk rom).1 = sockets st.
Proof. unfold room_setrom. by repeat case_match. Qed.

(** ** The socket data agree with the registry *)

Lemma room_join_tracked_inv st c sk roomId playerName rl :
  sockets st !! c = Some sk →
  tracked_inv st → tracked_inv (room_join st c sk roomId playerName rl).1.
Proof.
  intros Hsk Hinv.
  destruct (assignSlot (getOrCreateRoom (normalize_roomId roomId) (rooms st)).2)
    as [s|] eqn:Ha.
  - rewrite (room_join_succeeds _ _ _ _ _ _ s Ha). cbv zeta. cbn [fst].
    intros x skx rid2 Hx Hd. cbn [rooms sockets] in *.
    destruct (decide (x = c)) as [->|Hne].
    + rewrite lookup_insert_eq in Hx. injection Hx as <-.
      cbn in Hd. injection Hd as <-. cbn [data d_slot joined].
      split_and!.
      * apply normalize_roomId_nonempty.
      * set_solver.
      * do 2 eexists. split_and!; [apply get_set_eq | |].
        -- cbn [players]. apply get_set_eq.
        -- done.
    + rewrite lookup_insert_ne in Hx by done.
      destruct (Hinv x skx rid2 Hx Hd) as (Hne2 & Hj & r2 & p2 & Hg & Hp & Hs).
      split_and!; [done | done |].
      destruct (decide (rid2 = normalize_roomId roomId)) as [->|Hrid].
      * eexists. exists p2. split_and!; [apply get_set_eq | | done].
        cbn [players]. rewrite get_set_ne by done.
        by rewrite getOrCreateRoom_room, Hg.
      * exists r2, p2. by rewrite get_set_ne.
  - by rewrite room_join_fails.
Qed.

Lemma room_setrom_tracked_inv st c sk rom :
  tracked_inv st → tracked_inv (room_setrom st c sk rom).1.
Proof.
  intros Hinv x skx rid2 Hx Hd. rewrite room_setrom_sockets in Hx.
  destruct (Hinv x skx rid2 Hx Hd) as (Hne2 & Hj & r2 & p2 & Hg & Hp & Hs).
  split_and!; [done | done |].
  destruct (room_setrom_rooms st c sk rom) as [->|(rid & r & Hgr & ->)];
    [by exists r2, p2|].
  destruct (decide (rid2 = rid)) as [->|Hrid].
  - eexists. exists p2. split_and!; [apply get_set_eq | | done].
    cbn [players]. by assert (r2 = r) as -> by congruence.
  - exists r2, p2. by rewrite get_set_ne.
Qed.

Lemma disconnect_tracked_inv st c sk :
  sockets st !! c = Some sk →
  tracked_inv st →
  tracked_inv (disconnect (State (rooms st) (delete c (sockets st))) c sk).1.
Proof.
  intros Hsk Hinv x skx rid2 Hx Hd. rewrite disconnect_sockets in Hx.
  cbn [sockets] in Hx. apply lookup_delete_Some in Hx as [Hne Hx].
  destruct (Hinv x skx rid2 Hx Hd) as (Hne2 & Hj & r2 & p2 & Hg & Hp & Hs).
  split_and!; [done | done |].
  unfold disconnect. cbn [rooms].
  destruct (Js.truthy (d_roomId (data sk))) as [rid|]; [|by exists r2, p2].
  destruct (JsMap.get rid (rooms st)) as [r|] eqn:Hgr; [|by exists r2, p2].
  assert (rid2 = rid → JsMap.get x (JsMap.delete c (players r)) = Some p2)
    as Hrem.
  { intros ->. rewrite get_delete_ne by done. congruence. }
  case_decide as Hsz; cbn [fst rooms].
  - destruct (decide (rid2 = rid)) as [Heq|Hrid].
    + apply Hrem in Heq. apply size_0_nil in Hsz. by rewrite Hsz in Heq.
    + exists r2, p2. by rewrite get_delete_ne.
  - destruct (decide (rid2 = rid)) as [Heq|Hrid].
    + eexists. exists p2. subst rid2.
      split_and!; [apply get_set_eq | | done]. cbn [players]. by apply Hrem.
    + exists r2, p2. by rewrite get_set_ne.
Qed.

Lemma reachable_tracked_inv st : reachable st → tracked_inv st.
Proof.
  induction 1 as [|st ev st' out Hreach IH Hstep].
  - intros c sk rid Hc. cbn in Hc. by rewrite lookup_empty in Hc.
  - destruct ev as [c|c m|c|]; simpl in Hstep.
    + destruct (sockets st !! c) eqn:Hc; [done|]. injection Hstep as <- <-.
      intros x skx rid Hx Hd. cbn [sockets rooms] in *.
      destruct (decide (x = c)) as [->|Hne].
      * rewrite lookup_insert_eq in Hx. by injection Hx as <-.
      * rewrite lookup_insert_ne in Hx by done. by apply IH.
    + destruct (sockets st !! c) as [sk|] eqn:Hc; [|done].
      injection Hstep as Hstep.
      replace st' with (handle st c sk m).1 by by rewrite Hstep.
      destruct m as [a b d|p|fd|sd|rom|kind to payload| | |ack|text];
        try (rewrite handle_other_state; [done | done | done]).
      * by apply room_join_tracked_inv.
      * by apply room_setrom_tracked_inv.
    + destruct (sockets st !! c) as [sk|] eqn:Hc; [|done].
      injection Hstep as Hstep.
      replace st' with
        (disconnect (State (rooms st) (delete c (sockets st))) c sk).1
        by by rewrite Hstep.
      by apply disconnect_tracked_inv.
    + injection Hstep as Hstep.
      rewrite cleanup_nonempty in Hstep by by apply reachable_nonempty_inv.
      by injection Hstep as <- _.
Qed.

(** X1. In every reachable state the data of a connected socket agree with
    the registry: the room named by [socket.data.roomId] is registered, its
    id is not empty, the socket is one of its players, in the slot recorded
    in [socket.data.slot], which lies in 1..4, and the socket has joined the
    Socket.IO room of that name. *)
Theorem socket_data_agree_with_registry st c sk roomId :
  reachable st →
  sockets st !! c = Some sk →
  d_roomId (data sk) = Some roomId →
  roomId ≠ "" ∧ roomId ∈ joined sk
  ∧ ∃ r p, JsMap.get roomId (rooms st) = Some r
           ∧ JsMap.get c (players r) = Some p
           ∧ d_slot (data sk) = Some (slot p)
           ∧ 1 ≤ slot p ≤ 4.
Proof.
  intros Hreach Hsk Hd.
  destruct (reachable_tracked_inv st Hreach c sk roomId Hsk Hd)
    as (Hne & Hj & r & p & Hg & Hp & Hs).
  split_and!; [done | done |]. exists r, p.
  apply reachable_slots_inv in Hreach.
  pose proof (rooms_get_ok room_ok _ _ _ Hreach Hg) as Hok.
  destruct (room_ok_entries r Hok) as (_ & Hrange & _).
  pose proof (Hrange c p (get_elem_of _ _ _ Hp)) as Hp'.
  change [1; 2; 3; 4] with (seqZ 1 4) in Hp'. apply elem_of_seqZ in Hp'.
  split_and!; [done | done | done | lia | lia].
Qed.

Lemma socket_data_agree_with_registry_witness :
  "r1" ≠ "" ∧ "r1" ∈ ({["r1"]} : gset string)
  ∧ ∃ r p, JsMap.get "r1" (rooms (after full_room)) = Some r
           ∧ JsMap.get "p3" (players r) = Some p
           ∧ Some 3 = Some (slot p)
           ∧ 1 ≤ slot p ≤ 4.
Proof.
  refine (socket_data_agree_with_registry (after full_room) "p3"
            (Socket (SocketData (Some "r1") (Some 3) (Some false)) {["r1"]})
            "r1" _ _ _).
  - apply full_room_reachable.
  - vm_compute. reflexivity.
  - reflexivity.
Defined.

(** ** Host and emulator socket are players of their room *)

Lemma key_set_self {V} k (v : V) m : k ∈ JsMap.keys (JsMap.set k v m).
Proof.
  destruct (decide (k ∈ JsMap.keys (JsMap.set k v m))) as [|Hn]; [done|].
  apply get_None_keys in Hn. by rewrite get_set_eq in Hn.
Qed.

Lemma keys_set_elem {V} k (v : V) m x :
  x ∈ JsMap.keys m → x ∈ JsMap.keys (JsMap.set k v m).
Proof.
  intros Hx. rewrite keys_set. case_decide; [done|].
  apply elem_of_app. by left.
Qed.

Lemma keys_delete_elem {V} k (m : JsMap.t V) x :
  x ≠ k → x ∈ JsMap.keys m → x ∈ JsMap.keys (JsMap.delete k m).
Proof.
  intros Hne ([x' v] & -> & Hin)%list_elem_of_fmap.
  apply list_elem_of_fmap. exists (x', v). split; [done|].
  by apply delete_elem_of.
Qed.

Lemma next_host_key remaining h :
  next_host remaining = Some h → h ∈ JsMap.keys remaining.
Proof.
  unfold next_host.
  destruct (List.find _ remaining) as [[k q]|] eqn:Hf.
  - intros [= <-]. apply find_first in Hf as (pre & post & -> & _).
    unfold JsMap.keys. rewrite fmap_app, fmap_cons. apply elem_of_app.
    right. by left.
  - destruct remaining as [|[k q] rest]; [done|]. intros [= <-]. by left.
Qed.

Lemma refs_ok_not_empty r : refs_ok r → players r ≠ [].
Proof. intros [(h & _ & Hh) _] He. rewrite He in Hh. by apply elem_of_nil in Hh. Qed.

Lemma room_join_refs_inv st c sk roomId playerName rl :
  refs_inv st → refs_inv (room_join st c sk roomId playerName rl).1.
Proof.
  intros Hinv.
  destruct (assignSlot (getOrCreateRoom (normalize_roomId roomId) (rooms st)).2)
    as [s|] eqn:Ha; [|by rewrite room_join_fails].
  rewrite (room_join_succeeds _ _ _ _ _ _ s Ha). cbv zeta. cbn [fst].
  unfold refs_inv. cbn [rooms]. apply Forall_set; [|done]. cbn [snd].
  rewrite getOrCreateRoom_room.
  destruct (JsMap.get (normalize_roomId roomId) (rooms st)) as [r|] eqn:Hg;
    cbn [default from_option].
  - pose proof (rooms_get_ok refs_ok _ _ _ Hinv Hg) as Hok.
    pose proof (refs_ok_not_empty r Hok) as Hne.
    destruct Hok as [(h & Hh & Hhk) He]. split; cbn [host emulatorSocket players].
    + rewrite bool_decide_eq_false_2 by by rewrite size_0_nil.
      exists h. split; [done|]. by apply keys_set_elem.
    + intros e. case_bool_decide.
      * intros [= <-]. apply key_set_self.
      * intros Hee. by apply keys_set_elem, He.
  - split; cbn [host emulatorSocket players new_room].
    + exists c. split; [done|]. apply key_set_self.
    + intros e. case_bool_decide; [|done]. intros [= <-]. apply key_set_self.
Qed.

Lemma room_setrom_refs_inv st c sk rom :
  refs_inv st → refs_inv (room_setrom st c sk rom).1.
Proof.
  intros Hinv. destruct (room_setrom_rooms st c sk rom)
    as [->|(rid & r & Hg & Hr)]; [done|].
  unfold refs_inv. rewrite Hr. apply Forall_set; [|done].
  apply (rooms_get_ok refs_ok _ _ _ Hinv Hg).
Qed.

Lemma disconnect_refs_inv st c sk :
  refs_inv st → refs_inv (disconnect st c sk).1.
Proof.
  unfold refs_inv, disconnect. intros Hinv.
  destruct (Js.truthy _) as [rid|]; [|done].
  destruct (JsMap.get rid (rooms st)) as [r|] eqn:Hg; [|done].
  case_decide as Hsz; cbn [fst rooms].
  - by apply Forall_delete.
  - apply Forall_set; [|done]. cbn [snd].
    destruct (rooms_get_ok refs_ok _ _ _ Hinv Hg) as [(h & Hh & Hhk) He].
    rewrite size_0_nil in Hsz.
    split; cbn [host emulatorSocket players].
    + case_bool_decide as Hhost.
      * destruct (next_host_spec _ Hsz) as (h' & Hn & _). exists h'.
        split; [done|]. by apply next_host_key.
      * exists h. split; [done|]. apply keys_delete_elem; [|done].
        intros ->. by destruct Hhost.
    + intros e. case_bool_decide as Hemu; [done|]. intros Hee.
      apply keys_delete_elem; [|by apply He]. intros ->. by destruct Hemu.
Qed.

Lemma reachable_refs_inv st : reachable st → refs_inv st.
Proof.
  induction 1 as [|st ev st' out _ IH Hstep]; [by constructor|].
  destruct ev as [c|c m|c|]; simpl in Hstep.
  - destruct (sockets st !! c); [done|]. by injection Hstep as <- <-.
  - destruct (sockets st !! c) as [sk|]; [|done]. injection Hstep as Hstep.
    replace st' with (handle st c sk m).1 by by rewrite Hstep.
    destruct m as [a b d|p|fd|sd|rom|kind to payload| | |ack|text];
      try (rewrite handle_other_state; [done | done | done]).
    + by apply room_join_refs_inv.
    + by apply room_setrom_refs_inv.
  - destruct (sockets st !! c) as [sk|]; [|done]. injection Hstep as Hstep.
    replace st' with
      (disconnect (State (rooms st) (delete c (sockets st))) c sk).1
      by by rewrite Hstep.
    by apply disconnect_refs_inv.
  - injection Hstep as Hstep. replace st' with (cleanup st).1 by by rewrite Hstep.
    unfold refs_inv. rewrite cleanup_rooms. by apply sweep_Forall.
Qed.

Lemma key_get {V} k (m : JsMap.t V) :
  k ∈ JsMap.keys m → ∃ v, JsMap.get k m = Some v.
Proof.
  intros Hk. destruct (JsMap.get k m) as [v|] eqn:Hg; [by exists v|].
  by apply get_None_keys in Hg.
Qed.

(** X2. In every reachable state every room of the registry has a host,
    the host is one of the room's players, and so is the emulator socket
    when the room has one. *)
Theorem host_and_emulator_are_players st roomId r :
  reachable st →
  (roomId, r) ∈ rooms st →
  (∃ h p, host r = Some h ∧ JsMap.get h (players r) = Some p)
  ∧ (∀ e, emulatorSocket r = Some e →
          ∃ p, JsMap.get e (players r) = Some p).
Proof.
  intros Hreach%reachable_refs_inv Hin. unfold refs_inv in Hreach.
  rewrite Forall_forall in Hreach. apply Hreach in Hin as [(h & Hh & Hk) He].
  split.
  - exists h. apply key_get in Hk as [p Hp]. by exists p.
  - intros e Hee. by apply key_get, He.
Qed.

Lemma host_and_emulator_are_players_witness :
  (∃ h p, Some "p1" = Some h
          ∧ JsMap.get h
              [("p1", PlayerInfo 1 "Player 1" "emulator");
               ("p2", PlayerInfo 2 "Player 2" "controller")] = Some p)
  ∧ (∀ e, Some "p1" = Some e →
          ∃ p, JsMap.get e
                 [("p1", PlayerInfo 1 "Player 1" "emulator");
                  ("p2", PlayerInfo 2 "Player 2" "controller")] = Some p).
Proof.
  apply (host_and_emulator_are_players (after owner_and_controller) "r1"
           (Room [("p1", PlayerInfo 1 "Player 1" "emulator");
                  ("p2", PlayerInfo 2 "Player 2" "controller")]
              (Some "p1") (Some "p1") None)).
  - apply owner_and_controller_reachable.
  - vm_compute. by left.
Defined.

(** ** The room list is published after every change of the registry *)

Lemma sweep_count_le it rs n : (n ≤ (sweep it rs n).2)%nat.
Proof.
  revert rs n. induction it as [|[id r] it IH]; intros rs n; simpl; [done|].
  case_decide; [|done]. pose proof (IH (JsMap.delete id rs) (S n)). lia.
Qed.

Lemma sweep_none_cleaned it rs n :
  (sweep it rs n).2 = n → (sweep it rs n).1 = rs.
Proof.
  revert rs n. induction it as [|[id r] it IH]; intros rs n; simpl; [done|].
  case_decide; [|by apply IH].
  pose proof (sweep_count_le it (JsMap.delete id rs) (S n)). lia.
Qed.

Lemma cleanup_publishes st :
  rooms (cleanup st).1 ≠ rooms st →
  broadcastRoomList (rooms (cleanup st).1) ∈ (cleanup st).2.
Proof.
  unfold cleanup.
  pose proof (sweep_none_cleaned (rooms st) (rooms st) 0) as Hnone.
  destruct (sweep (rooms st) (rooms st) 0) as [rooms' cleaned].
  cbn [fst snd rooms] in *. intros Hch. case_decide as Hc.
  - subst. by destruct Hch; apply Hnone.
  - by left.
Qed.

Lemma disconnect_publishes st c sk :
  rooms (disconnect st c sk).1 ≠ rooms st →
  broadcastRoomList (rooms (disconnect st c sk).1) ∈ (disconnect st c sk).2.
Proof.
  unfold disconnect.
  destruct (Js.truthy _) as [rid|]; [|done].
  destruct (JsMap.get rid (rooms st)) as [r|]; [|done].
  case_decide; cbn [fst snd rooms]; intros _.
  - apply elem_of_app. right. by left.
  - rewrite !elem_of_app. right. right. right. by left.
Qed.

Lemma handle_publishes st c sk m :
  rooms (handle st c sk m).1 ≠ rooms st →
  broadcastRoomList (rooms (handle st c sk m).1) ∈ (handle st c sk m).2.
Proof.
  destruct m as [a b d|p|fd|sd|rom|kind to payload| | |ack|text];
    try (rewrite handle_other_state; [done | done | done]).
  - cbn [handle].
    destruct (assignSlot (getOrCreateRoom (normalize_roomId a) (rooms st)).2)
      as [s|] eqn:Ha; [|by rewrite room_join_fails].
    rewrite (room_join_succeeds _ _ _ _ _ _ s Ha). cbv zeta.
    cbn [fst snd rooms]. intros _. right. right. by left.
  - cbn [handle]. unfold room_setrom.
    destruct (data_room st sk) as [[rid r]|]; [|done].
    cbn [fst snd rooms]. intros _. by left.
Qed.

(** X3. Whatever the event, if it changes the registry then the room list
    computed from the new registry is among the emissions, sent with
    [io.emit], which reaches every connected socket. *)
Theorem registry_change_is_published st ev st' out :
  step st ev = Some (st', out) →
  rooms st' ≠ rooms st →
  Emit to_all (rooms_list (getAllRooms (rooms st'))) ∈ out
  ∧ ∀ x, x ∈ recipients st' to_all ↔ is_Some (sockets st' !! x).
Proof.
  intros Hstep Hch. split; [|intros x; simpl; apply elem_of_dom].
  destruct ev as [c|c m|c|]; simpl in Hstep.
  - destruct (sockets st !! c); [done|]. injection Hstep as <- <-. done.
  - destruct (sockets st !! c) as [sk|]; [|done]. injection Hstep as Hstep.
    pose proof (handle_publishes st c sk m) as Hp. rewrite Hstep in Hp.
    by apply Hp.
  - destruct (sockets st !! c) as [sk|]; [|done]. injection Hstep as Hstep.
    pose proof (disconnect_publishes
                  (State (rooms st) (delete c (sockets st))) c sk) as Hp.
    rewrite Hstep in Hp. by apply Hp.
  - injection Hstep as Hstep. pose proof (cleanup_publishes st) as Hp.
    rewrite Hstep in Hp. by apply Hp.
Qed.

Lemma registry_change_is_published_witness :
  Emit to_all
    (rooms_list
       (getAllRooms (rooms (after (full_room ++ [Disconnect "p2"])))))
  ∈ default [] (snd <$> step (after full_room) (Disconnect "p2"))
  ∧ ∀ x, x ∈ recipients (after (full_room ++ [Disconnect "p2"])) to_all
         ↔ is_Some (sockets (after (full_room ++ [Disconnect "p2"])) !! x).
Proof.
  apply (registry_change_is_published (after full_room) (Disconnect "p2")).
  - vm_compute. reflexivity.
  - vm_compute. discriminate.
Defined.

(** ** The content of the room list *)

(** X4. In every reachable state the room list has one entry per room of
    the registry, in the order of the registry and with no id twice; each
    entry gives 4 as the maximum, a player count that is the number of
    players listed and lies in 1..4, and players with pairwise distinct
    slots within 1..4. *)
Theorem room_list_entries st :
  reachable st →
  rs_id <$> getAllRooms (rooms st) = JsMap.keys (rooms st)
  ∧ NoDup (rs_id <$> getAllRooms (rooms st))
  ∧ Forall (λ e, rs_maxPlayers e = 4
                 ∧ rs_playerCount e = length (rs_players e)
                 ∧ (1 ≤ rs_playerCount e ≤ 4)%nat
                 ∧ NoDup (fst <$> rs_players e)
                 ∧ Forall (λ sn : Z * string, 1 ≤ sn.1 ≤ 4) (rs_players e))
      (getAllRooms (rooms st)).
Proof.
  intros Hreach.
  assert (rs_id <$> getAllRooms (rooms st) = JsMap.keys (rooms st)) as Hids.
  { unfold getAllRooms, JsMap.keys. rewrite <- list_fmap_compose.
    by apply list_fmap_ext. }
  split_and!; [done | |].
  - rewrite Hids. by apply reachable_keys_inv.
  - pose proof (reachable_slots_inv _ Hreach) as Hs.
    pose proof (reachable_nonempty_inv _ Hreach) as Hn.
    unfold getAllRooms. apply Forall_fmap, Forall_forall.
    intros [rid r] Hin. unfold slots_inv, nonempty_inv in *.
    rewrite Forall_forall in Hs, Hn. apply Hs in Hin as Hok.
    apply Hn in Hin as Hne. cbn [fst snd] in *.
    destruct Hok as (Hnd & Hr & Hsz). cbn.
    assert (((λ p : playerInfo, (slot p, name p)) <$> JsMap.values (players r)).*1
            = used_slots r) as Hfst.
    { unfold used_slots, slots_of. rewrite <- list_fmap_compose.
      by apply list_fmap_ext. }
    split_and!.
    + done.
    + unfold JsMap.size, JsMap.values. by rewrite !length_fmap.
    + unfold JsMap.size. destruct (players r); [done | simpl; lia].
    + done.
    + by rewrite Hfst.
    + apply Forall_fmap. unfold used_slots, slots_of in Hr.
      rewrite Forall_fmap in Hr. eapply Forall_impl; [exact Hr|].
      intros p Hp. exact Hp.
Qed.

Lemma room_list_entries_witness :
  rs_id <$> getAllRooms (rooms (after room_named_after_socket))
  = JsMap.keys (rooms (after room_named_after_socket))
  ∧ NoDup (rs_id <$> getAllRooms (rooms (after room_named_after_socket)))
  ∧ Forall (λ e, rs_maxPlayers e = 4
                 ∧ rs_playerCount e = length (rs_players e)
                 ∧ (1 ≤ rs_playerCount e ≤ 4)%nat
                 ∧ NoDup (fst <$> rs_players e)
                 ∧ Forall (λ sn : Z * string, 1 ≤ sn.1 ≤ 4) (rs_players e))
      (getAllRooms (rooms (after room_named_after_socket))).
Proof.
  apply room_list_entries, room_named_after_socket_reachable.
Defined.

(** ** The periodic cleanup on any registry *)

Lemma delete_as_filter {V} k (m : list (string * V)) :
  JsMap.delete k m = filter (λ kv : string * V, kv.1 ≠ k) m.
Proof.
  induction m as [|[k' v] m IH]; [done|]. cbn [JsMap.delete].
  case_decide as Hk.
  - rewrite filter_cons_False; [done|]. cbn. auto.
  - rewrite filter_cons_True; [by rewrite IH|]. cbn. auto.
Qed.

Lemma filter_ext_elem {A} (P Q : A → Prop) `{!∀ x, Decision (P x)}
    `{!∀ x, Decision (Q x)} (l : list A) :
  (∀ x, x ∈ l → P x ↔ Q x) → filter P l = filter Q l.
Proof.
  induction l as [|a l IH]; [done|]. intros Hext.
  assert (filter P l = filter Q l) as Hl.
  { apply IH. intros x Hx. apply Hext. by right. }
  assert (P a ↔ Q a) as Ha by (apply Hext; by left).
  destruct (decide (P a)) as [Hp|Hp].
  - rewrite !filter_cons_True by tauto. by rewrite Hl.
  - rewrite !filter_cons_False by tauto. done.
Qed.

Lemma elem_length_pos {A} (x : A) (l : list A) : x ∈ l → length l ≠ 0%nat.
Proof. destruct l; [by intros ?%elem_of_nil | done]. Qed.

(** The ids that the loop of the cleanup deletes. *)
Lemma sweep_as_filter (it rs : list (string * room)) n :
  sweep it rs n
  = (filter (λ kr : string * room,
               kr.1 ∉ JsMap.keys
                        (filter (λ kr' : string * room, players kr'.2 = [])
                           it)) rs,
     (n + length (filter (λ kr' : string * room, players kr'.2 = []) it))%nat).
Proof.
  revert rs n. induction it as [|[id r] it IH]; intros rs n.
  - cbn. f_equal; [|lia]. symmetry. induction rs as [|a rs IHrs]; [done|].
    rewrite filter_cons_True; [by rewrite IHrs | apply not_elem_of_nil].
  - cbn [sweep]. case_decide as Hsz.
    + apply size_0_nil in Hsz. rewrite IH.
      rewrite (filter_cons_True _ (id, r)) by done.
      cbn [length]. f_equal; [|lia].
      rewrite delete_as_filter, list_filter_filter.
      apply list_filter_iff. intros [k v]. cbn.
      rewrite not_elem_of_cons. tauto.
    + rewrite IH. rewrite (filter_cons_False _ (id, r)); [done|].
      cbn. by rewrite <- size_0_nil.
Qed.

(** X5. On a registry with unique keys the periodic cleanup removes the
    rooms that have no players and no others, keeps the order of the rest,
    leaves the sockets alone, publishes the room list once if it removed a
    room and nothing otherwise, and a second cleanup right after finds
    nothing to do. *)
Theorem cleanup_removes_empty_rooms st :
  NoDup (JsMap.keys (rooms st)) →
  rooms (cleanup st).1
  = filter (λ kr : string * room, players kr.2 ≠ []) (rooms st)
  ∧ sockets (cleanup st).1 = sockets st
  ∧ (Forall (λ kr : string * room, players kr.2 ≠ []) (rooms st) →
     (cleanup st).2 = [])
  ∧ (Exists (λ kr : string * room, players kr.2 = []) (rooms st) →
     (cleanup st).2 = [broadcastRoomList (rooms (cleanup st).1)])
  ∧ cleanup (cleanup st).1 = ((cleanup st).1, []).
Proof.
  intros Hnd.
  assert (rooms (cleanup st).1
          = filter (λ kr : string * room, players kr.2 ≠ []) (rooms st))
    as Hrooms.
  { rewrite cleanup_rooms, sweep_as_filter. cbn [fst].
    apply filter_ext_elem. intros [k r] Hin. cbn. split.
    - intros Hk He. apply Hk. apply list_elem_of_fmap. exists (k, r).
      split; [done|]. by apply list_elem_of_filter.
    - intros Hne ([k' r'] & Hk & [He Hin']%list_elem_of_filter)%list_elem_of_fmap.
      cbn in *. subst k'.
      assert (r' = r) as ->; [|done].
      apply (elem_of_get _ _ _ Hnd) in Hin, Hin'. congruence. }
  split_and!; [done | | | |].
  - unfold cleanup. by destruct (sweep _ _ _).
  - intros Hall. by rewrite cleanup_nonempty.
  - intros Hex. unfold cleanup. rewrite sweep_as_filter. cbn [snd fst].
    rewrite decide_False; [done|].
    apply Exists_exists in Hex as (kr & Hin & He).
    assert (kr ∈ filter (λ kr' : string * room, players kr'.2 = [])
                   (rooms st)) as Hf by by apply list_elem_of_filter.
    intros Hlen. apply (elem_length_pos _ _ Hf). exact Hlen.
  - apply cleanup_nonempty. unfold nonempty_inv. rewrite Hrooms.
    apply Forall_forall. by intros kr [? _]%list_elem_of_filter.
Qed.

Lemma cleanup_removes_empty_rooms_witness :
  rooms (cleanup stale_registry).1
  = filter (λ kr : string * room, players kr.2 ≠ []) (rooms stale_registry)
  ∧ sockets (cleanup stale_registry).1 = sockets stale_registry
  ∧ (Forall (λ kr : string * room, players kr.2 ≠ [])
       (rooms stale_registry) →
     (cleanup stale_registry).2 = [])
  ∧ (Exists (λ kr : string * room, players kr.2 = [])
       (rooms stale_registry) →
     (cleanup stale_registry).2
     = [broadcastRoomList (rooms (cleanup stale_registry).1)])
  ∧ cleanup (cleanup stale_registry).1 = ((cleanup stale_registry).1, []).
Proof.
  apply cleanup_removes_empty_rooms. cbn.
  repeat (apply NoDup_cons; split; [set_solver|]). apply NoDup_nil_2.
Defined.

(** ** Room ids *)

Lemma slice0_short n s : (String.length s ≤ n)%nat → Js.slice0 n s = s.
Proof.
  unfold Js.slice0. revert s. induction n as [|n IH]; intros [|a s]; simpl;
    try done; try lia.
  intros Hlen. f_equal. apply IH. lia.
Qed.

Lemma slice0_idem n s : Js.slice0 n (Js.slice0 n s) = Js.slice0 n s.
Proof. apply slice0_short. rewrite slice0_length. lia. Qed.

Lemma or_default_truthy s d : s ≠ "" → Js.or_default (Some s) d = s.
Proof. intros Hs. unfold Js.or_default, Js.truthy. by rewrite decide_False. Qed.

Lemma normalize_roomId_idem roomId :
  normalize_roomId (Some (normalize_roomId roomId)) = normalize_roomId roomId.
Proof.
  unfold normalize_roomId at 1.
  rewrite or_default_truthy by apply normalize_roomId_nonempty.
  unfold normalize_roomId. apply slice0_idem.
Qed.

Lemma normalize_roomId_length roomId :
  (1 ≤ String.length (normalize_roomId roomId) ≤ 32)%nat.
Proof.
  pose proof (normalize_roomId_nonempty roomId) as Hne.
  unfold normalize_roomId in *. rewrite slice0_length. split; [|lia].
  rewrite <- (slice0_length 32).
  destruct (Js.slice0 32 _); [done | simpl; lia].
Qed.

(** The keys of the registry are ids that [room:join] produced. *)
Lemma reachable_room_keys (P : string → Prop) :
  (∀ x, P (normalize_roomId x)) →
  ∀ st, reachable st → Forall (λ kr : string * room, P kr.1) (rooms st).
Proof.
  intros HP st. induction 1 as [|st ev st' out _ IH Hstep]; [by constructor|].
  assert (∀ k r, JsMap.get k (rooms st) = Some r → P k) as Hkey.
  { intros k r Hg%get_elem_of. rewrite Forall_forall in IH.
    by apply IH in Hg. }
  destruct ev as [c|c m|c|]; simpl in Hstep.
  - destruct (sockets st !! c); [done|]. by injection Hstep as <- <-.
  - destruct (sockets st !! c) as [sk|]; [|done]. injection Hstep as Hstep.
    replace st' with (handle st c sk m).1 by by rewrite Hstep.
    destruct m as [a b d|p|fd|sd|rom|kind to payload| | |ack|text];
      try (rewrite handle_other_state; [done | done | done]).
    + cbn [handle].
      destruct (assignSlot (getOrCreateRoom (normalize_roomId a) (rooms st)).2)
        as [s|] eqn:Ha; [|by rewrite room_join_fails].
      rewrite (room_join_succeeds _ _ _ _ _ _ s Ha). cbv zeta.
      cbn [fst rooms]. apply Forall_set; [apply HP | done].
    + cbn [handle]. destruct (room_setrom_rooms st c sk rom)
        as [->|(rid & r & Hg & ->)]; [done|].
      apply Forall_set; [by eapply Hkey | done].
  - destruct (sockets st !! c) as [sk|]; [|done]. injection Hstep as Hstep.
    replace st' with
      (disconnect (State (rooms st) (delete c (sockets st))) c sk).1
      by by rewrite Hstep.
    unfold disconnect. cbn [rooms].
    destruct (Js.truthy _) as [rid|]; [|done].
    destruct (JsMap.get rid (rooms st)) as [r|] eqn:Hg; [|done].
    case_decide; cbn [fst rooms].
    + by apply Forall_delete.
    + apply Forall_set; [by eapply Hkey | done].
  - injection Hstep as Hstep. replace st' with (cleanup st).1 by by rewrite Hstep.
    rewrite cleanup_rooms. by apply sweep_Forall.
Qed.

(** X6. The room id a join works on has 1 to 32 characters and is left
    as it is by a second normalisation; an id of 1 to 32 characters is kept,
    a missing or empty one becomes ["default"]. Every key of the registry
    of a reachable state is such an id. *)
Theorem room_ids_normalized :
  (∀ roomId,
     (1 ≤ String.length (normalize_roomId roomId) ≤ 32)%nat
     ∧ normalize_roomId (Some (normalize_roomId roomId))
       = normalize_roomId roomId)
  ∧ (∀ s, s ≠ "" → (String.length s ≤ 32)%nat →
          normalize_roomId (Some s) = s)
  ∧ normalize_roomId None = "default"
  ∧ normalize_roomId (Some "") = "default"
  ∧ (∀ st roomId r,
       reachable st → (roomId, r) ∈ rooms st →
       (1 ≤ String.length roomId ≤ 32)%nat
       ∧ normalize_roomId (Some roomId) = roomId).
Proof.
  split_and!; [|  | done | done |].
  - intros roomId. split;
      [apply normalize_roomId_length | apply normalize_roomId_idem].
  - intros s Hs Hlen. unfold normalize_roomId.
    rewrite or_default_truthy by done. by apply slice0_short.
  - intros st roomId r Hreach Hin.
    assert (Forall (λ kr : string * room,
                      (1 ≤ String.length kr.1 ≤ 32)%nat
                      ∧ normalize_roomId (Some kr.1) = kr.1) (rooms st))
      as HF.
    { apply (reachable_room_keys
               (λ k, (1 ≤ String.length k ≤ 32)%nat
                     ∧ normalize_roomId (Some k) = k)); [|done].
      intros x. split;
        [apply normalize_roomId_length | apply normalize_roomId_idem]. }
    rewrite Forall_forall in HF. apply (HF (roomId, r) Hin).
Qed.

Lemma room_ids_normalized_witness :
  (1 ≤ String.length "s1" ≤ 32)%nat ∧ normalize_roomId (Some "s1") = "s1".
Proof.
  apply (proj2 (proj2 (proj2 (proj2 room_ids_normalized)))
           (after room_named_after_socket) "s1"
           (Room [("s2", PlayerInfo 1 "Player 1" "controller")] (Some "s2")
              None None)).
  - apply room_named_after_socket_reachable.
  - vm_compute. right. by left.
Defined.

(** ** Who is told about a join *)

Lemma waiting_viewers_set c p ps :
  waiting_viewers c (JsMap.set c p ps) = waiting_viewers c ps.
Proof.
  unfold waiting_viewers. induction ps as [|[k q] ps IH]; cbn.
  - by rewrite decide_True.
  - case_decide as Hk; cbn.
    + subst k. by rewrite !decide_True.
    + rewrite decide_False by done. rewrite IH. done.
Qed.

Lemma waiting_viewers_as_filter c (ps : list (string * playerInfo)) :
  waiting_viewers c ps
  = (λ kp : string * playerInfo,
       Emit (to_self c) (viewer_joined kp.1 (Some (slot kp.2)) (name kp.2)))
    <$> filter (λ kp : string * playerInfo,
                  kp.1 ≠ c ∧ role kp.2 ≠ "emulator") ps.
Proof.
  unfold waiting_viewers. induction ps as [|[k q] ps IH]; [done|].
  rewrite filter_cons. cbn [omap list_omap fst snd].
  destruct (decide (k = c)) as [Hk|Hk].
  - rewrite decide_False by tauto. done.
  - destruct (decide (role q = "emulator")) as [Hr|Hr].
    + rewrite decide_False by tauto. done.
    + rewrite decide_True by tauto. rewrite fmap_cons. by rewrite IH.
Qed.

Lemma step_room_join st c sk a b d st' out :
  sockets st !! c = Some sk →
  step st (Message c (on_room_join a b d)) = Some (st', out) →
  room_join st c sk a b d = (st', out).
Proof. intros Hsk. simpl. rewrite Hsk. by intros [= ->]. Qed.

Lemma room_join_assigned_Some st c sk a b d st' out s :
  room_join st c sk a b d = (st', out) →
  assigned_slot out = Some s →
  assignSlot (getOrCreateRoom (normalize_roomId a) (rooms st)).2 = Some s.
Proof.
  intros Hj Hs. rewrite <- Hs, <- (room_join_assigned st c sk a b d).
  by rewrite Hj.
Qed.

(** X7. When a socket joins in the role ['emulator'] and gets a slot, it
    becomes the emulator socket of the room and the emissions are, in this
    order: the reply to the joiner, the update to the others in the room,
    the room list to all, then one [viewer:joined] to the joiner for each
    player that was in the room before, other than the joiner itself and
    players in the role ['emulator'], in joining order and with that
    player's id, slot and name, and last [emulator:joined] to the others in
    the room. *)
Theorem emulator_join_notifications st c sk roomId playerName st' out s :
  sockets st !! c = Some sk →
  step st (Message c (on_room_join roomId playerName (Some "emulator")))
  = Some (st', out) →
  assigned_slot out = Some s →
  (emulatorSocket <$> JsMap.get (normalize_roomId roomId) (rooms st'))
  = Some (Some c)
  ∧ ∃ isHost info,
      out
      = [Emit (to_self c)
           (room_joined s isHost (normalize_roomId roomId) info);
         Emit (to_others (normalize_roomId roomId) c) (room_updated info);
         Emit to_all (rooms_list (getAllRooms (rooms st')))]
        ++ ((λ kp : string * playerInfo,
               Emit (to_self c)
                 (viewer_joined kp.1 (Some (slot kp.2)) (name kp.2)))
            <$> filter (λ kp : string * playerInfo,
                          kp.1 ≠ c ∧ role kp.2 ≠ "emulator")
                  (match JsMap.get (normalize_roomId roomId) (rooms st) with
                   | Some r => players r
                   | None => []
                   end))
        ++ [Emit (to_others (normalize_roomId roomId) c) emulator_joined].
Proof.
  intros Hsk Hstep Hs. apply (step_room_join _ _ sk) in Hstep; [|done].
  pose proof (room_join_assigned_Some _ _ _ _ _ _ _ _ _ Hstep Hs) as Ha.
  rewrite (room_join_succeeds _ _ _ _ _ _ s Ha) in Hstep. cbv zeta in Hstep.
  rewrite !(bool_decide_eq_true_2 (Some "emulator" = Some "emulator"))
    in Hstep by done.
  injection Hstep as <- <-. cbn [rooms]. split.
  - by rewrite get_set_eq.
  - do 2 eexists. cbn [app]. do 3 f_equal. f_equal.
    cbn [players]. rewrite waiting_viewers_set, waiting_viewers_as_filter.
    rewrite getOrCreateRoom_room.
    by destruct (JsMap.get (normalize_roomId roomId) (rooms st)).
Qed.

Lemma emulator_join_notifications_witness :
  (emulatorSocket <$> JsMap.get (normalize_roomId (Some "r1"))
                        (rooms (after (waiting_for_emulator
                                       ++ [joins "e1" "r1" "emulator"]))))
  = Some (Some "e1")
  ∧ ∃ isHost info,
      default []
        (snd <$> step (after waiting_for_emulator)
                   (joins "e1" "r1" "emulator"))
      = [Emit (to_self "e1")
           (room_joined 4 isHost (normalize_roomId (Some "r1")) info);
         Emit (to_others (normalize_roomId (Some "r1")) "e1")
           (room_updated info);
         Emit to_all
           (rooms_list
              (getAllRooms
                 (rooms (after (waiting_for_emulator
                                ++ [joins "e1" "r1" "emulator"])))))]
        ++ ((λ kp : string * playerInfo,
               Emit (to_self "e1")
                 (viewer_joined kp.1 (Some (slot kp.2)) (name kp.2)))
            <$> filter (λ kp : string * playerInfo,
                          kp.1 ≠ "e1" ∧ role kp.2 ≠ "emulator")
                  (match JsMap.get (normalize_roomId (Some "r1"))
                           (rooms (after waiting_for_emulator)) with
                   | Some r => players r
                   | None => []
                   end))
        ++ [Emit (to_others (normalize_roomId (Some "r1")) "e1")
              emulator_joined].
Proof.
  refine (emulator_join_notifications (after waiting_for_emulator) "e1"
            new_socket (Some "r1") None _ _ 4 _ _ _).
  - vm_compute. reflexivity.
  - vm_compute. reflexivity.
  - vm_compute. reflexivity.
Defined.

(** X8. When a socket joins in another role than ['emulator'] and gets a
    slot, the emulator socket of the room stays as it was and the emissions
    are the reply to the joiner, the update to the others in the room and
    the room list to all, followed by exactly one [viewer:joined] with the
    joiner's id, slot and name, addressed to the emulator socket, if the
    room has one, and by nothing if it has none. *)
Theorem player_join_notifications st c sk roomId playerName rl st' out s :
  sockets st !! c = Some sk →
  rl ≠ Some "emulator" →
  step st (Message c (on_room_join roomId playerName rl)) = Some (st', out) →
  assigned_slot out = Some s →
  ∃ owner,
    owner = match JsMap.get (normalize_roomId roomId) (rooms st) with
            | Some r => emulatorSocket r
            | None => None
            end
    ∧ (emulatorSocket <$> JsMap.get (normalize_roomId roomId) (rooms st'))
      = Some owner
    ∧ ∃ isHost info,
        out
        = [Emit (to_self c)
             (room_joined s isHost (normalize_roomId roomId) info);
           Emit (to_others (normalize_roomId roomId) c) (room_updated info);
           Emit to_all (rooms_list (getAllRooms (rooms st')))]
          ++ match Js.truthy owner with
             | Some e =>
                 [Emit (to_room e)
                    (viewer_joined c (Some s)
                       (Js.or_default playerName ("Player " +:+ pretty s)))]
             | None => []
             end.
Proof.
  intros Hsk Hrl Hstep Hs. apply (step_room_join _ _ sk) in Hstep; [|done].
  pose proof (room_join_assigned_Some _ _ _ _ _ _ _ _ _ Hstep Hs) as Ha.
  rewrite (room_join_succeeds _ _ _ _ _ _ s Ha) in Hstep. cbv zeta in Hstep.
  rewrite !(bool_decide_eq_false_2 (rl = Some "emulator")) in Hstep by done.
  injection Hstep as <- <-. cbn [rooms emulatorSocket].
  rewrite getOrCreateRoom_room. eexists. split; [done|]. split.
  - rewrite get_set_eq. cbn.
    by destruct (JsMap.get (normalize_roomId roomId) (rooms st)).
  - do 2 eexists. rewrite app_nil_r. cbn [app].
    do 3 (apply (f_equal2 cons); [reflexivity|]).
    unfold display_name.
    by destruct (JsMap.get (normalize_roomId roomId) (rooms st)).
Qed.

Lemma player_join_notifications_witness :
  ∃ owner,
    owner = match JsMap.get (normalize_roomId (Some "r1"))
                    (rooms (after (owner_and_controller ++ [Connect "p3"])))
            with
            | Some r => emulatorSocket r
            | None => None
            end
    ∧ (emulatorSocket
         <$> JsMap.get (normalize_roomId (Some "r1"))
               (rooms (after (owner_and_controller
                              ++ [Connect "p3"; joins "p3" "r1" "viewer"]))))
      = Some owner
    ∧ ∃ isHost info,
        default []
          (snd <$> step (after (owner_and_controller ++ [Connect "p3"]))
                     (joins "p3" "r1" "viewer"))
        = [Emit (to_self "p3")
             (room_joined 3 isHost (normalize_roomId (Some "r1")) info);
           Emit (to_others (normalize_roomId (Some "r1")) "p3")
             (room_updated info);
           Emit to_all
             (rooms_list
                (getAllRooms
                   (rooms (after (owner_and_controller
                                  ++ [Connect "p3";
                                      joins "p3" "r1" "viewer"])))))]
          ++ match Js.truthy owner with
             | Some e =>
                 [Emit (to_room e)
                    (viewer_joined "p3" (Some 3)
                       (Js.or_default None ("Player " +:+ pretty 3)))]
             | None => []
             end.
Proof.
  refine (player_join_notifications
            (after (owner_and_controller ++ [Connect "p3"])) "p3"
            new_socket (Some "r1") None (Some "viewer") _ _ 3 _ _ _ _).
  - vm_compute. reflexivity.
  - discriminate.
  - vm_compute. reflexivity.
  - vm_compute. reflexivity.
Defined.

(** ** Which socket gets the input after the emulator changes *)

Lemma emulator_join_owner st c sk roomId playerName st' out s :
  sockets st !! c = Some sk →
  step st (Message c (on_room_join roomId playerName (Some "emulator")))
  = Some (st', out) →
  assigned_slot out = Some s →
  ∃ r', JsMap.get (normalize_roomId roomId) (rooms st') = Some r'
        ∧ emulatorSocket r' = Some c.
Proof.
  intros Hsk Hstep Hs. apply (step_room_join _ _ sk) in Hstep; [|done].
  pose proof (room_join_assigned_Some _ _ _ _ _ _ _ _ _ Hstep Hs) as Ha.
  rewrite (room_join_succeeds _ _ _ _ _ _ s Ha) in Hstep. cbv zeta in Hstep.
  rewrite !(bool_decide_eq_true_2 (Some "emulator" = Some "emulator"))
    in Hstep by done.
  injection Hstep as <- <-. cbn [rooms]. eexists. by rewrite get_set_eq.
Qed.

Lemma step_joypad_input st c sk p :
  sockets st !! c = Some sk →
  step st (Message c (on_joypad_input p)) = Some (joypad_input st c sk p).
Proof. intros Hsk. simpl. by rewrite Hsk. Qed.

(** X9. After a socket has joined a room in the role ['emulator'], the
    input of any socket that resolves to that room is addressed to the
    joiner, whichever socket was the emulator socket or the host before:
    the emulator that joined last is the target. *)
Theorem last_emulator_gets_input st c sk roomId playerName st' out s
    c2 sk2 p s2 :
  sockets st !! c = Some sk →
  c ≠ "" →
  step st (Message c (on_room_join roomId playerName (Some "emulator")))
  = Some (st', out) →
  assigned_slot out = Some s →
  sockets st' !! c2 = Some sk2 →
  input_roomId sk2 p = normalize_roomId roomId →
  input_slot sk2 p = Some s2 →
  step st' (Message c2 (on_joypad_input p))
  = Some (st',
          [Emit (to_room c)
             (joypad_state s2 (jp_buttons p mod 2 ^ 32)
                (match jp_axes p with Some a => a | None => Axes 0 0 end))]).
Proof.
  intros Hsk Hc Hstep Hs Hsk2 Hrid Hs2.
  destruct (emulator_join_owner st c sk roomId playerName st' out s
              Hsk Hstep Hs) as (r' & Hg & He).
  rewrite (step_joypad_input _ _ sk2) by done. f_equal.
  unfold joypad_input. rewrite Hs2, Hrid.
  rewrite decide_False by apply normalize_roomId_nonempty.
  rewrite Hg, truthy_or, He. unfold Js.truthy at 1.
  rewrite decide_False by done. done.
Qed.

Lemma last_emulator_gets_input_witness :
  step (after second_emulator)
    (Message "p2" (on_joypad_input (controller_tick 257)))
  = Some (after second_emulator,
          [Emit (to_room "e2")
             (joypad_state 2 (jp_buttons (controller_tick 257) mod 2 ^ 32)
                (match jp_axes (controller_tick 257) with
                 | Some a => a
                 | None => Axes 0 0
                 end))]).
Proof.
  refine (last_emulator_gets_input
            (after (owner_and_controller ++ [Connect "e2"])) "e2" new_socket
            (Some "r1") None (after second_emulator)
            (default []
               (snd <$> step (after (owner_and_controller ++ [Connect "e2"]))
                          (joins "e2" "r1" "emulator")))
            3 "p2"
            (Socket (SocketData (Some "r1") (Some 2) (Some false)) {["r1"]})
            (controller_tick 257) 2 _ _ _ _ _ _ _).
  - vm_compute. reflexivity.
  - discriminate.
  - vm_compute. reflexivity.
  - vm_compute. reflexivity.
  - vm_compute. reflexivity.
  - vm_compute. reflexivity.
  - vm_compute. reflexivity.
Defined.

Lemma step_disconnect st c sk st' out :
  sockets st !! c = Some sk →
  step st (Disconnect c) = Some (st', out) →
  disconnect (State (rooms st) (delete c (sockets st))) c sk = (st', out).
Proof. intros Hsk. simpl. rewrite Hsk. by intros [= ->]. Qed.

(** X10. When the emulator socket of its room disconnects, the first
    emission is [emulator:left] to the room, which the leaving socket does
    not get. If players remain, the room is left without emulator socket
    and the input of any socket that resolves to that room is from then on
    addressed to the room's host. *)
Theorem emulator_departure st c sk roomId r st' out :
  sockets st !! c = Some sk →
  Js.truthy (d_roomId (data sk)) = Some roomId →
  JsMap.get roomId (rooms st) = Some r →
  emulatorSocket r = Some c →
  step st (Disconnect c) = Some (st', out) →
  head out = Some (Emit (to_room roomId) emulator_left)
  ∧ c ∉ recipients st' (to_room roomId)
  ∧ (JsMap.delete c (players r) ≠ [] →
     ∃ r', JsMap.get roomId (rooms st') = Some r'
           ∧ emulatorSocket r' = None
           ∧ ∀ c2 sk2 p s2,
               sockets st' !! c2 = Some sk2 →
               input_roomId sk2 p = roomId →
               input_slot sk2 p = Some s2 →
               step st' (Message c2 (on_joypad_input p))
               = Some (st',
                       match Js.truthy (host r') with
                       | Some h =>
                           [Emit (to_room h)
                              (joypad_state s2 (jp_buttons p mod 2 ^ 32)
                                 (match jp_axes p with
                                  | Some a => a
                                  | None => Axes 0 0
                                  end))]
                       | None => []
                       end)).
Proof.
  intros Hsk Hd Hg He Hstep. apply (step_disconnect _ _ sk) in Hstep; [|done].
  assert (roomId ≠ "") as Hrid.
  { unfold Js.truthy in Hd. destruct (d_roomId (data sk)) as [x|]; [|done].
    case_decide; [done|]. by injection Hd as <-. }
  assert (sockets st' = delete c (sockets st)) as Hsocks.
  { pose proof (disconnect_sockets
                  (State (rooms st) (delete c (sockets st))) c sk) as H.
    by rewrite Hstep in H. }
  unfold disconnect in Hstep. cbn [rooms] in Hstep. rewrite Hd, Hg in Hstep.
  rewrite !(bool_decide_eq_true_2 (emulatorSocket r = Some c)) in Hstep
    by done.
  split_and!.
  - destruct (decide (JsMap.size (JsMap.delete c (players r)) = 0%nat));
      by injection Hstep as <- <-.
  - simpl. rewrite elem_of_members, Hsocks. intros (skx & Hx & _).
    by rewrite lookup_delete_eq in Hx.
  - intros Hne. rewrite decide_False in Hstep by by rewrite size_0_nil.
    injection Hstep as <- <-. cbn [rooms]. eexists.
    split; [apply get_set_eq|]. split; [done|].
    intros c2 sk2 p s2 Hsk2 Hroom Hs2.
    rewrite (step_joypad_input _ _ sk2) by done. f_equal.
    unfold joypad_input. cbn [rooms]. rewrite Hs2, Hroom.
    rewrite decide_False by done. rewrite get_set_eq, truthy_or.
    cbn [emulatorSocket host]. change (Js.truthy None) with (@None string).
    cbv beta iota.
    by destruct (Js.truthy (if bool_decide (host r = Some c) then _ else _)).
Qed.

Lemma emulator_departure_witness :
  head (default []
          (snd <$> step (after owner_and_controller) (Disconnect "p1")))
  = Some (Emit (to_room "r1") emulator_left).
Proof.
  refine (proj1 (emulator_departure (after owner_and_controller) "p1"
            (Socket (SocketData (Some "r1") (Some 1) (Some true)) {["r1"]})
            "r1"
            (Room [("p1", PlayerInfo 1 "Player 1" "emulator");
                   ("p2", PlayerInfo 2 "Player 2" "controller")]
               (Some "p1") (Some "p1") None)
            (after (owner_and_controller ++ [Disconnect "p1"])) _ _ _ _ _ _)).
  - vm_compute. reflexivity.
  - vm_compute. reflexivity.
  - vm_compute. reflexivity.
  - reflexivity.
  - vm_compute. reflexivity.
Defined.

(** ** Messages of a socket that is in a room *)

Lemma step_message st c sk m :
  sockets st !! c = Some sk →
  step st (Message c m) = Some (handle st c sk m).
Proof. intros Hsk. simpl. by rewrite Hsk. Qed.

Lemma truthy_Some s : s ≠ "" → Js.truthy (Some s) = Some s.
Proof. intros Hs. unfold Js.truthy. by rewrite decide_False. Qed.

(** X11. In a reachable state a chat message of a socket that is in a room
    goes to that room, the sender included, under the name and the slot the
    registry holds for the sender, with the text cut to its first 200
    characters (a text of at most 200 characters is sent as it is); the
    state is unchanged. *)
Theorem chat_attribution st c sk roomId text :
  reachable st →
  sockets st !! c = Some sk →
  d_roomId (data sk) = Some roomId →
  ∃ r p,
    JsMap.get roomId (rooms st) = Some r
    ∧ JsMap.get c (players r) = Some p
    ∧ step st (Message c (on_chat_msg text))
      = Some (st,
              [Emit (to_room roomId)
                 (chat_msg (name p) (Some (slot p))
                    (Js.slice0 200 (default "undefined" text)))])
    ∧ c ∈ recipients st (to_room roomId)
    ∧ (String.length (Js.slice0 200 (default "undefined" text)) ≤ 200)%nat
    ∧ (∀ s, text = Some s → (String.length s ≤ 200)%nat →
            Js.slice0 200 (default "undefined" text) = s).
Proof.
  intros Hr Hsk Hd.
  destruct (reachable_tracked_inv st Hr c sk roomId Hsk Hd)
    as (Hne & Hj & r & p & Hg & Hp & Hs).
  exists r, p. split_and!; [done | done | | | |].
  - rewrite (step_message _ _ sk) by done. simpl. unfold chat, data_room.
    by rewrite Hd, Hg, Hp, Hs.
  - simpl. apply elem_of_members. exists sk. auto.
  - rewrite slice0_length. lia.
  - intros s -> Hlen. by apply slice0_short.
Qed.

Lemma chat_attribution_witness :
  ∃ r p,
    JsMap.get "r1" (rooms (after owner_and_controller)) = Some r
    ∧ JsMap.get "p2" (players r) = Some p
    ∧ step (after owner_and_controller)
        (Message "p2" (on_chat_msg (Some "hello")))
      = Some (after owner_and_controller,
              [Emit (to_room "r1")
                 (chat_msg (name p) (Some (slot p))
                    (Js.slice0 200 (default "undefined" (Some "hello"))))])
    ∧ "p2" ∈ recipients (after owner_and_controller) (to_room "r1")
    ∧ (String.length (Js.slice0 200 (default "undefined" (Some "hello")))
       ≤ 200)%nat
    ∧ (∀ s, Some "hello" = Some s → (String.length s ≤ 200)%nat →
            Js.slice0 200 (default "undefined" (Some "hello")) = s).
Proof.
  refine (chat_attribution (after owner_and_controller) "p2"
            (Socket (SocketData (Some "r1") (Some 2) (Some false)) {["r1"]})
            "r1" (Some "hello") _ _ _).
  - apply owner_and_controller_reachable.
  - vm_compute. reflexivity.
  - reflexivity.
Defined.

(** X12. In a reachable state a frame, a save state or the game-started
    notice of a socket that is in a room is passed on with its payload
    unchanged with [socket.to(roomId)], and the state is unchanged. The
    sender is never a recipient; the recipients are the other connected
    sockets in the Socket.IO room of that name that did not join a
    Socket.IO room named by the sender's id. So every other connected
    socket that is in that room and did not join a room named by the
    sender's id is a recipient, and a socket that did is not. *)
Theorem room_relay st c sk roomId ev m :
  reachable st →
  sockets st !! c = Some sk →
  d_roomId (data sk) = Some roomId →
  (∃ frameData, ev = on_emu_frame frameData ∧ m = emu_frame frameData)
  ∨ (∃ d, ev = on_emu_savestate d ∧ m = emu_savestate d)
  ∨ (ev = on_emulator_game_started ∧ m = emulator_game_started) →
  step st (Message c ev) = Some (st, [Emit (to_others roomId c) m])
  ∧ (c ∉ recipients st (to_others roomId c))
  ∧ (∀ x, x ∈ recipients st (to_others roomId c)
          ↔ x ≠ c
            ∧ ∃ skx, sockets st !! x = Some skx
                     ∧ (x = roomId ∨ roomId ∈ joined skx)
                     ∧ c ∉ joined skx)
  ∧ (∀ x skx, x ≠ c → sockets st !! x = Some skx →
              d_roomId (data skx) = Some roomId →
              c ∉ joined skx →
              x ∈ recipients st (to_others roomId c))
  ∧ (∀ x skx, sockets st !! x = Some skx → c ∈ joined skx →
              x ∉ recipients st (to_others roomId c)).
Proof.
  intros Hr Hsk Hd Hev.
  destruct (reachable_tracked_inv st Hr c sk roomId Hsk Hd) as (Hne & _).
  assert (∀ x, x ∈ recipients st (to_others roomId c)
               ↔ x ≠ c
                 ∧ ∃ skx, sockets st !! x = Some skx
                          ∧ (x = roomId ∨ roomId ∈ joined skx)
                          ∧ c ∉ joined skx) as Hrec.
  { intros x. simpl. rewrite elem_of_difference, !elem_of_members. split.
    - intros [(skx & Hx & Hin) Hout]. split.
      + intros ->. apply Hout. exists sk. auto.
      + exists skx. split_and!; [done | done |]. intros Hc. apply Hout.
        exists skx. auto.
    - intros (Hx & skx & Hskx & Hin & Hc). split; [by exists skx|].
      intros (skx' & Hskx' & [->|Hc']); [done|]. congruence. }
  split_and!.
  - rewrite (step_message _ _ sk) by done.
    destruct Hev as [(fd & -> & ->)|[(d & -> & ->)|[-> ->]]]; simpl;
      unfold relay_to_room; by rewrite Hd, truthy_Some.
  - rewrite Hrec. tauto.
  - done.
  - intros x skx Hx Hskx Hdx Hc.
    destruct (reachable_tracked_inv st Hr x skx roomId Hskx Hdx)
      as (_ & Hj & _).
    apply Hrec. split; [done|]. exists skx. auto.
  - intros x skx Hskx Hc. rewrite Hrec. intros (_ & skx' & Hskx' & _ & Hc').
    congruence.
Qed.

Lemma room_relay_witness :
  step (after owner_and_controller) (Message "p1" (on_emu_frame "frame"))
  = Some (after owner_and_controller,
          [Emit (to_others "r1" "p1") (emu_frame "frame")])
  ∧ ("p1" ∉ recipients (after owner_and_controller) (to_others "r1" "p1"))
  ∧ (∀ x, x ∈ recipients (after owner_and_controller) (to_others "r1" "p1")
          ↔ x ≠ "p1"
            ∧ ∃ skx, sockets (after owner_and_controller) !! x = Some skx
                     ∧ (x = "r1" ∨ "r1" ∈ joined skx)
                     ∧ "p1" ∉ joined skx)
  ∧ (∀ x skx, x ≠ "p1" →
              sockets (after owner_and_controller) !! x = Some skx →
              d_roomId (data skx) = Some "r1" →
              "p1" ∉ joined skx →
              x ∈ recipients (after owner_and_controller)
                    (to_others "r1" "p1"))
  ∧ (∀ x skx, sockets (after owner_and_controller) !! x = Some skx →
              "p1" ∈ joined skx →
              x ∉ recipients (after owner_and_controller)
                    (to_others "r1" "p1")).
Proof.
  refine (room_relay (after owner_and_controller) "p1"
            (Socket (SocketData (Some "r1") (Some 1) (Some true)) {["r1"]})
            "r1" (on_emu_frame "frame") (emu_frame "frame") _ _ _ _).
  - apply owner_and_controller_reachable.
  - vm_compute. reflexivity.
  - reflexivity.
  - left. exists "frame". split; reflexivity.
Defined.

(** A socket that joined a room named by the emulator page's id and then
    the emulator page's room gets none of the frames the page relays,
    while the other controller of the room does. *)
Example relay_under_name_clash :
  step (after clash_in_same_room) (Message "s1" (on_emu_frame "frame"))
  = Some (after clash_in_same_room,
          [Emit (to_others "r1" "s1") (emu_frame "frame")])
  ∧ members (after clash_in_same_room) "r1" = {["s1"; "s2"; "s3"]}
  ∧ recipients (after clash_in_same_room) (to_others "r1" "s1") = {["s3"]}.
Proof. split_and!; vm_compute; reflexivity. Qed.

(** ** Player names *)

Lemma display_name_nonempty playerName s : display_name playerName s ≠ "".
Proof. unfold display_name. by apply or_default_nonempty. Qed.

Lemma room_join_names_inv st c sk roomId playerName rl :
  names_inv st → names_inv (room_join st c sk roomId playerName rl).1.
Proof.
  intros Hinv.
  destruct (assignSlot (getOrCreateRoom (normalize_roomId roomId) (rooms st)).2)
    as [s|] eqn:Ha; [|by rewrite room_join_fails].
  rewrite (room_join_succeeds _ _ _ _ _ _ s Ha). cbv zeta. cbn [fst].
  unfold names_inv. cbn [rooms]. apply Forall_set; [|done].
  cbn [snd players]. apply Forall_set; [apply display_name_nonempty|].
  rewrite getOrCreateRoom_room.
  destruct (JsMap.get (normalize_roomId roomId) (rooms st)) as [r|] eqn:Hg;
    cbn [default from_option]; [|by constructor].
  apply (rooms_get_ok
           (λ r, Forall (λ kp : string * playerInfo, name kp.2 ≠ "")
                   (players r)) _ _ _ Hinv Hg).
Qed.

Lemma room_setrom_names_inv st c sk rom :
  names_inv st → names_inv (room_setrom st c sk rom).1.
Proof.
  intros Hinv. destruct (room_setrom_rooms st c sk rom)
    as [->|(rid & r & Hg & Hr)]; [done|].
  unfold names_inv. rewrite Hr. apply Forall_set; [|done].
  apply (rooms_get_ok
           (λ r, Forall (λ kp : string * playerInfo, name kp.2 ≠ "")
                   (players r)) _ _ _ Hinv Hg).
Qed.

Lemma disconnect_names_inv st c sk :
  names_inv st → names_inv (disconnect st c sk).1.
Proof.
  unfold names_inv, disconnect. intros Hinv.
  destruct (Js.truthy _) as [rid|]; [|done].
  destruct (JsMap.get rid (rooms st)) as [r|] eqn:Hg; [|done].
  case_decide as Hsz; cbn [fst rooms].
  - by apply Forall_delete.
  - apply Forall_set; [|done]. cbn [snd players]. apply Forall_delete.
    apply (rooms_get_ok
             (λ r, Forall (λ kp : string * playerInfo, name kp.2 ≠ "")
                     (players r)) _ _ _ Hinv Hg).
Qed.

Lemma reachable_names_inv st : reachable st → names_inv st.
Proof.
  induction 1 as [|st ev st' out _ IH Hstep]; [by constructor|].
  destruct ev as [c|c m|c|]; simpl in Hstep.
  - destruct (sockets st !! c); [done|]. by injection Hstep as <- <-.
  - destruct (sockets st !! c) as [sk|]; [|done]. injection Hstep as Hstep.
    replace st' with (handle st c sk m).1 by by rewrite Hstep.
    destruct m as [a b d|p|fd|sd|rom|kind to payload| | |ack|text];
      try (rewrite handle_other_state; [done | done | done]).
    + by apply room_join_names_inv.
    + by apply room_setrom_names_inv.
  - destruct (sockets st !! c) as [sk|]; [|done]. injection Hstep as Hstep.
    replace st' with
      (disconnect (State (rooms st) (delete c (sockets st))) c sk).1
      by by rewrite Hstep.
    by apply disconnect_names_inv.
  - injection Hstep as Hstep. replace st' with (cleanup st).1 by by rewrite Hstep.
    unfold names_inv. rewrite cleanup_rooms. by apply sweep_Forall.
Qed.

(** X13. In a reachable state the request for a new offer of a socket that
    is in a room is answered by one [viewer:joined] to the emulator socket
    of that room, with the requester's id and the slot and the name the
    registry holds for it (never the fallback name); without an emulator
    socket nothing is sent. The state is unchanged. *)
Theorem request_offer_repeats_registry st c sk roomId :
  reachable st →
  sockets st !! c = Some sk →
  d_roomId (data sk) = Some roomId →
  ∃ r p,
    JsMap.get roomId (rooms st) = Some r
    ∧ JsMap.get c (players r) = Some p
    ∧ step st (Message c on_webrtc_request_offer)
      = Some (st,
              match Js.truthy (emulatorSocket r) with
              | Some e =>
                  [Emit (to_room e) (viewer_joined c (Some (slot p)) (name p))]
              | None => []
              end).
Proof.
  intros Hr Hsk Hd.
  destruct (reachable_tracked_inv st Hr c sk roomId Hsk Hd)
    as (Hne & Hj & r & p & Hg & Hp & Hs).
  exists r, p. split_and!; [done | done |].
  rewrite (step_message _ _ sk) by done. simpl.
  unfold webrtc_request_offer, data_room. rewrite Hd, Hg, Hp, Hs. simpl.
  rewrite or_default_truthy; [by destruct (Js.truthy (emulatorSocket r))|].
  pose proof (rooms_get_ok
                (λ r, Forall (λ kp : string * playerInfo, name kp.2 ≠ "")
                        (players r)) _ _ _ (reachable_names_inv st Hr) Hg)
    as Hn.
  rewrite Forall_forall in Hn. apply (Hn (c, p)). by apply get_elem_of.
Qed.

Lemma request_offer_repeats_registry_witness :
  ∃ r p,
    JsMap.get "r1" (rooms (after owner_and_controller)) = Some r
    ∧ JsMap.get "p2" (players r) = Some p
    ∧ step (after owner_and_controller) (Message "p2" on_webrtc_request_offer)
      = Some (after owner_and_controller,
              match Js.truthy (emulatorSocket r) with
              | Some e =>
                  [Emit (to_room e)
                     (viewer_joined "p2" (Some (slot p)) (name p))]
              | None => []
              end).
Proof.
  refine (request_offer_repeats_registry (after owner_and_controller) "p2"
            (Socket (SocketData (Some "r1") (Some 2) (Some false)) {["r1"]})
            "r1" _ _ _).
  - apply owner_and_controller_reachable.
  - vm_compute. reflexivity.
  - reflexivity.
Defined.

(** ** What a join and a disconnection leave alone *)

(** X14. A join touches one room and one socket: every other room of the
    registry, the joiner's earlier room included, and every other socket
    stay as they were, and in the room joined the ROM name and the entries
    of the other players are kept. *)
Theorem join_is_local st c sk roomId playerName rl st' out :
  sockets st !! c = Some sk →
  step st (Message c (on_room_join roomId playerName rl)) = Some (st', out) →
  (∀ k, k ≠ normalize_roomId roomId →
        JsMap.get k (rooms st') = JsMap.get k (rooms st))
  ∧ (∀ x, x ≠ c → sockets st' !! x = sockets st !! x)
  ∧ (∀ r, JsMap.get (normalize_roomId roomId) (rooms st) = Some r →
          ∃ r', JsMap.get (normalize_roomId roomId) (rooms st') = Some r'
                ∧ romName r' = romName r
                ∧ ∀ x, x ≠ c →
                       JsMap.get x (players r') = JsMap.get x (players r)).
Proof.
  intros Hsk Hstep. apply (step_room_join _ _ sk) in Hstep; [|done].
  destruct (assignSlot (getOrCreateRoom (normalize_roomId roomId) (rooms st)).2)
    as [s|] eqn:Ha.
  - rewrite (room_join_succeeds _ _ _ _ _ _ s Ha) in Hstep. cbv zeta in Hstep.
    injection Hstep as <- _. cbn [rooms sockets]. split_and!.
    + intros k Hk. by apply get_set_ne.
    + intros x Hx. by apply lookup_insert_ne.
    + intros r Hg. eexists. split; [apply get_set_eq|].
      rewrite getOrCreateRoom_room, Hg. cbn [romName players default from_option].
      split; [done|]. intros x Hx. by apply get_set_ne.
  - rewrite room_join_fails in Hstep by done. injection Hstep as <- _.
    split_and!; [done | done |]. intros r Hg. by exists r.
Qed.

Lemma join_is_local_witness :
  (∀ k, k ≠ normalize_roomId (Some "r2") →
        JsMap.get k (rooms (after (owner_and_controller
                                     ++ [joins "p2" "r2" "controller"])))
        = JsMap.get k (rooms (after owner_and_controller)))
  ∧ (∀ x, x ≠ "p2" →
          sockets (after (owner_and_controller
                            ++ [joins "p2" "r2" "controller"])) !! x
          = sockets (after owner_and_controller) !! x)
  ∧ (∀ r, JsMap.get (normalize_roomId (Some "r2"))
            (rooms (after owner_and_controller)) = Some r →
          ∃ r', JsMap.get (normalize_roomId (Some "r2"))
                  (rooms (after (owner_and_controller
                                   ++ [joins "p2" "r2" "controller"])))
                = Some r'
                ∧ romName r' = romName r
                ∧ ∀ x, x ≠ "p2" →
                       JsMap.get x (players r') = JsMap.get x (players r)).
Proof.
  refine (join_is_local (after owner_and_controller) "p2"
            (Socket (SocketData (Some "r1") (Some 2) (Some false)) {["r1"]})
            (Some "r2") None (Some "controller")
            (after (owner_and_controller ++ [joins "p2" "r2" "controller"]))
            (default []
               (snd <$> step (after owner_and_controller)
                          (joins "p2" "r2" "controller"))) _ _).
  - vm_compute. reflexivity.
  - vm_compute. reflexivity.
Defined.

(** X15. A disconnection removes the socket from the socket table and
    touches no room but the one the socket's data name: every other room
    stays as it was, and in a room that is still registered afterwards the
    ROM name and the entries of the other players are kept. *)
Theorem disconnect_is_local st c sk st' out :
  sockets st !! c = Some sk →
  step st (Disconnect c) = Some (st', out) →
  sockets st' = delete c (sockets st)
  ∧ (∀ k, Js.truthy (d_roomId (data sk)) ≠ Some k →
          JsMap.get k (rooms st') = JsMap.get k (rooms st))
  ∧ (∀ k r r', JsMap.get k (rooms st) = Some r →
               JsMap.get k (rooms st') = Some r' →
               romName r' = romName r
               ∧ ∀ x, x ≠ c →
                      JsMap.get x (players r') = JsMap.get x (players r)).
Proof.
  intros Hsk Hstep. apply (step_disconnect _ _ sk) in Hstep; [|done].
  split.
  { pose proof (disconnect_sockets
                  (State (rooms st) (delete c (sockets st))) c sk) as H.
    by rewrite Hstep in H. }
  unfold disconnect in Hstep. cbn [rooms] in Hstep.
  destruct (Js.truthy (d_roomId (data sk))) as [rid|];
    [|injection Hstep as <- _; split; [done|]; intros k r r' Hg Hg';
      cbn [rooms] in Hg'; by simplify_eq].
  destruct (JsMap.get rid (rooms st)) as [r0|] eqn:Hg0;
    [|injection Hstep as <- _; split; [done|]; intros k r r' Hg Hg';
      cbn [rooms] in Hg'; by simplify_eq].
  case_decide as Hsz; injection Hstep as <- _; cbn [rooms].
  - split.
    + intros k Hk. apply get_delete_ne. congruence.
    + intros k r r' Hg Hg'. destruct (decide (rid = k)) as [->|Hk].
      * by rewrite get_delete_eq in Hg'.
      * rewrite get_delete_ne in Hg' by done. by simplify_eq.
  - split.
    + intros k Hk. apply get_set_ne. congruence.
    + intros k r r' Hg Hg'. destruct (decide (rid = k)) as [->|Hk].
      * rewrite get_set_eq in Hg'. simplify_eq. cbn [romName players].
        split; [done|]. intros x Hx. by apply get_delete_ne.
      * rewrite get_set_ne in Hg' by done. by simplify_eq.
Qed.

Lemma disconnect_is_local_witness :
  sockets (after first_left) = delete "p1" (sockets (after (removelast first_left)))
  ∧ (∀ k, Js.truthy (Some "r1") ≠ Some k →
          JsMap.get k (rooms (after first_left))
          = JsMap.get k (rooms (after (removelast first_left))))
  ∧ (∀ k r r', JsMap.get k (rooms (after (removelast first_left))) = Some r →
               JsMap.get k (rooms (after first_left)) = Some r' →
               romName r' = romName r
               ∧ ∀ x, x ≠ "p1" →
                      JsMap.get x (players r') = JsMap.get x (players r)).
Proof.
  refine (disconnect_is_local (after (removelast first_left)) "p1"
            (Socket (SocketData (Some "r1") (Some 1) (Some false)) {["r1"]})
            (after first_left)
            (default []
               (snd <$> step (after (removelast first_left))
                          (Disconnect "p1"))) _ _).
  - vm_compute. reflexivity.
  - vm_compute. reflexivity.
Defined.

(** * The client pages *)

(** ** 32-bit arithmetic *)

Lemma to_int32_small x : - 2 ^ 31 ≤ x < 2 ^ 31 → JsInt.to_int32 x = x.
Proof.
  unfold JsInt.to_int32, Js.to_uint32. intros Hx.
  case_decide; Z.to_euclidean_division_equations; lia.
Qed.

Lemma to_int32_range x : - 2 ^ 31 ≤ JsInt.to_int32 x < 2 ^ 31.
Proof.
  unfold JsInt.to_int32, Js.to_uint32.
  case_decide; Z.to_euclidean_division_equations; lia.
Qed.

Lemma to_int32_mod x : JsInt.to_int32 x mod 2 ^ 32 = x mod 2 ^ 32.
Proof.
  unfold JsInt.to_int32, Js.to_uint32.
  case_decide; Z.to_euclidean_division_equations; lia.
Qed.

Lemma to_int32_mod_eq x y :
  JsInt.to_int32 x = JsInt.to_int32 y ↔ x mod 2 ^ 32 = y mod 2 ^ 32.
Proof.
  split.
  - intros H. by rewrite <- (to_int32_mod x), H, to_int32_mod.
  - unfold JsInt.to_int32, Js.to_uint32. by intros ->.
Qed.

Lemma testbit_to_int32 x j :
  0 ≤ j < 32 → Z.testbit (JsInt.to_int32 x) j = Z.testbit x j.
Proof.
  intros Hj. rewrite <- (Z.mod_pow2_bits_low (JsInt.to_int32 x) 32 j) by lia.
  rewrite to_int32_mod. apply Z.mod_pow2_bits_low. lia.
Qed.

Lemma testbit_to_uint32 x j :
  0 ≤ j < 32 → Z.testbit (Js.to_uint32 x) j = Z.testbit x j.
Proof. intros Hj. apply Z.mod_pow2_bits_low. lia. Qed.

(** Two numbers are congruent modulo 2^32 when their low 32 bits agree. *)
Lemma mod_eq_bits x y :
  x mod 2 ^ 32 = y mod 2 ^ 32
  ↔ ∀ j, 0 ≤ j < 32 → Z.testbit x j = Z.testbit y j.
Proof.
  split.
  - intros H j Hj. rewrite <- (Z.mod_pow2_bits_low x 32 j) by lia.
    rewrite H. apply Z.mod_pow2_bits_low. lia.
  - intros H. apply Z.bits_inj'. intros j Hj.
    destruct (decide (j < 32)).
    + rewrite !Z.mod_pow2_bits_low by lia. apply H. lia.
    + by rewrite !Z.mod_pow2_bits_high by lia.
Qed.

Lemma mod_small_iff n x : 0 ≤ n → 0 ≤ x < 2 ^ n ↔ x mod 2 ^ n = x.
Proof.
  intros Hn. split; [apply Z.mod_small|]. intros <-.
  apply Z.mod_pos_bound. by apply Z.pow_pos_nonneg.
Qed.

Lemma lor_small n a b :
  0 ≤ n → 0 ≤ a < 2 ^ n → 0 ≤ b < 2 ^ n → 0 ≤ Z.lor a b < 2 ^ n.
Proof.
  intros Hn Ha%mod_small_iff Hb%mod_small_iff; [|done..].
  apply mod_small_iff; [done|]. rewrite <- !Z.land_ones in * by done.
  by rewrite Z.land_lor_distr_l, Ha, Hb.
Qed.

Lemma land_small n a b : 0 ≤ n → 0 ≤ a < 2 ^ n → 0 ≤ Z.land a b < 2 ^ n.
Proof.
  intros Hn Ha%mod_small_iff; [|done].
  apply mod_small_iff; [done|]. rewrite <- !Z.land_ones in * by done.
  by rewrite <- Z.land_assoc, (Z.land_comm b), Z.land_assoc, Ha.
Qed.

Lemma shl_one i : 0 ≤ i < 31 → JsInt.shl 1 i = 2 ^ i.
Proof.
  intros Hi. unfold JsInt.shl. rewrite (to_int32_small 1) by lia.
  rewrite Z.mod_small by lia. rewrite Z.shiftl_1_l.
  apply to_int32_small. split; [|apply Z.pow_lt_mono_r; lia].
  pose proof (Z.pow_nonneg 2 i). lia.
Qed.

Lemma land_pow2 x i :
  0 ≤ i → Z.land x (2 ^ i) = if Z.testbit x i then 2 ^ i else 0.
Proof.
  intros Hi. apply Z.bits_inj'. intros j Hj. rewrite Z.land_spec.
  rewrite Z.pow2_bits_eqb by done.
  destruct (Z.eqb_spec i j) as [->|Hne].
  - destruct (Z.testbit x j); simpl.
    + by rewrite Z.pow2_bits_true.
    + by rewrite Z.bits_0.
  - rewrite andb_false_r. destruct (Z.testbit x i).
    + rewrite Z.pow2_bits_false; [done|]. done.
    + by rewrite Z.bits_0.
Qed.

(** [x & (1 << i)] is zero exactly when bit [i] of [x] is clear. *)
Lemma band_shl_zero x i :
  0 ≤ i < 31 → JsInt.band x (JsInt.shl 1 i) = 0 ↔ Z.testbit x i = false.
Proof.
  intros Hi. unfold JsInt.band. rewrite shl_one by done.
  assert (0 < 2 ^ i < 2 ^ 31) as Hp.
  { split; [apply Z.pow_pos_nonneg; lia | apply Z.pow_lt_mono_r; lia]. }
  rewrite (to_int32_small (2 ^ i)) by lia.
  rewrite land_pow2, testbit_to_int32 by lia.
  destruct (Z.testbit x i).
  - rewrite to_int32_small by lia. split; [lia | done].
  - by rewrite to_int32_small.
Qed.

(** [(x >> i) & 1] is bit [i] of [x]. *)
Lemma band_sar_one x i :
  0 ≤ i < 32 → JsInt.band (JsInt.sar x i) 1 = Z.b2z (Z.testbit x i).
Proof.
  intros Hi. unfold JsInt.band. rewrite (to_int32_small 1) by lia.
  change 1 with (2 ^ 0) at 1. rewrite land_pow2 by done.
  assert (Z.testbit (JsInt.to_int32 (JsInt.sar x i)) 0 = Z.testbit x i) as ->.
  { rewrite testbit_to_int32 by lia. unfold JsInt.sar.
    rewrite Z.mod_small by lia. rewrite Z.shiftr_spec by done.
    rewrite Z.add_0_l. by apply testbit_to_int32. }
  destruct (Z.testbit x i); by rewrite to_int32_small.
Qed.

Lemma testbit_bxor a b j :
  0 ≤ j < 32 →
  Z.testbit (JsInt.bxor a b) j = xorb (Z.testbit a j) (Z.testbit b j).
Proof.
  intros Hj. unfold JsInt.bxor.
  by rewrite testbit_to_int32, Z.lxor_spec, !testbit_to_int32.
Qed.

(** [a ^ b] is zero exactly when [a] and [b] agree modulo 2^32. *)
Lemma bxor_zero a b : JsInt.bxor a b = 0 ↔ a mod 2 ^ 32 = b mod 2 ^ 32.
Proof.
  rewrite mod_eq_bits. split.
  - intros H j Hj. pose proof (testbit_bxor a b j Hj) as Hx.
    rewrite H, Z.bits_0 in Hx.
    by destruct (Z.testbit a j), (Z.testbit b j).
  - intros H. rewrite <- (to_int32_small 0) by lia.
    unfold JsInt.bxor. apply to_int32_mod_eq, mod_eq_bits. intros j Hj.
    rewrite Z.lxor_spec, !testbit_to_int32, Z.bits_0 by done.
    rewrite (H j Hj). apply xorb_nilpotent.
Qed.

(** ** The button mask of the controller page *)

(** The keys of [BTN_MAP] and their bits. *)
Lemma BTN_MAP_bit btnName bit :
  JsMap.get btnName BTN_MAP = Some bit → ∃ i, 0 ≤ i < 12 ∧ bit = 2 ^ i.
Proof.
  unfold BTN_MAP. simpl. repeat case_decide; intros [= <-];
    [exists 0 | exists 1 | exists 2 | exists 3 | exists 4 | exists 5
     | exists 6 | exists 7 | exists 8 | exists 9 | exists 10 | exists 11];
    (split; [lia | by vm_compute]).
Qed.

Lemma pow2_12 i : 0 ≤ i < 12 → 0 < 2 ^ i < 4096.
Proof.
  intros Hi. split; [apply Z.pow_pos_nonneg; lia|].
  change 4096 with (2 ^ 12). apply Z.pow_lt_mono_r; lia.
Qed.

Lemma bor_pow2 bs i :
  0 ≤ bs < 4096 → 0 ≤ i < 12 → JsInt.bor bs (2 ^ i) = Z.lor bs (2 ^ i).
Proof.
  intros Hbs Hi. pose proof (pow2_12 i Hi). unfold JsInt.bor.
  rewrite (to_int32_small bs), (to_int32_small (2 ^ i)) by lia.
  pose proof (lor_small 12 bs (2 ^ i)). apply to_int32_small. lia.
Qed.

Lemma band_bnot_pow2 bs i :
  0 ≤ bs < 4096 → 0 ≤ i < 12 →
  JsInt.band bs (JsInt.bnot (2 ^ i)) = Z.land bs (Z.lnot (2 ^ i)).
Proof.
  intros Hbs Hi. pose proof (pow2_12 i Hi). unfold JsInt.band, JsInt.bnot.
  rewrite (to_int32_small bs), (to_int32_small (2 ^ i)) by lia.
  assert (Z.lnot (2 ^ i) = - 2 ^ i - 1) as Hl by (unfold Z.lnot; lia).
  rewrite !(to_int32_small (Z.lnot (2 ^ i))) by lia.
  pose proof (land_small 12 bs (Z.lnot (2 ^ i))). apply to_int32_small. lia.
Qed.

Lemma or_button_range state btnName :
  0 ≤ state < 4096 → 0 ≤ or_button state btnName < 4096.
Proof.
  intros Hs. unfold or_button.
  destruct (JsMap.get btnName BTN_MAP) as [bit|] eqn:Hb; simpl.
  - destruct (BTN_MAP_bit _ _ Hb) as (i & Hi & ->).
    rewrite bor_pow2 by done. pose proof (pow2_12 i Hi).
    apply (lor_small 12); lia.
  - unfold JsInt.bor. rewrite (to_int32_small state), (to_int32_small 0) by lia.
    rewrite Z.lor_0_r. by rewrite to_int32_small by lia.
Qed.

Lemma press_range btnName cl :
  0 ≤ cc_buttons cl < 4096 → 0 ≤ cc_buttons (press btnName cl) < 4096.
Proof.
  intros Hs. unfold press, Js.truthy_num.
  destruct (JsMap.get btnName BTN_MAP) as [bit|] eqn:Hb; [|done].
  case_decide; [done|]. cbn [cc_buttons set_buttons].
  destruct (BTN_MAP_bit _ _ Hb) as (i & Hi & ->).
  rewrite bor_pow2 by done. pose proof (pow2_12 i Hi).
  apply (lor_small 12); lia.
Qed.

Lemma release_range btnName cl :
  0 ≤ cc_buttons cl < 4096 → 0 ≤ cc_buttons (release btnName cl) < 4096.
Proof.
  intros Hs. unfold release, Js.truthy_num.
  destruct (JsMap.get btnName BTN_MAP) as [bit|] eqn:Hb; [|done].
  case_decide; [done|]. cbn [cc_buttons set_buttons].
  destruct (BTN_MAP_bit _ _ Hb) as (i & Hi & ->).
  rewrite band_bnot_pow2 by done. apply (land_small 12); lia.
Qed.

Lemma foldl_range {A} (f : Z → A → Z) z l :
  (∀ s x, 0 ≤ s < 4096 → 0 ≤ f s x < 4096) →
  0 ≤ z < 4096 → 0 ≤ foldl f z l < 4096.
Proof.
  intros Hf. revert z. induction l as [|x l IH]; intros z Hz; simpl; [done|].
  by apply IH, Hf.
Qed.

Lemma poll_buttons_range pressed : 0 ≤ poll_buttons pressed < 4096.
Proof.
  unfold poll_buttons. apply foldl_range; [|lia].
  intros s [g p] Hs. simpl. destruct g as [nm|]; [|done].
  destruct p; [|done]. by apply or_button_range.
Qed.

Lemma poll_axes_range state axes :
  0 ≤ state < 4096 → 0 ≤ poll_axes state axes < 4096.
Proof.
  intros Hs. unfold poll_axes. destruct axes as [|x [|y axes]]; [done..|].
  repeat (destruct (QArith_base.Qlt_le_dec _ _));
    repeat apply or_button_range; done.
Qed.

Lemma poll_range pad cl :
  0 ≤ cc_buttons cl < 4096 → 0 ≤ cc_buttons (poll pad cl) < 4096.
Proof.
  intros Hs. unfold poll. destruct pad as [pad|]; [|done].
  destruct (pad_connected pad); [|done]. cbn [cc_buttons set_buttons].
  apply poll_axes_range, poll_buttons_range.
Qed.

Lemma pad_step_range cl e :
  0 ≤ cc_buttons cl < 4096 → 0 ≤ cc_buttons (pad_step cl e) < 4096.
Proof.
  destruct e; simpl; [apply press_range | apply release_range | apply poll_range].
Qed.

Lemma pad_step_fields cl e :
  cc_roomId (pad_step cl e) = cc_roomId cl
  ∧ cc_slot (pad_step cl e) = cc_slot cl
  ∧ cc_connected (pad_step cl e) = cc_connected cl.
Proof.
  destruct e as [nm|nm|pad]; simpl; unfold press, release, poll;
    repeat case_match; done.
Qed.

(** X16. Pressing a button of the controller page sets its bit of the mask
    and releasing it clears that bit; the other bits stay as they are, the
    mask stays below 4096, and a name that is no button changes nothing. *)
Theorem press_release_bits btnName cl :
  0 ≤ cc_buttons cl < 4096 →
  match JsMap.get btnName BTN_MAP with
  | Some bit =>
      ∃ i, 0 ≤ i < 12 ∧ bit = 2 ^ i
           ∧ (0 ≤ cc_buttons (press btnName cl) < 4096)
           ∧ (0 ≤ cc_buttons (release btnName cl) < 4096)
           ∧ (∀ j, 0 ≤ j →
                Z.testbit (cc_buttons (press btnName cl)) j
                = Z.testbit (cc_buttons cl) j || (j =? i))
           ∧ (∀ j, 0 ≤ j →
                Z.testbit (cc_buttons (release btnName cl)) j
                = Z.testbit (cc_buttons cl) j && negb (j =? i))
  | None => press btnName cl = cl ∧ release btnName cl = cl
  end.
Proof.
  intros Hs. destruct (JsMap.get btnName BTN_MAP) as [bit|] eqn:Hb.
  - destruct (BTN_MAP_bit _ _ Hb) as (i & Hi & ->). exists i.
    pose proof (pow2_12 i Hi) as Hp.
    split; [lia|]. split; [done|]. split; [by apply press_range|].
    split; [by apply release_range|]. split.
    + intros j Hj. unfold press, Js.truthy_num. rewrite Hb.
      rewrite decide_False by lia. cbn [cc_buttons set_buttons].
      rewrite bor_pow2 by done. rewrite Z.lor_spec.
      rewrite Z.pow2_bits_eqb by lia. by rewrite (Z.eqb_sym i j).
    + intros j Hj. unfold release, Js.truthy_num. rewrite Hb.
      rewrite decide_False by lia. cbn [cc_buttons set_buttons].
      rewrite band_bnot_pow2 by done. rewrite Z.land_spec, Z.lnot_spec by done.
      rewrite Z.pow2_bits_eqb by lia. by rewrite (Z.eqb_sym i j).
  - unfold press, release. by rewrite Hb.
Qed.

Lemma press_release_bits_witness :
  match JsMap.get "A" BTN_MAP with
  | Some bit =>
      ∃ i, 0 ≤ i < 12 ∧ bit = 2 ^ i
           ∧ (0 ≤ cc_buttons (press "A" (ControllerClient "r1" (Some 2) 16 true))
              < 4096)
           ∧ (0 ≤ cc_buttons
                    (release "A" (ControllerClient "r1" (Some 2) 16 true))
              < 4096)
           ∧ (∀ j, 0 ≤ j →
                Z.testbit
                  (cc_buttons
                     (press "A" (ControllerClient "r1" (Some 2) 16 true))) j
                = Z.testbit
                    (cc_buttons (ControllerClient "r1" (Some 2) 16 true)) j
                  || (j =? i))
           ∧ (∀ j, 0 ≤ j →
                Z.testbit
                  (cc_buttons
                     (release "A" (ControllerClient "r1" (Some 2) 16 true))) j
                = Z.testbit
                    (cc_buttons (ControllerClient "r1" (Some 2) 16 true)) j
                  && negb (j =? i))
  | None =>
      press "A" (ControllerClient "r1" (Some 2) 16 true)
      = ControllerClient "r1" (Some 2) 16 true
      ∧ release "A" (ControllerClient "r1" (Some 2) 16 true)
        = ControllerClient "r1" (Some 2) 16 true
  end.
Proof.
  refine (press_release_bits "A" (ControllerClient "r1" (Some 2) 16 true) _).
  simpl. lia.
Defined.

(** X17. Whatever is pressed, released or polled on the controller page,
    starting from a mask below 4096 (the constructor's 0), the mask stays
    below 4096; so each tick sends the mask itself, with the page's room id
    and slot and without axes, and whatever the server forwards for that
    tick is [joypad:state] with that mask and the axes (0, 0). *)
Theorem controller_mask_on_the_wire cl0 evs p :
  0 ≤ cc_buttons cl0 < 4096 →
  send_tick (foldl pad_step cl0 evs) = Some p →
  (0 ≤ cc_buttons (foldl pad_step cl0 evs) < 4096)
  ∧ p = JoypadPayload (Some (cc_roomId cl0)) (cc_slot cl0)
          (cc_buttons (foldl pad_step cl0 evs)) None
  ∧ (∀ st c sk e,
       e ∈ (joypad_input st c sk p).2 →
       ∃ t s, e = Emit (to_room t)
                    (joypad_state s (cc_buttons (foldl pad_step cl0 evs))
                       (Axes 0 0))).
Proof.
  intros H0 Hp.
  assert (0 ≤ cc_buttons (foldl pad_step cl0 evs) < 4096
          ∧ cc_roomId (foldl pad_step cl0 evs) = cc_roomId cl0
          ∧ cc_slot (foldl pad_step cl0 evs) = cc_slot cl0) as (Hr & Hid & Hsl).
  { clear Hp. revert cl0 H0. induction evs as [|e evs IH]; intros cl0 H0;
      simpl; [done|].
    destruct (IH (pad_step cl0 e) (pad_step_range _ _ H0)) as (? & -> & ->).
    destruct (pad_step_fields cl0 e) as (? & ? & ?). done. }
  unfold send_tick in Hp. destruct (cc_connected _); [|done].
  injection Hp as <-. rewrite Hid, Hsl.
  assert (Js.to_uint32 (cc_buttons (foldl pad_step cl0 evs))
          = cc_buttons (foldl pad_step cl0 evs)) as Hu.
  { unfold Js.to_uint32. apply Z.mod_small. lia. }
  rewrite Hu. split; [lia|]. split; [done|].
  intros st c sk e He.
  destruct (joypad_input_spec st c sk
              (JoypadPayload (Some (cc_roomId cl0)) (cc_slot cl0)
                 (cc_buttons (foldl pad_step cl0 evs)) None))
    as [Hn|(r & t & s & _ & _ & _ & _ & Hj)].
  - rewrite Hn in He. by apply elem_of_nil in He.
  - rewrite Hj in He. apply list_elem_of_singleton in He as ->.
    exists t, s. cbn [jp_buttons jp_axes default from_option]. by rewrite Hu.
Qed.

Lemma controller_mask_on_the_wire_witness :
  (0 ≤ cc_buttons
         (foldl pad_step (ControllerClient "r1" (Some 2) 0 true)
            [Press "A"; Press "UP"; Release "A"; Poll None]) < 4096)
  ∧ JoypadPayload (Some "r1") (Some 2) 16 None
    = JoypadPayload
        (Some (cc_roomId (ControllerClient "r1" (Some 2) 0 true)))
        (cc_slot (ControllerClient "r1" (Some 2) 0 true))
        (cc_buttons
           (foldl pad_step (ControllerClient "r1" (Some 2) 0 true)
              [Press "A"; Press "UP"; Release "A"; Poll None])) None
  ∧ (∀ st c sk e,
       e ∈ (joypad_input st c sk
              (JoypadPayload (Some "r1") (Some 2) 16 None)).2 →
       ∃ t s, e = Emit (to_room t)
                    (joypad_state s
                       (cc_buttons
                          (foldl pad_step
                             (ControllerClient "r1" (Some 2) 0 true)
                             [Press "A"; Press "UP"; Release "A"; Poll None]))
                       (Axes 0 0))).
Proof.
  refine (controller_mask_on_the_wire (ControllerClient "r1" (Some 2) 0 true)
            [Press "A"; Press "UP"; Release "A"; Poll None]
            (JoypadPayload (Some "r1") (Some 2) 16 None) _ _).
  - simpl. lia.
  - vm_compute. reflexivity.
Defined.

(** ** Input injection on the emulator page *)

Lemma default_truthy_num o : default 0 (Js.truthy_num o) = default 0 o.
Proof. destruct o as [n|]; [|done]. simpl. by case_decide. Qed.

Lemma omap_fmap_filter {A B} (f : A → option B) (g : A → B) (P : A → Prop)
    `{!∀ x, Decision (P x)} (l : list A) :
  (∀ x, x ∈ l → f x = if decide (P x) then Some (g x) else None) →
  omap f l = g <$> filter P l.
Proof.
  induction l as [|x l IH]; intros Hf; [done|].
  rewrite filter_cons. cbn [omap list_omap]. rewrite (Hf x) by left.
  rewrite IH by (intros y Hy; apply Hf; by right).
  by destruct (decide (P x)).
Qed.

Lemma fmap_filter_ext {A B} (g g' : A → B) (P Q : A → Prop)
    `{!∀ x, Decision (P x)} `{!∀ x, Decision (Q x)} (l : list A) :
  (∀ x, x ∈ l → P x ↔ Q x) → (∀ x, x ∈ l → Q x → g x = g' x) →
  g <$> filter P l = g' <$> filter Q l.
Proof.
  induction l as [|x l IH]; intros HPQ Hg; [done|].
  rewrite !filter_cons.
  pose proof (IH (λ y Hy, HPQ y (list_elem_of_further _ _ _ Hy))
                 (λ y Hy, Hg y (list_elem_of_further _ _ _ Hy))) as IH'.
  pose proof (HPQ x (list_elem_of_here _ _)) as Hx.
  destruct (decide (P x)), (decide (Q x)); [|tauto|tauto|done].
  rewrite !fmap_cons. f_equal; [|done]. apply Hg; [left | done].
Qed.

Lemma filter_none {A} (P : A → Prop) `{!∀ x, Decision (P x)} (l : list A) :
  (∀ x, x ∈ l → ¬ P x) → filter P l = [].
Proof.
  induction l as [|x l IH]; intros Hn; [done|]. rewrite filter_cons.
  rewrite decide_False by (apply Hn; left). apply IH. intros y Hy.
  apply Hn. by right.
Qed.

Lemma set_prevState_id sc : set_prevState sc (sc_prevState sc) = sc.
Proof. by destruct sc. Qed.

Lemma typed_get_valid l slot :
  length l = 5%nat → 0 ≤ slot < 5 →
  ∃ prev, l !! Z.to_nat slot = Some prev ∧ typed_get l slot = Some prev.
Proof.
  intros Hl Hs. destruct (lookup_lt_is_Some_2 l (Z.to_nat slot)) as [prev Hp];
    [lia|].
  exists prev. split; [done|]. unfold typed_get. by rewrite decide_True by lia.
Qed.

Lemma typed_get_invalid l slot :
  length l = 5%nat → ¬ (0 ≤ slot < 5) →
  typed_get l slot = None ∧ ∀ v, typed_set l slot v = l.
Proof.
  intros Hl Hs. unfold typed_get, typed_set. case_decide; [|done].
  split; [apply lookup_ge_None_2; lia|]. intros v. apply list_insert_ge. lia.
Qed.

(** What [_injectInput] does once the emulator is ready, in terms of the
    bits of the masks. *)
Lemma injectInput_ready sc slot buttons :
  sc_ejsReady sc = true →
  _injectInput true sc slot buttons
  = (if decide (default 0 (typed_get (sc_prevState sc) slot) mod 2 ^ 32
                = buttons mod 2 ^ 32)
     then sc
     else set_prevState sc (typed_set (sc_prevState sc) slot buttons),
     (λ i, SimulateInput (slot - 1) i (Z.b2z (Z.testbit buttons i)))
     <$> filter (λ i, Z.testbit (default 0 (typed_get (sc_prevState sc) slot)) i
                      ≠ Z.testbit buttons i)
           (seqZ 0 12)).
Proof.
  intros Hr. unfold _injectInput. rewrite default_truthy_num.
  set (prev := default 0 (typed_get (sc_prevState sc) slot)).
  case_decide as Hc.
  - apply bxor_zero in Hc. rewrite decide_True by done. f_equal.
    symmetry. rewrite filter_none; [done|].
    intros i Hi%elem_of_seqZ Hne. apply Hne.
    rewrite mod_eq_bits in Hc. apply Hc. lia.
  - rewrite decide_False by by rewrite <- bxor_zero.
    rewrite Hr. cbn [negb orb]. f_equal.
    apply omap_fmap_filter. intros i Hi%elem_of_seqZ.
    rewrite band_sar_one by lia.
    destruct (decide (JsInt.band _ _ = 0)) as [Hz|Hz].
    + apply band_shl_zero in Hz; [|lia]. rewrite testbit_bxor in Hz by lia.
      rewrite decide_False; [done|]. intros Hne. apply Hne.
      by destruct (Z.testbit prev i), (Z.testbit buttons i).
    + rewrite decide_True; [done|]. intros Heq. apply Hz.
      apply band_shl_zero; [lia|]. rewrite testbit_bxor by lia.
      rewrite Heq. apply xorb_nilpotent.
Qed.

(** X18. Once the emulator is ready, a [joypad:state] for a slot of the
    array other than the page's own makes one [simulateInput] call for each
    of the twelve buttons whose bit differs between the mask stored for
    that slot and the new mask, in increasing order of the button index,
    for player [slot - 1] and with the new bit as value; the new mask is
    then the stored one. *)
Theorem joypad_state_injection sc slot buttons :
  prevState_ok sc →
  sc_ejsReady sc = true →
  Some slot ≠ sc_slot sc →
  0 ≤ slot < 5 →
  ∃ prev,
    sc_prevState sc !! Z.to_nat slot = Some prev
    ∧ on_joypad_state true sc slot buttons
      = (set_prevState sc
           (<[Z.to_nat slot := Js.to_uint32 buttons]> (sc_prevState sc)),
         (λ i, SimulateInput (slot - 1) i (Z.b2z (Z.testbit buttons i)))
         <$> filter (λ i, Z.testbit prev i ≠ Z.testbit buttons i)
               (seqZ 0 12)).
Proof.
  intros [Hl Hv] Hr Hown Hs.
  destruct (typed_get_valid _ _ Hl Hs) as (prev & Hp & Hg).
  exists prev. split; [done|]. unfold on_joypad_state.
  rewrite decide_False by done. rewrite injectInput_ready by done.
  rewrite Hg. cbn [default from_option]. f_equal.
  unfold typed_set. rewrite (decide_True (P := 0 ≤ slot)) by lia.
  case_decide as Hc; [|done].
  rewrite list_insert_id; [by rewrite set_prevState_id|].
  rewrite Hp. f_equal. unfold Js.to_uint32. rewrite <- Hc.
  symmetry. apply Z.mod_small. apply (Forall_lookup_1 _ _ _ _ Hv Hp).
Qed.

Lemma joypad_state_injection_witness :
  ∃ prev,
    sc_prevState (SocketController (Some 1) true [0; 0; 5; 0; 0])
      !! Z.to_nat 2 = Some prev
    ∧ on_joypad_state true (SocketController (Some 1) true [0; 0; 5; 0; 0])
        2 6
      = (set_prevState (SocketController (Some 1) true [0; 0; 5; 0; 0])
           (<[Z.to_nat 2 := Js.to_uint32 6]>
              (sc_prevState (SocketController (Some 1) true [0; 0; 5; 0; 0]))),
         (λ i, SimulateInput (2 - 1) i (Z.b2z (Z.testbit 6 i)))
         <$> filter (λ i, Z.testbit prev i ≠ Z.testbit 6 i) (seqZ 0 12)).
Proof.
  refine (joypad_state_injection
            (SocketController (Some 1) true [0; 0; 5; 0; 0]) 2 6 _ _ _ _).
  - split; [reflexivity|]. repeat constructor; lia.
  - reflexivity.
  - discriminate.
  - lia.
Defined.

Lemma typed_set_ok l slot v :
  length l = 5%nat ∧ Forall (λ v, 0 ≤ v < 2 ^ 32) l →
  length (typed_set l slot v) = 5%nat
  ∧ Forall (λ v, 0 ≤ v < 2 ^ 32) (typed_set l slot v).
Proof.
  intros [Hl Hv]. unfold typed_set. case_decide; [|done].
  rewrite length_insert. split; [done|]. apply Forall_insert; [done|].
  unfold Js.to_uint32. apply Z.mod_pos_bound. lia.
Qed.

Lemma typed_get_set l slot v :
  length l = 5%nat → 0 ≤ slot < 5 →
  typed_get (typed_set l slot v) slot = Some (Js.to_uint32 v).
Proof.
  intros Hl Hs. unfold typed_get, typed_set. rewrite !decide_True by lia.
  apply list_lookup_insert_eq. lia.
Qed.

(** The state [_injectInput] leaves: the one it found, or that with the
    new mask stored. *)
Lemma injectInput_state ejs sc slot buttons :
  (_injectInput ejs sc slot buttons).1 = sc
  ∧ JsInt.bxor (default 0 (typed_get (sc_prevState sc) slot)) buttons = 0
  ∨ (_injectInput ejs sc slot buttons).1
    = set_prevState sc (typed_set (sc_prevState sc) slot buttons).
Proof.
  unfold _injectInput. rewrite default_truthy_num.
  case_decide; [by left|]. right. by destruct (negb ejs || negb _).
Qed.

(** X19. A [joypad:state] that repeats the mask just handled for a slot of
    the array makes no [simulateInput] call and leaves the page as it is,
    whether the emulator is ready or not; the array keeps its five 32-bit
    values. *)
Theorem unchanged_mask_is_silent ejs sc slot buttons :
  prevState_ok sc →
  0 ≤ slot < 5 →
  prevState_ok (on_joypad_state ejs sc slot buttons).1
  ∧ on_joypad_state ejs (on_joypad_state ejs sc slot buttons).1 slot buttons
    = ((on_joypad_state ejs sc slot buttons).1, []).
Proof.
  intros Hok Hs.
  assert ((on_joypad_state ejs sc slot buttons).1 = sc
          ∧ on_joypad_state ejs sc slot buttons = (sc, [])
          ∨ Some slot ≠ sc_slot sc
            ∧ (on_joypad_state ejs sc slot buttons).1
              = set_prevState sc (typed_set (sc_prevState sc) slot buttons))
    as [[-> Hsame]|[Hown ->]].
  { unfold on_joypad_state. case_decide as Hown; [by left|].
    destruct (injectInput_state ejs sc slot buttons) as [[Hst Hc]|Hst];
      [left | by right].
    split; [done|]. unfold _injectInput. rewrite default_truthy_num.
    by rewrite decide_True. }
  - done.
  - split; [by apply typed_set_ok|]. unfold on_joypad_state.
    cbn [set_prevState sc_slot]. rewrite decide_False by done.
    unfold _injectInput. rewrite default_truthy_num.
    cbn [set_prevState sc_prevState].
    rewrite typed_get_set by (done || apply Hok). cbn [default from_option].
    rewrite decide_True; [done|]. apply bxor_zero.
    unfold Js.to_uint32. apply Z.mod_mod. lia.
Qed.

Lemma unchanged_mask_is_silent_witness :
  prevState_ok
    (on_joypad_state true (SocketController (Some 1) true [0; 0; 5; 0; 0])
       2 6).1
  ∧ on_joypad_state true
      (on_joypad_state true (SocketController (Some 1) true [0; 0; 5; 0; 0])
         2 6).1 2 6
    = ((on_joypad_state true (SocketController (Some 1) true [0; 0; 5; 0; 0])
          2 6).1, []).
Proof.
  refine (unchanged_mask_is_silent true
            (SocketController (Some 1) true [0; 0; 5; 0; 0]) 2 6 _ _).
  - split; [reflexivity|]. repeat constructor; lia.
  - lia.
Defined.

Lemma presses_of_changes (player prev buttons : Z) :
  prev mod 2 ^ 32 = 0 →
  (λ i, SimulateInput player i (Z.b2z (Z.testbit buttons i)))
  <$> filter (λ i, Z.testbit prev i ≠ Z.testbit buttons i) (seqZ 0 12)
  = (λ i, SimulateInput player i 1)
    <$> filter (λ i, Z.testbit buttons i = true) (seqZ 0 12).
Proof.
  intros Hp. apply fmap_filter_ext.
  - intros i Hi%elem_of_seqZ.
    assert (Z.testbit prev i = false) as ->.
    { rewrite <- (Z.mod_pow2_bits_low prev 32 i) by lia.
      rewrite Hp. apply Z.bits_0. }
    by destruct (Z.testbit buttons i).
  - by intros i _ ->.
Qed.

(** X20. Once the emulator is ready, a [joypad:state] for a slot outside
    the array (below 0 or above 4) is compared with the mask 0 every time:
    it makes one [simulateInput] call with value 1 for each of the twelve
    buttons whose bit is set, never a call with value 0, and nothing is
    stored. *)
Theorem slot_outside_array_only_presses sc slot buttons :
  prevState_ok sc →
  sc_ejsReady sc = true →
  Some slot ≠ sc_slot sc →
  ¬ (0 ≤ slot < 5) →
  on_joypad_state true sc slot buttons
  = (sc,
     (λ i, SimulateInput (slot - 1) i 1)
     <$> filter (λ i, Z.testbit buttons i = true) (seqZ 0 12)).
Proof.
  intros [Hl Hv] Hr Hown Hs. unfold on_joypad_state.
  rewrite decide_False by done. rewrite injectInput_ready by done.
  destruct (typed_get_invalid _ _ Hl Hs) as [-> Hset].
  cbn [default from_option]. rewrite Hset, set_prevState_id.
  rewrite presses_of_changes by done. by case_decide.
Qed.

Lemma slot_outside_array_only_presses_witness :
  on_joypad_state true (SocketController (Some 1) true [0; 0; 5; 0; 0]) 7 6
  = (SocketController (Some 1) true [0; 0; 5; 0; 0],
     (λ i, SimulateInput (7 - 1) i 1)
     <$> filter (λ i, Z.testbit 6 i = true) (seqZ 0 12)).
Proof.
  refine (slot_outside_array_only_presses
            (SocketController (Some 1) true [0; 0; 5; 0; 0]) 7 6 _ _ _ _).
  - split; [reflexivity|]. repeat constructor; lia.
  - reflexivity.
  - discriminate.
  - lia.
Defined.

Lemma replay_slot_spec ejs sc out slot :
  prevState_ok sc →
  sc_ejsReady sc = true →
  0 ≤ slot < 5 →
  replay_slot ejs (sc, out) slot
  = (sc,
     out ++ if ejs
            then (λ i, SimulateInput (slot - 1) i 1)
                 <$> filter (λ i, Z.testbit
                                    (default 0
                                       (sc_prevState sc !! Z.to_nat slot)) i
                                  = true)
                       (seqZ 0 12)
            else []).
Proof.
  intros [Hl Hv] Hr Hs. unfold replay_slot. cbn [fst snd].
  destruct (typed_get_valid _ _ Hl Hs) as (prev & Hp & Hg).
  rewrite Hg, Hp. cbn [default from_option].
  pose proof (Forall_lookup_1 _ _ _ _ Hv Hp) as Hprev. cbv beta in Hprev.
  unfold Js.truthy_num. case_decide as Hz.
  { subst prev. f_equal. destruct ejs; [|by rewrite app_nil_r].
    rewrite filter_none; [by rewrite app_nil_r|].
    intros i _. by rewrite Z.bits_0. }
  assert (set_prevState
            (set_prevState sc (typed_set (sc_prevState sc) slot 0))
            (typed_set (typed_set (sc_prevState sc) slot 0) slot prev)
          = sc) as Hback.
  { unfold set_prevState, typed_set. cbn [sc_slot sc_ejsReady sc_prevState].
    rewrite !decide_True by lia. rewrite list_insert_insert_eq.
    rewrite list_insert_id; [by destruct sc|].
    rewrite Hp. f_equal. unfold Js.to_uint32. by rewrite Z.mod_small. }
  destruct ejs.
  - rewrite injectInput_ready by done. cbn [set_prevState sc_prevState].
    rewrite typed_get_set by done. cbn [default from_option].
    rewrite decide_False.
    + rewrite Hback. f_equal. f_equal. by apply presses_of_changes.
    + change (Js.to_uint32 0) with 0. rewrite (Z.mod_small prev) by done.
      rewrite Z.mod_0_l by lia. lia.
  - unfold _injectInput. rewrite default_truthy_num.
    cbn [set_prevState sc_prevState sc_ejsReady].
    rewrite typed_get_set by done. cbn [default from_option].
    rewrite decide_False.
    + cbn [negb orb]. fold (set_prevState sc (typed_set (sc_prevState sc) slot 0)).
      rewrite Hback. by rewrite app_nil_r.
    + rewrite bxor_zero. change (Js.to_uint32 0) with 0.
      rewrite (Z.mod_small prev) by done. rewrite Z.mod_0_l by lia. lia.
Qed.

(** The loop of [setEmulatorReady] over slots of the array. *)
Lemma replay_slots_spec ejs sc out (l : list Z) :
  prevState_ok sc →
  sc_ejsReady sc = true →
  Forall (λ slot, 0 ≤ slot < 5) l →
  foldl (replay_slot ejs) (sc, out) l
  = (sc,
     out ++ if ejs
            then concat
                   ((λ slot,
                       (λ i, SimulateInput (slot - 1) i 1)
                       <$> filter (λ i, Z.testbit
                                          (default 0
                                             (sc_prevState sc
                                              !! Z.to_nat slot)) i
                                        = true)
                             (seqZ 0 12))
                    <$> l)
            else []).
Proof.
  intros Hok Hr Hl. revert out.
  induction Hl as [|slot l Hslot _ IH]; intros out; cbn [foldl].
  - destruct ejs; by rewrite app_nil_r.
  - rewrite replay_slot_spec by done. rewrite IH. f_equal.
    destruct ejs; [|by rewrite !app_nil_r].
    by rewrite fmap_cons, <- app_assoc.
Qed.

Lemma seqZ_1_4_slots : Forall (λ slot, 0 ≤ slot < 5) (seqZ 1 4).
Proof. apply Forall_forall. intros slot Hs%elem_of_seqZ. lia. Qed.

(** X21. When the emulator is marked ready, the masks stored for the slots
    1 to 4 are replayed in that order: for each slot one [simulateInput]
    call with value 1 for each of the twelve buttons whose bit is set, in
    increasing order of the index, and nothing for slot 0; the stored
    masks are the same afterwards. Without the emulator object no call is
    made. *)
Theorem ready_replays_stored_masks ejs sc :
  prevState_ok sc →
  setEmulatorReady ejs sc true
  = (SocketController (sc_slot sc) true (sc_prevState sc),
     if ejs
     then concat
            ((λ slot,
                (λ i, SimulateInput (slot - 1) i 1)
                <$> filter (λ i, Z.testbit
                                   (default 0
                                      (sc_prevState sc !! Z.to_nat slot)) i
                                 = true)
                      (seqZ 0 12))
             <$> seqZ 1 4)
     else []).
Proof.
  intros Hok. unfold setEmulatorReady.
  by rewrite replay_slots_spec by (done || apply seqZ_1_4_slots).
Qed.

Lemma ready_replays_stored_masks_witness :
  setEmulatorReady true (SocketController (Some 1) false [9; 0; 5; 0; 4096])
    true
  = (SocketController
       (sc_slot (SocketController (Some 1) false [9; 0; 5; 0; 4096])) true
       (sc_prevState (SocketController (Some 1) false [9; 0; 5; 0; 4096])),
     if true
     then concat
            ((λ slot,
                (λ i, SimulateInput (slot - 1) i 1)
                <$> filter (λ i, Z.testbit
                                   (default 0
                                      (sc_prevState
                                         (SocketController (Some 1) false
                                            [9; 0; 5; 0; 4096])
                                       !! Z.to_nat slot)) i
                                 = true)
                      (seqZ 0 12))
             <$> seqZ 1 4)
     else []).
Proof.
  refine (ready_replays_stored_masks true
            (SocketController (Some 1) false [9; 0; 5; 0; 4096]) _).
  split; [reflexivity|]. repeat constructor; lia.
Defined.

Lemma elem_of_concat_fmap {A B} (f : A → list B) (l : list A) (y : B) :
  y ∈ concat (f <$> l) ↔ ∃ x, x ∈ l ∧ y ∈ f x.
Proof.
  induction l as [|x l IH]; simpl.
  - split; [by intros ?%elem_of_nil | by intros (x & ?%elem_of_nil & _)].
  - rewrite elem_of_app, IH. split.
    + intros [Hy|(x' & Hx' & Hy)]; [exists x; split; [left | done]|].
      exists x'. split; [by right | done].
    + intros (x' & [->|Hx']%elem_of_cons & Hy); [by left|].
      right. by exists x'.
Qed.

(** The mask a [joypad:state] leaves in the array. *)
Lemma on_joypad_state_stored ejs sc slot buttons :
  prevState_ok sc →
  0 ≤ slot < 5 →
  Some slot ≠ sc_slot sc →
  prevState_ok (on_joypad_state ejs sc slot buttons).1
  ∧ sc_prevState (on_joypad_state ejs sc slot buttons).1 !! Z.to_nat slot
    = Some (Js.to_uint32 buttons).
Proof.
  intros Hok Hs Hown. unfold on_joypad_state. rewrite decide_False by done.
  destruct Hok as [Hl Hv].
  destruct (typed_get_valid _ _ Hl Hs) as (prev & Hp & Hg).
  destruct (injectInput_state ejs sc slot buttons) as [[-> Hc]| ->].
  - split; [done|]. rewrite Hg in Hc. cbn [default from_option] in Hc.
    apply bxor_zero in Hc. rewrite Hp. f_equal. unfold Js.to_uint32.
    rewrite <- Hc. symmetry. apply Z.mod_small.
    apply (Forall_lookup_1 _ _ _ _ Hv Hp).
  - split; [by apply typed_set_ok|]. cbn [set_prevState sc_prevState].
    unfold typed_set. rewrite decide_True by lia.
    apply list_lookup_insert_eq. lia.
Qed.

(** X22. A [joypad:state] that arrives for one of the slots 1 to 4, other
    than the page's own, before the emulator is ready makes no
    [simulateInput] call, and is not lost: marking the emulator ready right
    after it presses for that player exactly the buttons set in that
    mask. *)
Theorem early_input_is_replayed ejs sc slot buttons :
  prevState_ok sc →
  ejs && sc_ejsReady sc = false →
  Some slot ≠ sc_slot sc →
  1 ≤ slot ≤ 4 →
  (on_joypad_state ejs sc slot buttons).2 = []
  ∧ ∀ i, SimulateInput (slot - 1) i 1
         ∈ (setEmulatorReady true
              (on_joypad_state ejs sc slot buttons).1 true).2
         ↔ 0 ≤ i < 12 ∧ Z.testbit buttons i = true.
Proof.
  intros Hok Hnr Hown Hs. split.
  - unfold on_joypad_state. rewrite decide_False by done.
    unfold _injectInput. case_decide; [done|].
    by destruct ejs, (sc_ejsReady sc).
  - destruct (on_joypad_state_stored ejs sc slot buttons Hok) as [Hok' Hst];
      [lia | done |].
    intros i. unfold setEmulatorReady.
    rewrite replay_slots_spec by (done || apply seqZ_1_4_slots).
    cbn [snd app sc_prevState].
    rewrite elem_of_concat_fmap. split.
    + intros (s & Hs'%elem_of_seqZ & Hin).
      apply list_elem_of_fmap in Hin as (i' & Heq & Hin).
      injection Heq as Hpl ->. assert (s = slot) as -> by lia.
      apply list_elem_of_filter in Hin as [Hbit Hi%elem_of_seqZ].
      rewrite Hst in Hbit. cbn [default from_option id] in Hbit.
      rewrite testbit_to_uint32 in Hbit by lia. split; [lia | done].
    + intros [Hi Hbit]. exists slot. split; [apply elem_of_seqZ; lia|].
      apply list_elem_of_fmap. exists i. split; [done|].
      apply list_elem_of_filter. split; [|apply elem_of_seqZ; lia].
      rewrite Hst. cbn [default from_option id].
      by rewrite testbit_to_uint32 by lia.
Qed.

Lemma early_input_is_replayed_witness :
  (on_joypad_state true (SocketController (Some 1) false [0; 0; 0; 0; 0])
     2 257).2 = []
  ∧ ∀ i, SimulateInput (2 - 1) i 1
         ∈ (setEmulatorReady true
              (on_joypad_state true
                 (SocketController (Some 1) false [0; 0; 0; 0; 0]) 2 257).1
              true).2
         ↔ 0 ≤ i < 12 ∧ Z.testbit 257 i = true.
Proof.
  refine (early_input_is_replayed true
            (SocketController (Some 1) false [0; 0; 0; 0; 0]) 2 257
            _ _ _ _).
  - split; [reflexivity|]. repeat constructor; lia.
  - reflexivity.
  - discriminate.
  - lia.
Defined.
